(** * StockMarketAnalysis: the returns / covariance / Jacobi engine of
    [src/script.js] (class [StockAnalysisApp]), embedded and verified.

    The numerical methods of the class are written once, over an interface
    [JSNumber] of the Number operations the source uses, and read at two
    instances:
    - [float]: IEEE 754 binary64, which is what a JavaScript Number is.  The
      operations [+ - * /], [Math.abs], [<], [>] are the kernel's; NaN and the
      infinities behave as in the engine.  [Math.atan2], [Math.cos] and
      [Math.sin] are implementation-approximated in ECMAScript, so the float
      reading takes them as a parameter ([MathLib float]).
    - [R]: exact real arithmetic, the idealisation in which the algebraic
      properties of the Jacobi rotation (trace, orthonormality, ordering) are
      stated.  There is no NaN in [R]; the theorems at this instance are
      stated for inputs on which no read is out of range.

    Where a property is a matter of rounding (how far the eigenvectors are
    from orthonormal, how far the eigenvalues are from the trace), it is
    stated of the float reading, through the real number every finite double
    stands for, with the rounding of [+], [-] and [*] derived from their
    specification in the kernel.

    DOM access, the canvas charts and the HTTP fetch are not part of the
    model. *)

From Stdlib Require Import String.
From Stdlib Require Import List ZArith Bool Arith Lia.
From Stdlib Require Import Permutation Sorted.
From Stdlib Require Import Reals Lra.
From Stdlib Require Import Floats.
From Stdlib Require Import DecimalString.
Import ListNotations.

Set Implicit Arguments.
#[local] Set Warnings "-inexact-float".

(** ** Completions: a call returns normally or throws *)

(** The only exception the modelled methods can raise is the engine's
    [TypeError] on a property read of [undefined]. *)
Inductive JsError : Type := TypeError.

Inductive completion (A : Type) : Type :=
| Normal (a : A)
| Throw (e : JsError).

Arguments Normal {A} a.
Arguments Throw {A} e.

Definition bind {A B} (c : completion A) (k : A -> completion B) : completion B :=
  match c with
  | Normal a => k a
  | Throw e => Throw e
  end.

Declare Scope js_scope.
Delimit Scope js_scope with js.
Notation "x <- c ;; k" := (bind c (fun x => k))
  (at level 61, c at next level, right associativity) : js_scope.

(** [arr.map(f)] and a [for]/[forEach] loop whose body may throw. *)
Fixpoint mapM {A B} (f : A -> completion B) (l : list A) : completion (list B) :=
  match l with
  | [] => Normal []
  | a :: t => (b <- f a ;; bs <- mapM f t ;; Normal (b :: bs))%js
  end.

Fixpoint foldM {A S} (f : S -> A -> completion S) (l : list A) (s : S) : completion S :=
  match l with
  | [] => Normal s
  | a :: t => (s' <- f s a ;; foldM f t s')%js
  end.

(** A property read [o[k]] that must be an object: [undefined] makes the next
    property access throw. *)
Definition required {A} (o : option A) : completion A :=
  match o with
  | Some a => Normal a
  | None => Throw TypeError
  end.

(** ** Plain objects used as string-keyed maps *)

(** Keys are kept in insertion order, which is the order [Object.keys]
    reports for keys that are not array indices (symbols and ISO dates). *)
Module Obj.
Definition t (V : Type) : Type := list (string * V).

Fixpoint get {V} (k : string) (o : t V) : option V :=
  match o with
  | [] => None
  | (k', v) :: rest => if String.eqb k k' then Some v else get k rest
  end.

(** [o[k] = v]: overwrites in place, or appends a new key. *)
Fixpoint set {V} (k : string) (v : V) (o : t V) : t V :=
  match o with
  | [] => [(k, v)]
  | (k', v') :: rest =>
      if String.eqb k k' then (k', v) :: rest else (k', v') :: set k v rest
  end.

Definition keys {V} (o : t V) : list string := map fst o.
End Obj.

(** ** Arrays *)

(** In-place element write [a[i] = v].  The engine extends an array on a
    write past its end; the matrices of this program are allocated square
    before any write, so every write of the model is in range, where it is
    the engine's. *)
Fixpoint update {A} (i : nat) (v : A) (l : list A) : list A :=
  match l, i with
  | [], _ => []
  | _ :: t, O => v :: t
  | x :: t, S i' => x :: update i' v t
  end.

(** [arr.map((x, i) => f(x, i))]. *)
Definition mapi {A B} (f : A -> nat -> B) (l : list A) : list B :=
  map (fun ix => f (snd ix) (fst ix)) (combine (seq 0 (length l)) l).

(** ** The Number interface *)

Class JSNumber (F : Type) : Type := {
  fromZ : Z -> F;          (* an integer literal, or an array length *)
  lit_half : F;            (* the literal 0.5 *)
  lit_tol : F;             (* the literal 1e-10 *)
  NaN : F;                 (* ToNumber(undefined) *)
  add : F -> F -> F;
  sub : F -> F -> F;
  mul : F -> F -> F;
  div : F -> F -> F;
  abs : F -> F;            (* Math.abs *)
  gtb : F -> F -> bool;    (* x > y *)
  ltb : F -> F -> bool     (* x < y *)
}.

(** The transcendental part of the global [Math] object. *)
Record MathLib (F : Type) : Type := {
  atan2 : F -> F -> F;
  cos : F -> F;
  sin : F -> F
}.

Notation "x :+: y" := (add x y) (at level 50, left associativity).
Notation "x :-: y" := (sub x y) (at level 50, left associativity).
Notation "x :*: y" := (mul x y) (at level 40, left associativity).
Notation "x :/: y" := (div x y) (at level 40, left associativity).

(** IEEE 754 binary64. *)
#[export] Instance FloatNumber : JSNumber float := {
  fromZ z := if (z <? 0)%Z
             then PrimFloat.opp (PrimFloat.of_uint63 (Uint63.of_Z (- z)))
             else PrimFloat.of_uint63 (Uint63.of_Z z);
  lit_half := 0.5%float;
  lit_tol := 1e-10%float;
  NaN := PrimFloat.nan;
  add := PrimFloat.add;
  sub := PrimFloat.sub;
  mul := PrimFloat.mul;
  div := PrimFloat.div;
  abs := PrimFloat.abs;
  gtb x y := PrimFloat.ltb y x;
  ltb := PrimFloat.ltb
}.

(** Exact reals.  [NaN] has no counterpart; it is read only where an array
    read is out of range. *)
Definition Rgtb (x y : R) : bool := if Rlt_dec y x then true else false.
Definition Rltb (x y : R) : bool := if Rlt_dec x y then true else false.

#[export] Instance RealNumber : JSNumber R := {
  fromZ := IZR;
  lit_half := (1 / 2)%R;
  lit_tol := (1 / 10000000000)%R;
  NaN := 0%R;
  add := Rplus;
  sub := Rminus;
  mul := Rmult;
  div := Rdiv;
  abs := Rabs;
  gtb := Rgtb;
  ltb := Rltb
}.

(** [Math.atan2(y, x)] on reals, by quadrant. *)
Definition Ratan2 (y x : R) : R :=
  if Rlt_dec 0 x then atan (y / x)
  else if Rlt_dec x 0 then
    if Rlt_dec y 0 then (atan (y / x) - PI)%R else (atan (y / x) + PI)%R
  else if Rlt_dec 0 y then (PI / 2)%R
  else if Rlt_dec y 0 then (- PI / 2)%R
  else 0%R.

Definition RealMath : MathLib R :=
  {| atan2 := Ratan2; cos := Rtrigo_def.cos; sin := Rtrigo_def.sin |}.


(** ** The engine *)

Section Engine.
Context {F : Type} {Num : JSNumber F}.

(** A price read from the table: a Number, or [undefined] where the date is
    missing. *)
Definition ToNumber (v : option F) : F :=
  match v with
  | Some x => x
  | None => NaN
  end.

(** [arr[i]] used as an operand: [undefined] past the end becomes NaN. *)
Definition at_ (arr : list F) (i : nat) : F := nth i arr NaN.

(** [m[i][j]] used as an operand. *)
Definition cell (m : list (list F)) (i j : nat) : F := at_ (nth i m []) j.

(** [m[i][j] = v]. *)
Definition setCell (m : list (list F)) (i j : nat) (v : F) : list (list F) :=
  update i (update j v (nth i m [])) m.

(** [arr.reduce((a, b) => a + b, 0)]. *)
Definition sumOf (arr : list F) : F := fold_left add arr (fromZ 0).

(** [arr.length] as a Number. *)
Definition len {A} (arr : list A) : F := fromZ (Z.of_nat (length arr)).

(** *** performAnalysis, lines 96-104: simple returns of one price array *)

Definition priceAt (ps : list (option F)) (i : nat) : F :=
  ToNumber (nth i ps None).

Definition returnsOf (ps : list (option F)) : list F :=
  fold_left
    (fun acc i =>
       let ret := (priceAt ps i :-: priceAt ps (i - 1)) :/: priceAt ps (i - 1) in
       acc ++ [ret])
    (seq 1 (length ps - 1)) [].

(** *** calculateCovarianceMatrix, lines 131-151 *)

(** Lines 139-146, for the two arrays read at lines 137-138. *)
Definition covEntry (retI retJ : list F) : F :=
  let meanI := sumOf retI :/: len retI in
  let meanJ := sumOf retJ :/: len retJ in
  let covariance :=
    fold_left
      (fun covariance k =>
         covariance :+: (at_ retI k :-: meanI) :*: (at_ retJ k :-: meanJ))
      (seq 0 (length retI)) (fromZ 0) in
  covariance :/: (len retI :-: fromZ 1).

Definition zeroMatrix (n : nat) : list (list F) := repeat (repeat (fromZ 0) n) n.

Definition calculateCovarianceMatrix (stocks : list string) (returns : Obj.t (list F))
  : completion (list (list F)) :=
  let n := length stocks in
  foldM
    (fun matrix i =>
       foldM
         (fun matrix j =>
            (retI <- required (Obj.get (nth i stocks ""%string) returns) ;;
             retJ <- required (Obj.get (nth j stocks ""%string) returns) ;;
             Normal (setCell matrix i j (covEntry retI retJ)))%js)
         (seq 0 n) matrix)
    (seq 0 n) (zeroMatrix n).

(** *** jacobiMethod, lines 159-225 *)

Definition identityMatrix (n : nat) : list (list F) :=
  map (fun i => map (fun j => if Nat.eqb i j then fromZ 1 else fromZ 0) (seq 0 n)) (seq 0 n).

(** Lines 167-178: the scan of the strict upper triangle; the state is
    [(max, p, q)]. *)
Definition findPivot (n : nat) (values : list (list F)) : F * nat * nat :=
  fold_left
    (fun st i =>
       fold_left
         (fun st j =>
            let '(max, p, q) := st in
            if gtb (abs (cell values i j)) max
            then (abs (cell values i j), i, j)
            else (max, p, q))
         (seq (i + 1) (n - (i + 1))) st)
    (seq 0 n) (fromZ 0, 0, 0).

(** Lines 187-204: the rotation of the working matrix. *)
Definition rotateValues (n p q : nat) (c s : F) (values : list (list F)) : list (list F) :=
  let values :=
    fold_left
      (fun values r =>
         if negb (Nat.eqb r p) && negb (Nat.eqb r q) then
           let temp1 := cell values p r in
           let temp2 := cell values q r in
           let values := setCell values p r (c :*: temp1 :-: s :*: temp2) in
           let values := setCell values r p (cell values p r) in
           let values := setCell values q r (s :*: temp1 :+: c :*: temp2) in
           setCell values r q (cell values q r)
         else values)
      (seq 0 n) values in
  let temp1 := cell values p p in
  let temp2 := cell values q q in
  let temp3 := cell values p q in
  let values :=
    setCell values p p
      (c :*: c :*: temp1 :+: s :*: s :*: temp2 :-: fromZ 2 :*: c :*: s :*: temp3) in
  let values :=
    setCell values q q
      (s :*: s :*: temp1 :+: c :*: c :*: temp2 :+: fromZ 2 :*: c :*: s :*: temp3) in
  let values := setCell values q p (fromZ 0) in
  setCell values p q (fromZ 0).

(** Lines 207-212: the same rotation on columns [p] and [q] of the
    accumulator. *)
Definition rotateVectors (n p q : nat) (c s : F) (vectors : list (list F)) : list (list F) :=
  fold_left
    (fun vectors r =>
       let temp1 := cell vectors r p in
       let temp2 := cell vectors r q in
       let vectors := setCell vectors r p (c :*: temp1 :-: s :*: temp2) in
       setCell vectors r q (s :*: temp1 :+: c :*: temp2))
    (seq 0 n) vectors.

(** The variables the [for] loop of line 166 carries. *)
Record JacobiState : Type := {
  iter : nat;
  work : list (list F);     (* [values] *)
  basis : list (list F)     (* [vectors] *)
}.

(** Line 180: the [break] test. *)
Definition converged (n : nat) (values : list (list F)) : bool :=
  let '(max, _, _) := findPivot n values in ltb max lit_tol.

(** Lines 182-212: one pass of the loop body after the test. *)
Definition rotate (M : MathLib F) (n : nat) (st : JacobiState) : JacobiState :=
  let '(_, p, q) := findPivot n (work st) in
  let theta :=
    lit_half :*: atan2 M (fromZ 2 :*: cell (work st) p q)
                         (cell (work st) q q :-: cell (work st) p p) in
  let c := cos M theta in
  let s := sin M theta in
  {| iter := S (iter st);
     work := rotateValues n p q c s (work st);
     basis := rotateVectors n p q c s (basis st) |}.

(** Lines 166-213: [remaining] is [50 - iter]. *)
Fixpoint jacobiLoop (M : MathLib F) (n remaining : nat) (st : JacobiState) : JacobiState :=
  match remaining with
  | O => st
  | S remaining' =>
      if converged n (work st) then st
      else jacobiLoop M n remaining' (rotate M n st)
  end.

(** [Array.prototype.sort] with a comparator: ECMAScript requires a stable
    sort, in which [a] comes before [b] whenever [comparefn(a, b) < 0].  For
    a consistent comparator that fixes the result; it is computed here by
    stable insertion. *)
Fixpoint insertSorted {A} (cmp : A -> A -> F) (x : A) (l : list A) : list A :=
  match l with
  | [] => [x]
  | y :: t =>
      if ltb (cmp y x) (fromZ 0) then y :: insertSorted cmp x t else x :: y :: t
  end.

Definition sortBy {A} (cmp : A -> A -> F) (l : list A) : list A :=
  fold_right (insertSorted cmp) [] l.

(** Lines 218-219. *)
Definition sortedIndices (eigenvalues : list F) : list nat :=
  sortBy (fun a b => at_ eigenvalues b :-: at_ eigenvalues a)
         (mapi (fun _ i => i) eigenvalues).

Definition column (m : list (list F)) (i : nat) : list F :=
  map (fun row => at_ row i) m.

(** Lines 160-166: the state before the first pass.  [values] is a copy of
    the input, row by row, so the input itself is never written. *)
Definition initialState (matrix : list (list F)) : JacobiState :=
  {| iter := 0; work := matrix; basis := identityMatrix (length matrix) |}.

(** The state after the loop, from line 160 to line 213. *)
Definition jacobiFinal (M : MathLib F) (matrix : list (list F)) : JacobiState :=
  jacobiLoop M (length matrix) 50 (initialState matrix).

(** Line 215. *)
Definition diagonal (values : list (list F)) : list F :=
  mapi (fun row i => at_ row i) values.

Record EigenResult : Type := {
  values : list F;
  vectors : list (list F)
}.

(** Lines 215-224: the result read out of the state the loop left. *)
Definition readOut (st : JacobiState) : EigenResult :=
  let eigenvalues := diagonal (work st) in
  let indices := sortedIndices eigenvalues in
  {| values := map (fun i => at_ eigenvalues i) indices;
     vectors := map (fun i => column (basis st) i) indices |}.

Definition jacobiMethod (M : MathLib F) (matrix : list (list F)) : EigenResult :=
  readOut (jacobiFinal M matrix).

(** *** performPCA, lines 153-157 *)

Definition performPCA (M : MathLib F) (covMatrix : list (list F)) : list F * list (list F) :=
  let r := jacobiMethod M covMatrix in (values r, vectors r).

(** *** findMaxIndex, lines 227-231 *)

Definition findMaxIndex (arr : list F) : nat :=
  fold_left
    (fun maxIndex ix => if gtb (snd ix) (at_ arr maxIndex) then fst ix else maxIndex)
    (combine (seq 0 (length arr)) arr) 0.

(** *** performAnalysis, lines 87-129 *)

Record Summary : Type := {
  mainTrendStock : option string;   (* [this.stocks[k]], [undefined] past the end *)
  varianceExplained : F;
  totalVariance : F
}.

(** Lines 123-127.  [findMaxIndex(eigenvectors[0])] reads [.reduce] of
    [undefined] when there is no eigenvector. *)
Definition interpret (stocks : list string) (eigenvalues : list F)
  (eigenvectors : list (list F)) : completion Summary :=
  (v0 <- required (nth_error eigenvectors 0) ;;
   Normal {| mainTrendStock := nth_error stocks (findMaxIndex v0);
             varianceExplained :=
               (at_ eigenvalues 0 :/: sumOf eigenvalues) :*: fromZ 100;
             totalVariance := sumOf eigenvalues |})%js.

Record Analysis : Type := {
  res_stockData : Obj.t (Obj.t F);
  res_returns : Obj.t (list F);
  res_eigenvalues : list F;
  res_eigenvectors : list (list F);
  res_analysis : Summary
}.

(** Lines 89-94: the dates of the first stock, then every stock's prices at
    those dates. *)
Definition pricesOf (stocks : list string) (stockData : Obj.t (Obj.t F))
  : completion (list string * Obj.t (list (option F))) :=
  (first <- required (Obj.get (nth 0 stocks "undefined"%string) stockData) ;;
   let dates := Obj.keys first in
   prices <-
     foldM
       (fun prices stock =>
          row <- mapM (fun date =>
                         series <- required (Obj.get stock stockData) ;;
                         Normal (Obj.get date series))
                      dates ;;
          Normal (Obj.set stock row prices))
       stocks [] ;;
   Normal (dates, prices))%js.

(** Lines 97-104. *)
Definition returnsTable (stocks : list string) (prices : Obj.t (list (option F)))
  : completion (Obj.t (list F)) :=
  foldM
    (fun returns stock =>
       (ps <- required (Obj.get stock prices) ;;
        Normal (Obj.set stock (returnsOf ps) returns))%js)
    stocks [].

(** The two chart calls of lines 113-114 draw on a canvas and are left out;
    what remains of line 113 is that [createTrendChart(eigenvectors[0])]
    reads [.map] of [undefined] when there is no eigenvector, the same
    completion [interpret] has. *)
Definition performAnalysis (M : MathLib F) (stocks : list string)
  (stockData : Obj.t (Obj.t F)) : completion Analysis :=
  (dp <- pricesOf stocks stockData ;;
   returns <- returnsTable stocks (snd dp) ;;
   covMatrix <- calculateCovarianceMatrix stocks returns ;;
   let '(eigenvalues, eigenvectors) := performPCA M covMatrix in
   summary <- interpret stocks eigenvalues eigenvectors ;;
   Normal {| res_stockData := stockData;
             res_returns := returns;
             res_eigenvalues := eigenvalues;
             res_eigenvectors := eigenvectors;
             res_analysis := summary |})%js.

End Engine.

(** The basket of line 3. *)
Definition stocks : list string :=
  ["RELIANCE.NS"; "TCS.NS"; "INFY.NS"; "HDFCBANK.NS"; "ITC.NS"]%string.

(** ** Around the engine: chart data, tables, and the click handler *)

(** *** processChartData, lines 69-85 *)

(** One element of [data.chart.result]: [meta.symbol], [timestamp] and
    [indicators.quote[0].close].  [T] is the type of the time stamps the
    provider sends and [V] the type of the closes. *)
Record ChartResult (T V : Type) : Type := {
  meta_symbol : string;
  timestamp : list T;
  close : list V
}.

Arguments meta_symbol {T V} _.
Arguments timestamp {T V} _.
Arguments close {T V} _.

Section ChartData.
Context {T V : Type}.

(** [new Date(timestamp * 1000).toISOString().split('T')[0]], for time stamps
    that are valid time values. *)
Variable isoDate : T -> string.

(** Lines 77-81: the object [result[symbol]] after the inner [forEach].
    [closes[i]] is [undefined] when the closes are fewer than the time
    stamps; the key is written all the same. *)
Definition seriesOfChart (stockData : ChartResult T V) : Obj.t (option V) :=
  fold_left
    (fun series it => Obj.set (isoDate (snd it)) (nth_error (close stockData) (fst it)) series)
    (combine (seq 0 (length (timestamp stockData))) (timestamp stockData)) [].

(** Line 77 stores a fresh object under the symbol and lines 78-81 fill it
    in place; no other reference to it exists, so the object is written here
    once, filled. *)
Definition processChartData (results : list (ChartResult T V)) : Obj.t (Obj.t (option V)) :=
  fold_left
    (fun result stockData => Obj.set (meta_symbol stockData) (seriesOfChart stockData) result)
    results [].

End ChartData.

(** *** createReturnsChart, lines 293-301: the cumulative returns of one
    price array *)

Definition cumulativeReturnsOf {F : Type} {Num : JSNumber F} (ps : list (option F)) : list F :=
  fold_left
    (fun acc i =>
       let ret := (priceAt ps i :-: priceAt ps 0) :/: priceAt ps 0 in
       acc ++ [fromZ 1 :+: ret])
    (seq 1 (length ps - 1)) [fromZ 1].

(** *** The two tables, lines 363-423 *)

(** [s || d] on strings: the empty string is falsy. *)
Definition orElse (s d : string) : string :=
  if String.eqb s ""%string then d else s.

(** [arr.slice(-5)]. *)
Definition lastFive {A} (l : list A) : list A := skipn (length l - 5) l.

(** A [forEach] that appends one row to a table body at the end of each
    callback: the rows appended, and how the loop completed.  A callback
    that throws leaves the rows before it in the table. *)
Fixpoint appendRows {A Row} (f : A -> completion Row) (l : list A)
  : list Row * completion unit :=
  match l with
  | [] => ([], Normal tt)
  | a :: t =>
      match f a with
      | Throw e => ([], Throw e)
      | Normal row => let '(rows, c) := appendRows f t in (row :: rows, c)
      end
  end.

(** A row of the eigen table: the component cell, the eigenvalue cell, and
    the eigenvector cells, each with whether it is highlighted. *)
Record EigenRow : Type := {
  component : string;
  eigenvalueText : string;
  loadings : list (string * bool)
}.

Section Tables.
Context {F : Type}.

(** [x.toFixed(digits)] and [new Date(date).toLocaleDateString()]. *)
Variable toFixed : F -> nat -> string.
Variable toLocaleDateString : string -> string.

(** Line 380: [pricesData[stock][date]?.toFixed(2) || 'N/A']. *)
Definition priceCell (v : option F) : string :=
  match v with
  | Some x => orElse (toFixed x 2) "N/A"%string
  | None => "N/A"%string
  end.

(** displayStockPrices, lines 363-386: the rows of [#pricesTable tbody]
    after the call (line 365 empties it first), and the completion. *)
Definition displayStockPrices (stocks : list string) (pricesData : Obj.t (Obj.t F))
  : list (list string) * completion unit :=
  match Obj.get (nth 0 stocks "undefined"%string) pricesData with
  | None => ([], Throw TypeError)
  | Some first =>
      appendRows
        (fun date =>
           (cells <- mapM (fun stock =>
                             series <- required (Obj.get stock pricesData) ;;
                             Normal (priceCell (Obj.get date series)))
                          stocks ;;
            Normal (toLocaleDateString date :: cells))%js)
        (lastFive (Obj.keys first))
  end.

(** The text of [`PC${index + 1}`]. *)
Definition componentLabel (index : nat) : string :=
  ("PC" ++ NilZero.string_of_uint (Nat.to_uint (index + 1)))%string.

(** displayEigenData, lines 388-423: the rows of [#eigenTable tbody] after
    the call, and the completion.  [eigenvectors[index].forEach] throws when
    there is no eigenvector for an eigenvalue. *)
Definition displayEigenData (eigenvalues : list F) (eigenvectors : list (list F))
  : list EigenRow * completion unit :=
  appendRows
    (fun ix =>
       (vector <- required (nth_error eigenvectors (fst ix)) ;;
        Normal {| component := componentLabel (fst ix);
                  eigenvalueText := toFixed (snd ix) 6;
                  loadings := map (fun value => (toFixed value 4, Nat.eqb (fst ix) 0))
                                  vector |})%js)
    (combine (seq 0 (length eigenvalues)) eigenvalues).

(** *** The page, as far as the handlers write it *)

(** What the catch clause of line 48 can receive: the failure of the fetch,
    with its message, or an exception of the analysis or the display. *)
Inductive Failure : Type :=
| FetchFailed (message : string)
| Thrown (e : JsError).

(** What [alert] showed: a fixed text, or ['Analysis failed: ' +
    error.message] for the failure caught. *)
Inductive Alert : Type :=
| Message (text : string)
| AnalysisFailed (cause : Failure).

(** The elements the handlers write.  The two chart images are left out
    with the charts. *)
Record Page : Type := {
  mainTrendStockText : option string;
  varianceExplainedText : string;
  totalVarianceText : string;
  pricesTable : list (list string);
  eigenTable : list EigenRow;
  resultsHidden : bool;     (* [#resultsSection] has the class [hidden] *)
  spinnerHidden : bool;     (* [#loadingSpinner] has the class [hidden] *)
  alerts : list Alert
}.

(** showError, lines 435-437. *)
Definition showError (a : Alert) (page : Page) : Page :=
  {| mainTrendStockText := mainTrendStockText page;
     varianceExplainedText := varianceExplainedText page;
     totalVarianceText := totalVarianceText page;
     pricesTable := pricesTable page;
     eigenTable := eigenTable page;
     resultsHidden := resultsHidden page;
     spinnerHidden := spinnerHidden page;
     alerts := alerts page ++ [a] |}.

(** showLoading, lines 425-433. *)
Definition showLoading (show : bool) (page : Page) : Page :=
  {| mainTrendStockText := mainTrendStockText page;
     varianceExplainedText := varianceExplainedText page;
     totalVarianceText := totalVarianceText page;
     pricesTable := pricesTable page;
     eigenTable := eigenTable page;
     resultsHidden := if show then true else resultsHidden page;
     spinnerHidden := negb show;
     alerts := alerts page |}.

(** displayResults, lines 341-361: the page it leaves, and its completion.
    The results section is shown at line 360 only, after both tables. *)
Definition displayResults (stocks : list string) (analysis : @Analysis F) (page : Page)
  : Page * completion unit :=
  let summary := res_analysis analysis in
  let '(prices, c1) := displayStockPrices stocks (res_stockData analysis) in
  let texts (eigen : list EigenRow) (hidden : bool) :=
    {| mainTrendStockText := mainTrendStock summary;
       varianceExplainedText := (toFixed (varianceExplained summary) 2 ++ "%")%string;
       totalVarianceText := toFixed (totalVariance summary) 6;
       pricesTable := prices;
       eigenTable := eigen;
       resultsHidden := hidden;
       spinnerHidden := spinnerHidden page;
       alerts := alerts page |} in
  match c1 with
  | Throw e => (texts (eigenTable page) (resultsHidden page), Throw e)
  | Normal _ =>
      let '(eigen, c2) :=
        displayEigenData (res_eigenvalues analysis) (res_eigenvectors analysis) in
      match c2 with
      | Throw e => (texts eigen (resultsHidden page), Throw e)
      | Normal _ => (texts eigen false, Normal tt)
      end
  end.

End Tables.

(** *** analyzeStocks, lines 27-53 *)

Section Handler.

Variable toFixed : float -> nat -> string.
Variable toLocaleDateString : string -> string.

(** The time value of [new Date(s)]: NaN for a string that is no date. *)
Variable timeValue : string -> float.

(** What [await this.fetchStockData(startDate, endDate)] gave: a price
    table, or a failure with its message. *)
Variable fetched : string -> string -> Obj.t (Obj.t float) + string.

Variable M : MathLib float.

Definition analyzeStocks (stocks : list string) (startDate endDate : string) (page : Page)
  : Page :=
  if String.eqb startDate ""%string || String.eqb endDate ""%string then
    showError (Message "Please select both start and end dates"%string) page
  else if PrimFloat.leb (timeValue endDate) (timeValue startDate) then
    showError (Message "Start date must be before end date"%string) page
  else
    let page := showLoading true page in
    let page :=
      match fetched startDate endDate with
      | inr message => showError (AnalysisFailed (FetchFailed message)) page
      | inl stockData =>
          match performAnalysis M stocks stockData with
          | Throw e => showError (AnalysisFailed (Thrown e)) page
          | Normal analysis =>
              let '(page, c) :=
                displayResults toFixed toLocaleDateString stocks analysis page in
              match c with
              | Throw e => showError (AnalysisFailed (Thrown e)) page
              | Normal _ => page
              end
          end
      end in
    showLoading false page.

End Handler.

(** ** Statements of the specification *)

(** The unbiased sample covariance of two series, as the specification
    writes it: the sum over [k] of [(r_i[k] - mean_i) (r_j[k] - mean_j)],
    over [M - 1], with [mean] the arithmetic mean. *)
Module Spec.
Section Spec.
Context {F : Type} {Num : JSNumber F}.

Definition total (xs : list F) : F := fold_left add xs (fromZ 0).

Definition mean (r : list F) : F := total r :/: fromZ (Z.of_nat (length r)).

Definition sampleCovariance (ri rj : list F) : F :=
  total (map (fun xy => (fst xy :-: mean ri) :*: (snd xy :-: mean rj)) (combine ri rj))
  :/: (fromZ (Z.of_nat (length ri)) :-: fromZ 1).

End Spec.
End Spec.

(** A matrix of [n] rows of [n] cells. *)
Definition square {A} (n : nat) (m : list (list A)) : Prop :=
  length m = n /\ Forall (fun row => length row = n) m.

(** ** Notions used to state and prove the properties *)

(** A sequence of cell writes [m[i][j] = E i j]. *)
Definition writeCells {F : Type} {Num : JSNumber F} (E : nat -> nat -> F)
  (ws : list (nat * nat)) (m : list (list F)) : list (list F) :=
  fold_left (fun m ij => setCell m (fst ij) (snd ij) (E (fst ij) (snd ij))) ws m.

(** The strict upper triangle in the order lines 170-171 visit it. *)
Definition upperTriangle (n : nat) : list (nat * nat) :=
  flat_map (fun i => map (fun j => (i, j)) (seq (i + 1) (n - (i + 1)))) (seq 0 n).

(** One visit of the scan of lines 172-176. *)
Definition pivotStep {F : Type} {Num : JSNumber F} (values : list (list F))
  (st : F * nat * nat) (ij : nat * nat) : F * nat * nat :=
  let '(max, p, q) := st in
  if gtb (abs (cell values (fst ij) (snd ij))) max
  then (abs (cell values (fst ij) (snd ij)), fst ij, snd ij)
  else (max, p, q).

(** The state after [k] passes of the loop body, with no test in between. *)
Definition afterRotations {F : Type} {Num : JSNumber F} (M : MathLib F)
  (matrix : list (list F)) (k : nat) : JacobiState :=
  Nat.iter k (rotate M (length matrix)) (initialState matrix).

(** The body of the loop of lines 207-212. *)
Definition rotateRow {F : Type} {Num : JSNumber F} (p q : nat) (c s : F)
  (vectors : list (list F)) (r : nat) : list (list F) :=
  let temp1 := cell vectors r p in
  let temp2 := cell vectors r q in
  let vectors := setCell vectors r p (c :*: temp1 :-: s :*: temp2) in
  setCell vectors r q (s :*: temp1 :+: c :*: temp2).

(** The cell [j] of a row whose cells [p] and [q] were rotated. *)
Definition rotatedCell (p q : nat) (c s : R) (V : list (list R)) (r j : nat) : R :=
  if Nat.eqb j p then (c * cell V r p - s * cell V r q)%R
  else if Nat.eqb j q then (s * cell V r p + c * cell V r q)%R
  else cell V r j.

(** The price object of an asset, and the dates line 89 reads. *)
Definition seriesOf {F : Type} (stockData : Obj.t (Obj.t F)) (stock : string) : Obj.t F :=
  match Obj.get stock stockData with
  | Some series => series
  | None => []
  end.

Definition datesOf {F : Type} (stocks : list string) (stockData : Obj.t (Obj.t F))
  : list string :=
  Obj.keys (seriesOf stockData (nth 0 stocks "undefined"%string)).

(** The prices of an asset at those dates, [undefined] where it has none. *)
Definition pricesAt {F : Type} (stocks : list string) (stockData : Obj.t (Obj.t F))
  (stock : string) : list (option F) :=
  map (fun date => Obj.get date (seriesOf stockData stock)) (datesOf stocks stockData).

(** All assets of the basket have the same dates, in the same order. *)
Definition aligned {F : Type} (stocks : list string) (stockData : Obj.t (Obj.t F)) : Prop :=
  forall s s', In s stocks -> In s' stocks ->
               Obj.keys (seriesOf stockData s) = Obj.keys (seriesOf stockData s').

(** Sums of reals. *)
Definition Rsum (xs : list R) : R := fold_right Rplus 0%R xs.

Definition bigsum (f : nat -> R) (n : nat) : R := Rsum (map f (seq 0 n)).

(** The trace, and the dot product of two vectors. *)
Definition trace (m : list (list R)) : R := bigsum (fun i => cell m i i) (length m).

Definition dot (u v : list R) : R :=
  Rsum (map (fun xy => (fst xy * snd xy)%R) (combine u v)).

(** The dot product of columns [i] and [j] of an [n]-row matrix. *)
Definition coldot (n : nat) (V : list (list R)) (i j : nat) : R :=
  bigsum (fun r => (cell V r i * cell V r j)%R) n.

Definition delta (i j : nat) : R := if Nat.eqb i j then 1%R else 0%R.

(** The columns of [V] are orthonormal. *)
Definition orthonormal (n : nat) (V : list (list R)) : Prop :=
  square n V /\ forall i j, i < n -> j < n -> coldot n V i j = delta i j.

(** Every entry of the strict upper triangle is below the tolerance of
    line 180 in magnitude. *)
Definition offDiagonalSmall (n : nat) (A : list (list R)) : Prop :=
  forall i j, i < j -> j < n -> (Rabs (cell A i j) < 1 / 10000000000)%R.

(** [m[i][j] = m[j][i]] within [n] rows and columns. *)
Definition symmetric {F : Type} {Num : JSNumber F} (n : nat) (m : list (list F)) : Prop :=
  forall i j, i < n -> j < n -> cell m i j = cell m j i.

(** Every off-diagonal entry is below the tolerance of line 180. *)
Definition allOffDiagonalSmall (n : nat) (A : list (list R)) : Prop :=
  forall i j, i <> j -> i < n -> j < n -> (Rabs (cell A i j) < 1 / 10000000000)%R.


(** An object after [l.forEach(x => { o[key(x)] = val(x) })]. *)
Definition fillObject {A V : Type} (key : A -> string) (val : A -> V)
  (l : list A) (o : Obj.t V) : Obj.t V :=
  fold_left (fun o x => Obj.set (key x) (val x) o) l o.

(** The body of the loop of lines 187-196. *)
Definition rotateOffDiagonal {F : Type} {Num : JSNumber F} (p q : nat) (c s : F)
  (values : list (list F)) (r : nat) : list (list F) :=
  if negb (Nat.eqb r p) && negb (Nat.eqb r q) then
    let temp1 := cell values p r in
    let temp2 := cell values q r in
    let values := setCell values p r (c :*: temp1 :-: s :*: temp2) in
    let values := setCell values r p (cell values p r) in
    let values := setCell values q r (s :*: temp1 :+: c :*: temp2) in
    setCell values r q (cell values q r)
  else values.

(** Pass [r] of that loop writes the cell [(x, y)]. *)
Definition writtenBy (p q r x y : nat) : Prop :=
  r <> p /\ r <> q /\
  ((x = r /\ (y = p \/ y = q)) \/ (y = r /\ (x = p \/ x = q))).

(** The cell [(i, j)] of the working matrix [W] after a rotation in the
    plane [(p, q)]. *)
Definition rotatedValue (p q : nat) (c s : R) (W : list (list R)) (i j : nat) : R :=
  if Nat.eqb i p then
    if Nat.eqb j p then
      (c * c * cell W p p + s * s * cell W q q - 2 * c * s * cell W p q)%R
    else if Nat.eqb j q then 0%R
    else (c * cell W p j - s * cell W q j)%R
  else if Nat.eqb i q then
    if Nat.eqb j p then 0%R
    else if Nat.eqb j q then
      (s * s * cell W p p + c * c * cell W q q + 2 * c * s * cell W p q)%R
    else (s * cell W p j + c * cell W q j)%R
  else
    if Nat.eqb j p then (c * cell W p i - s * cell W q i)%R
    else if Nat.eqb j q then (s * cell W p i + c * cell W q i)%R
    else cell W i j.

(** The entry [(i, j)] of [V^T A V], for [n]-row matrices. *)
Definition congruence (n : nat) (A V : list (list R)) (i j : nat) : R :=
  bigsum (fun a => bigsum (fun b => (cell V a i * cell A a b * cell V b j)%R) n) n.

(** [u^T A v] for vectors of length [n]. *)
Definition bilinear (n : nat) (A : list (list R)) (u v : list R) : R :=
  bigsum (fun a => bigsum (fun b => (at_ u a * cell A a b * at_ v b)%R) n) n.

(** The dot product of rows [a] and [b]. *)
Definition rowdot (n : nat) (V : list (list R)) (a b : nat) : R :=
  bigsum (fun j => (cell V a j * cell V b j)%R) n.

(** The vector [A v]. *)
Definition applyMatrix (n : nat) (A : list (list R)) (v : list R) : list R :=
  map (fun a => bigsum (fun b => (cell A a b * at_ v b)%R) n) (seq 0 n).

(** The deviation of return [k] of a series from the mean of the series,
    as lines 139-145 compute it. *)
Definition deviation (r : list R) (k : nat) : R := (at_ r k - sumOf r / len r)%R.

(** *** Doubles as the reals they hold *)

(** The value of a sign and a magnitude. *)
Definition signed (s : bool) (x : R) : R := if s then (- x)%R else x.

(** The real number a double stands for: [m * 2^e] with its sign for a
    finite one; the zeros stand for 0.  NaN and the infinities stand for no
    real and are read as 0 here: every statement about [realOf] comes with
    [isFinite]. *)
Definition SF2R (x : spec_float) : R :=
  match x with
  | S754_finite s m e => signed s (IZR (Zpos m) * powerRZ 2 e)
  | _ => 0%R
  end.

Definition SFfinite (x : spec_float) : bool :=
  match x with
  | S754_finite _ _ _ | S754_zero _ => true
  | _ => false
  end.

Definition realOf (x : float) : R := SF2R (Prim2SF x).

(** [Number.isFinite(x)]. *)
Definition isFinite (x : float) : bool := SFfinite (Prim2SF x).

(** The angle of line 182 in a state. *)
Definition angle {F : Type} {Num : JSNumber F} (M : MathLib F) (n : nat)
  (st : JacobiState) : F :=
  let '(_, p, q) := findPivot n (work st) in
  lit_half :*: atan2 M (fromZ 2 :*: cell (work st) p q)
                       (cell (work st) q q :-: cell (work st) p p).

(** A cosine and a sine as a Math library returns them for a finite angle:
    finite, and on the unit circle up to [1e-12]. *)
Definition nearUnitCircle (c s : float) : Prop :=
  isFinite c = true /\ isFinite s = true /\
  (Rabs (realOf c * realOf c + realOf s * realOf s - 1) <= 1 / 1000000000000)%R.

(** The reals a matrix of doubles holds. *)
Definition realCells (V : list (list float)) (r j : nat) : R := realOf (cell V r j).

Definition allFinite (n : nat) (V : list (list float)) : Prop :=
  forall r j, r < n -> j < n -> isFinite (cell V r j) = true.


(** The sum of the squares of the entries. *)
Definition sumOfSquares (n : nat) (A : nat -> nat -> R) : R :=
  bigsum (fun i => bigsum (fun j => (A i j * A i j)%R) n) n.


(** Columns [p] and [q] rotated as lines 207-212 rotate them, and the same
    on rows. *)
Definition mixColumns (p q : nat) (c s : R) (A : nat -> nat -> R) (i j : nat) : R :=
  if Nat.eqb j p then (c * A i p - s * A i q)%R
  else if Nat.eqb j q then (s * A i p + c * A i q)%R
  else A i j.

Definition mixRows (p q : nat) (c s : R) (A : nat -> nat -> R) (i j : nat) : R :=
  mixColumns p q c s (fun a b => A b a) j i.


(** The cell [(i, j)] lines 187-204 leave in the working matrix, whatever
    the Number type. *)
Definition rotatedEntry {F : Type} {Num : JSNumber F} (p q : nat) (c s : F)
  (W : list (list F)) (i j : nat) : F :=
  if Nat.eqb i p then
    if Nat.eqb j p then
      c :*: c :*: cell W p p :+: s :*: s :*: cell W q q :-: fromZ 2 :*: c :*: s :*: cell W p q
    else if Nat.eqb j q then fromZ 0
    else c :*: cell W p j :-: s :*: cell W q j
  else if Nat.eqb i q then
    if Nat.eqb j p then fromZ 0
    else if Nat.eqb j q then
      s :*: s :*: cell W p p :+: c :*: c :*: cell W q q :+: fromZ 2 :*: c :*: s :*: cell W p q
    else s :*: cell W p j :+: c :*: cell W q j
  else
    if Nat.eqb j p then c :*: cell W p i :-: s :*: cell W q i
    else if Nat.eqb j q then s :*: cell W p i :+: c :*: cell W q i
    else cell W i j.

(** The double [x] is finite and holds [r] up to [e], where [r] is at most
    [b] in magnitude. *)
Definition approximates (x : float) (r e b : R) : Prop :=
  isFinite x = true /\ (Rabs (realOf x - r) <= e)%R /\ (Rabs r <= b)%R.

(** The cell [(i, j)] of the working matrix after an exact rotation, the
    matrix given as a function of the row and the column. *)
Definition rotatedCells (p q : nat) (c s : R) (X : nat -> nat -> R) (i j : nat) : R :=
  if Nat.eqb i p then
    if Nat.eqb j p then (c * c * X p p + s * s * X q q - 2 * c * s * X p q)%R
    else if Nat.eqb j q then 0%R
    else (c * X p j - s * X q j)%R
  else if Nat.eqb i q then
    if Nat.eqb j p then 0%R
    else if Nat.eqb j q then (s * s * X p p + c * c * X q q + 2 * c * s * X p q)%R
    else (s * X p j + c * X q j)%R
  else
    if Nat.eqb j p then (c * X p i - s * X q i)%R
    else if Nat.eqb j q then (s * X p i + c * X q i)%R
    else X i j.

(** The sum of the diagonal. *)
Definition diagonalSum (n : nat) (X : nat -> nat -> R) : R := bigsum (fun i => X i i) n.

(** ** Sample inputs *)

(** Three returns for each asset of the basket. *)
Definition sampleSeries : list (list float) :=
  [[0.1; -0.1; 0.25]; [0.5; 0.25; -0.125]; [0; 0.125; 0.5];
   [-0.25; 0.75; 0.1]; [0.2; 0.2; -0.5]]%float.

Definition sampleReturns : Obj.t (list float) := combine stocks sampleSeries.

(** A symmetric 2x2 matrix. *)
Definition sampleMatrix : list (list R) := [[2; 1]; [1; 2]]%R.

(** A decomposition whose eigenvalues are all zero, as the Jacobi method
    returns it for the zero matrix. *)
Definition zeroEigenvalues : list float := repeat 0%float 5.

Definition unitVectors : list (list float) := identityMatrix 5.

(** A price table in which the first asset has the dates d1, d2, d3 and the
    second one the dates d1, d2, d3, d4. *)
Definition misalignedTable : Obj.t (Obj.t float) :=
  [("RELIANCE.NS", [("d1", 100); ("d2", 110); ("d3", 99)]);
   ("TCS.NS", [("d1", 50); ("d2", 50); ("d3", 50); ("d4", 70)]);
   ("INFY.NS", [("d1", 20); ("d2", 20); ("d3", 20)]);
   ("HDFCBANK.NS", [("d1", 30); ("d2", 30); ("d3", 30)]);
   ("ITC.NS", [("d1", 40); ("d2", 40); ("d3", 40)])]%string%float.

(** A table in which every asset has the same price on every date. *)
Definition constantTable : Obj.t (Obj.t float) :=
  [("RELIANCE.NS", [("d1", 100); ("d2", 100); ("d3", 100)]);
   ("TCS.NS", [("d1", 50); ("d2", 50); ("d3", 50)]);
   ("INFY.NS", [("d1", 20); ("d2", 20); ("d3", 20)]);
   ("HDFCBANK.NS", [("d1", 30); ("d2", 30); ("d3", 30)]);
   ("ITC.NS", [("d1", 40); ("d2", 40); ("d3", 40)])]%string%float.

(** The same shape of table over the reals. *)
Definition misalignedRealTable : Obj.t (Obj.t R) :=
  [("RELIANCE.NS", [("d1", 100); ("d2", 110); ("d3", 99)]);
   ("TCS.NS", [("d1", 50); ("d2", 50); ("d3", 50); ("d4", 70)]);
   ("INFY.NS", [("d1", 20); ("d2", 20); ("d3", 20)]);
   ("HDFCBANK.NS", [("d1", 30); ("d2", 30); ("d3", 30)]);
   ("ITC.NS", [("d1", 40); ("d2", 40); ("d3", 40)])]%string%R.

(** In the samples a time stamp is in seconds and its day number stands for
    its ISO date. *)
Definition dayLabel (t : N) : string := NilZero.string_of_uint (N.to_uint (t / 86400)).

(** Two chart results for one symbol, the second with two time stamps on
    one day, and one for another symbol. *)
Definition sampleStale : ChartResult N float :=
  {| meta_symbol := "TCS.NS"; timestamp := [0%N]; close := [1]%float |}.

Definition sampleFresh : ChartResult N float :=
  {| meta_symbol := "TCS.NS"; timestamp := [86400; 172800; 172860]%N;
     close := [50; 51; 52]%float |}.

Definition sampleOther : ChartResult N float :=
  {| meta_symbol := "ITC.NS"; timestamp := [86400; 172800]%N; close := [40]%float |}.

(** Three returns for each asset of the basket, over the reals. *)
Definition sampleRealSeries : list (list R) :=
  [[1; -1; 2]; [2; 1; -1]; [0; 1; 2]; [-1; 3; 1]; [1; 1; -2]]%R.

Definition sampleRealReturns : Obj.t (list R) := combine stocks sampleRealSeries.

(** A [Math] for the samples on doubles, right at the arguments the samples
    reach: [atan2(y, 0)] for [y > 0] is the double nearest to pi/2, and the
    cosine and sine of its half are the doubles nearest to the true values,
    as V8 returns them.  At any other argument it answers as for the angle
    0 and is not meant to be called. *)
Definition sampleMath : MathLib float :=
  {| atan2 y x := if PrimFloat.eqb x 0 && PrimFloat.ltb 0 y
                  then 1.5707963267948966%float else 0%float;
     cos theta := if PrimFloat.eqb theta 0.7853981633974483
                  then 0.7071067811865476%float else 1%float;
     sin theta := if PrimFloat.eqb theta 0.7853981633974483
                  then 0.7071067811865475%float else 0%float |}.

(** A symmetric 2x2 matrix of doubles, and a positive definite one with
    entries of the order of [1e12]. *)
Definition sampleDoubles : list (list float) := [[0.5; 0.25]; [0.25; 0.5]]%float.

Definition largeMatrix : list (list float) :=
  [[2191956738715.2102; 69537359978.42291];
   [69537359978.42291; 2191956738715.2102]]%float.

(** * Properties *)

(** ** Arrays and loops *)

Section ArrayFacts.
Context {A : Type}.

Lemma update_length (i : nat) (v : A) (l : list A) :
  length (update i v l) = length l.
Proof.
  revert i; induction l as [|x t IH]; intros [|i]; simpl; auto.
Qed.

Lemma nth_update_eq (i : nat) (v d : A) (l : list A) :
  i < length l -> nth i (update i v l) d = v.
Proof.
  revert i; induction l as [|x t IH]; intros [|i] H; simpl in *; try lia; auto.
  apply IH; lia.
Qed.

Lemma nth_update_neq (i j : nat) (v d : A) (l : list A) :
  i <> j -> nth j (update i v l) d = nth j l d.
Proof.
  revert i j; induction l as [|x t IH]; intros [|i] [|j] H; simpl; auto; try lia.
Qed.

Lemma fold_left_push {B} (f : B -> A) (l : list B) (acc : list A) :
  fold_left (fun acc i => acc ++ [f i]) l acc = acc ++ map f l.
Proof.
  revert acc; induction l as [|x t IH]; intros acc; simpl.
  - now rewrite app_nil_r.
  - rewrite IH, <- app_assoc. reflexivity.
Qed.

Lemma mapi_length {B} (f : A -> nat -> B) (l : list A) :
  length (mapi f l) = length l.
Proof.
  unfold mapi. rewrite length_map, length_combine, length_seq. lia.
Qed.

Lemma nth_mapi {B} (f : A -> nat -> B) (l : list A) (i : nat) (d : A) (e : B) :
  i < length l -> nth i (mapi f l) e = f (nth i l d) i.
Proof.
  intros H. unfold mapi.
  rewrite nth_indep with (d' := f d 0) by (rewrite length_map, length_combine, length_seq; lia).
  change (f d 0) with ((fun ix => f (snd ix) (fst ix)) (0, d)).
  rewrite map_nth, combine_nth by (now rewrite length_seq).
  rewrite seq_nth by assumption. reflexivity.
Qed.

Lemma nth_map_seq (f : nat -> A) (a n i : nat) (d : A) :
  i < n -> nth i (map f (seq a n)) d = f (a + i).
Proof.
  revert a i; induction n as [|n IH]; intros a [|i] H; simpl; try lia.
  - f_equal; lia.
  - rewrite IH by lia. f_equal; lia.
Qed.

End ArrayFacts.

(** ** Cells of a matrix, generic in the Number type *)

Section EngineFacts.
Context {F : Type} {Num : JSNumber F}.

Lemma setCell_length (m : list (list F)) (i j : nat) (v : F) :
  length (setCell m i j v) = length m.
Proof. unfold setCell. apply update_length. Qed.

Lemma setCell_row_length (m : list (list F)) (i j k : nat) (v : F) :
  length (nth k (setCell m i j v) []) = length (nth k m []).
Proof.
  unfold setCell.
  destruct (Nat.eq_dec i k) as [->|Hik].
  - destruct (Nat.lt_ge_cases k (length m)) as [Hk|Hk].
    + rewrite nth_update_eq by assumption. apply update_length.
    + rewrite !nth_overflow; try rewrite update_length; auto.
  - now rewrite nth_update_neq.
Qed.

Lemma square_rows (n : nat) (m : list (list F)) (k : nat) :
  square n m -> k < n -> length (nth k m []) = n.
Proof.
  intros [Hl Hr] Hk. rewrite Forall_forall in Hr. apply Hr, nth_In. lia.
Qed.

Lemma square_intro (n : nat) (m : list (list F)) :
  length m = n -> (forall k, k < n -> length (nth k m []) = n) -> square n m.
Proof.
  intros Hl Hr. split; [assumption|].
  apply Forall_forall. intros row Hin.
  destruct (In_nth _ _ [] Hin) as (k & Hk & <-). apply Hr. lia.
Qed.

Lemma square_setCell (n : nat) (m : list (list F)) (i j : nat) (v : F) :
  square n m -> square n (setCell m i j v).
Proof.
  intros H. apply square_intro.
  - rewrite setCell_length. apply H.
  - intros k Hk. rewrite setCell_row_length. now apply square_rows.
Qed.

Lemma cell_setCell_eq (n : nat) (m : list (list F)) (i j : nat) (v : F) :
  square n m -> i < n -> j < n -> cell (setCell m i j v) i j = v.
Proof.
  intros H Hi Hj. unfold cell, setCell, at_.
  rewrite nth_update_eq by (destruct H; lia).
  apply nth_update_eq. rewrite (square_rows H); assumption.
Qed.

Lemma cell_setCell_neq (m : list (list F)) (i j i' j' : nat) (v : F) :
  (i, j) <> (i', j') -> cell (setCell m i j v) i' j' = cell m i' j'.
Proof.
  intros Hne. unfold cell, setCell, at_.
  destruct (Nat.eq_dec i i') as [<-|Hi].
  - destruct (Nat.lt_ge_cases i (length m)) as [Hlt|Hge].
    + rewrite nth_update_eq by assumption.
      apply nth_update_neq. congruence.
    + rewrite (nth_overflow (update _ _ _)) by (now rewrite update_length).
      rewrite (nth_overflow m) by assumption. reflexivity.
  - now rewrite nth_update_neq.
Qed.

(** *** Returns *)

Lemma returnsOf_map (ps : list (option F)) :
  returnsOf ps =
  map (fun i => (priceAt ps i :-: priceAt ps (i - 1)) :/: priceAt ps (i - 1))
      (seq 1 (length ps - 1)).
Proof. unfold returnsOf. now rewrite fold_left_push. Qed.

Lemma returnsOf_length (ps : list (option F)) :
  length (returnsOf ps) = length ps - 1.
Proof. now rewrite returnsOf_map, length_map, length_seq. Qed.

Lemma returnsOf_nth (ps : list (option F)) (i : nat) :
  i < length ps - 1 ->
  at_ (returnsOf ps) i = (priceAt ps (i + 1) :-: priceAt ps i) :/: priceAt ps i.
Proof.
  intros Hi. unfold at_. rewrite returnsOf_map.
  rewrite nth_map_seq by assumption.
  replace (1 + i - 1) with i by lia. replace (1 + i) with (i + 1) by lia.
  reflexivity.
Qed.

Lemma priceAt_Some (prices : list F) (i : nat) :
  priceAt (map Some prices) i = at_ prices i.
Proof.
  unfold priceAt, at_. revert i.
  induction prices as [|p t IH]; intros [|i]; simpl; auto.
Qed.

End EngineFacts.

(** ** Loops in the completion monad *)

Lemma foldM_pure {A S} (f : S -> A -> completion S) (g : S -> A -> S) (l : list A) :
  (forall s a, In a l -> f s a = Normal (g s a)) ->
  forall s, foldM f l s = Normal (fold_left g l s).
Proof.
  induction l as [|a t IH]; intros Hf s; simpl; [reflexivity|].
  rewrite Hf by (now left). simpl. apply IH. intros; apply Hf; now right.
Qed.

Lemma mapM_pure {A B} (f : A -> completion B) (g : A -> B) (l : list A) :
  (forall a, In a l -> f a = Normal (g a)) ->
  mapM f l = Normal (map g l).
Proof.
  induction l as [|a t IH]; intros Hf; simpl; [reflexivity|].
  rewrite Hf by (now left). simpl. rewrite IH by (intros; apply Hf; now right).
  reflexivity.
Qed.

Lemma fold_left_map {A B C} (f : C -> B -> C) (g : A -> B) (l : list A) (c : C) :
  fold_left f (map g l) c = fold_left (fun acc a => f acc (g a)) l c.
Proof. revert c; induction l as [|a t IH]; intros c; simpl; auto. Qed.

Lemma fold_left_ext {A B} (f g : B -> A -> B) (l : list A) (b : B) :
  (forall acc a, f acc a = g acc a) -> fold_left f l b = fold_left g l b.
Proof.
  intros H. revert b; induction l as [|a t IH]; intros b; simpl; [reflexivity|].
  now rewrite H, IH.
Qed.

Lemma fold_left_flat_map {A B C} (f : C -> B -> C) (g : A -> list B) (l : list A) (c : C) :
  fold_left f (flat_map g l) c = fold_left (fun acc a => fold_left f (g a) acc) l c.
Proof.
  revert c; induction l as [|a t IH]; intros c; simpl; [reflexivity|].
  now rewrite fold_left_app, IH.
Qed.

(** ** The covariance matrix *)

Section Covariance.
Context {F : Type} {Num : JSNumber F}.

Lemma writeCells_cons (E : nat -> nat -> F) (a b : nat) (ws : list (nat * nat))
  (m : list (list F)) :
  writeCells E ((a, b) :: ws) m = writeCells E ws (setCell m a b (E a b)).
Proof. reflexivity. Qed.

Lemma writeCells_square (E : nat -> nat -> F) (n : nat) (ws : list (nat * nat)) :
  forall m, square n m -> square n (writeCells E ws m).
Proof.
  induction ws as [|[a b] t IH]; intros m H; [assumption|].
  rewrite writeCells_cons. apply IH, square_setCell, H.
Qed.

Lemma writeCells_other (E : nat -> nat -> F) (ws : list (nat * nat)) (i j : nat) :
  ~ In (i, j) ws -> forall m, cell (writeCells E ws m) i j = cell m i j.
Proof.
  induction ws as [|[a b] t IH]; intros Hn m; [reflexivity|].
  rewrite writeCells_cons, IH by (intro; apply Hn; now right).
  apply cell_setCell_neq. intro Heq. apply Hn. left. exact Heq.
Qed.

Lemma writeCells_written (E : nat -> nat -> F) (n : nat) (ws : list (nat * nat)) (i j : nat) :
  In (i, j) ws -> i < n -> j < n ->
  forall m, square n m -> cell (writeCells E ws m) i j = E i j.
Proof.
  induction ws as [|[a b] t IH]; intros Hin Hi Hj m Hm; [contradiction|].
  rewrite writeCells_cons.
  assert (Hdec : In (i, j) t \/ ~ In (i, j) t).
  { destruct (in_dec (fun x y : nat * nat =>
                        ltac:(decide equality; apply Nat.eq_dec) : {x = y} + {x <> y})
                     (i, j) t); auto. }
  destruct Hdec as [Ht|Ht].
  - apply IH; auto. now apply square_setCell.
  - destruct Hin as [Heq|Hin]; [|contradiction].
    injection Heq as -> ->.
    rewrite writeCells_other by assumption.
    now apply cell_setCell_eq with (n := n).
Qed.

Lemma zeroMatrix_square (n : nat) : square n (zeroMatrix n : list (list F)).
Proof.
  unfold zeroMatrix. split; [apply repeat_length|].
  apply Forall_forall. intros row Hin. apply repeat_spec in Hin. subst.
  apply repeat_length.
Qed.

(** Every cell the loops of lines 135-148 fill holds [covEntry] of the two
    series, provided each asset of the basket has a series in [returns]. *)
Lemma covariance_cells (stocks : list string) (returns : Obj.t (list F))
  (series : nat -> list F) :
  (forall k, k < length stocks ->
             Obj.get (nth k stocks ""%string) returns = Some (series k)) ->
  exists m,
    calculateCovarianceMatrix stocks returns = Normal m /\
    square (length stocks) m /\
    forall i j, i < length stocks -> j < length stocks ->
                cell m i j = covEntry (series i) (series j).
Proof.
  intros Hs. set (n := length stocks) in *.
  set (E := fun i j => covEntry (series i) (series j)).
  set (ws := flat_map (fun i => map (fun j => (i, j)) (seq 0 n)) (seq 0 n)).
  exists (writeCells E ws (zeroMatrix n)).
  split; [|split].
  - unfold calculateCovarianceMatrix. fold n.
    rewrite foldM_pure with
      (g := fun m i => fold_left (fun m j => setCell m i j (E i j)) (seq 0 n) m).
    + f_equal. unfold writeCells, ws.
      rewrite fold_left_flat_map.
      apply fold_left_ext. intros m i.
      now rewrite fold_left_map.
    + intros m i Hi. apply in_seq in Hi.
      apply foldM_pure. intros m' j Hj. apply in_seq in Hj.
      rewrite !Hs by lia. reflexivity.
  - apply writeCells_square, zeroMatrix_square.
  - intros i j Hi Hj.
    apply writeCells_written with (n := n); auto using zeroMatrix_square.
    unfold ws. apply in_flat_map. exists i. split; [apply in_seq; lia|].
    apply in_map, in_seq. lia.
Qed.

(** The loop of lines 142-145 over the indices is the sum over the paired
    entries when the two series have the same length. *)
Lemma combine_by_index (ri rj : list F) :
  length ri = length rj ->
  combine ri rj = map (fun k => (at_ ri k, at_ rj k)) (seq 0 (length ri)).
Proof.
  revert rj; induction ri as [|x t IH]; intros [|y u] Hl; simpl in *; try lia; auto.
  f_equal. rewrite (IH u) by lia. rewrite <- seq_shift, map_map. reflexivity.
Qed.

Lemma covEntry_sampleCovariance (ri rj : list F) :
  length ri = length rj -> covEntry ri rj = Spec.sampleCovariance ri rj.
Proof.
  intros Hl. unfold covEntry, Spec.sampleCovariance, Spec.total, Spec.mean, sumOf, len.
  rewrite combine_by_index by assumption.
  rewrite map_map, fold_left_map. simpl. rewrite <- Hl. reflexivity.
Qed.

(** With a commutative product the entry does not depend on the order of
    the two series. *)
Lemma covEntry_sym (ri rj : list F) :
  (forall x y : F, x :*: y = y :*: x) ->
  length ri = length rj -> covEntry ri rj = covEntry rj ri.
Proof.
  intros Hc Hl. unfold covEntry, len. rewrite Hl.
  f_equal. apply fold_left_ext. intros acc k. now rewrite Hc.
Qed.

End Covariance.

(** The IEEE product is commutative. *)
Lemma float_mul_comm (x y : float) : PrimFloat.mul x y = PrimFloat.mul y x.
Proof.
  apply Prim2SF_inj. rewrite !mul_spec. unfold SF64mul, SFmul.
  destruct (Prim2SF x) as [sx|sx| |sx mx ex], (Prim2SF y) as [sy|sy| |sy my ey];
    try reflexivity; try (now rewrite xorb_comm).
  now rewrite xorb_comm, Pos.mul_comm, Z.add_comm.
Qed.

(** ** The Jacobi loop, generic in the Number type *)

Section JacobiFacts.
Context {F : Type} {Num : JSNumber F}.

Lemma in_upperTriangle (n i j : nat) :
  In (i, j) (upperTriangle n) <-> i < j /\ j < n.
Proof.
  unfold upperTriangle. rewrite in_flat_map. split.
  - intros (a & Ha & Hin). apply in_map_iff in Hin as (b & Heq & Hb).
    injection Heq as -> ->. apply in_seq in Ha, Hb. lia.
  - intros [Hij Hj]. exists i. split; [apply in_seq; lia|].
    apply in_map, in_seq. lia.
Qed.

Lemma findPivot_flat (n : nat) (values : list (list F)) :
  findPivot n values = fold_left (pivotStep values) (upperTriangle n) (fromZ 0, 0, 0).
Proof.
  unfold findPivot, upperTriangle. rewrite fold_left_flat_map.
  apply fold_left_ext. intros st i. rewrite fold_left_map. reflexivity.
Qed.

Lemma identityMatrix_square (n : nat) : square n (identityMatrix n : list (list F)).
Proof.
  unfold identityMatrix. split.
  - now rewrite length_map, length_seq.
  - apply Forall_forall. intros row Hin. apply in_map_iff in Hin as (i & <- & _).
    now rewrite length_map, length_seq.
Qed.

Lemma cell_identityMatrix (n i j : nat) :
  i < n -> j < n ->
  cell (identityMatrix n) i j = if Nat.eqb i j then fromZ 1 else fromZ 0.
Proof.
  intros Hi Hj. unfold cell, at_, identityMatrix.
  rewrite nth_map_seq by assumption. rewrite nth_map_seq by assumption.
  reflexivity.
Qed.

Lemma fold_left_preserves {A S} (P : S -> Prop) (f : S -> A -> S) (l : list A) :
  (forall s a, P s -> P (f s a)) -> forall s, P s -> P (fold_left f l s).
Proof.
  intros Hf. induction l as [|a t IH]; intros s Hs; simpl; auto.
Qed.

Lemma rotateValues_square (n p q : nat) (c s : F) (values : list (list F)) :
  square n values -> square n (rotateValues n p q c s values).
Proof.
  intros H. unfold rotateValues.
  repeat apply square_setCell.
  apply fold_left_preserves; [|assumption].
  intros m r Hm. destruct (negb (Nat.eqb r p) && negb (Nat.eqb r q));
    [repeat apply square_setCell|]; assumption.
Qed.

Lemma rotateVectors_square (n p q : nat) (c s : F) (vectors : list (list F)) :
  square n vectors -> square n (rotateVectors n p q c s vectors).
Proof.
  intros H. unfold rotateVectors.
  apply fold_left_preserves; [|assumption].
  intros m r Hm. repeat apply square_setCell. assumption.
Qed.

Lemma rotate_iter (M : MathLib F) (n : nat) (st : JacobiState) :
  iter (rotate M n st) = S (iter st).
Proof. unfold rotate. destruct (findPivot n (work st)) as [[mx p] q]. reflexivity. Qed.

Lemma rotate_work_square (M : MathLib F) (n : nat) (st : JacobiState) :
  square n (work st) -> square n (work (rotate M n st)).
Proof.
  unfold rotate. destruct (findPivot n (work st)) as [[mx p] q]. simpl.
  apply rotateValues_square.
Qed.

Lemma rotate_basis_square (M : MathLib F) (n : nat) (st : JacobiState) :
  square n (basis st) -> square n (basis (rotate M n st)).
Proof.
  unfold rotate. destruct (findPivot n (work st)) as [[mx p] q]. simpl.
  apply rotateVectors_square.
Qed.

(** A property every pass keeps while the test of line 180 fails holds
    after the loop. *)
Lemma jacobiLoop_invariant (M : MathLib F) (n : nat) (P : JacobiState -> Prop) :
  (forall st, P st -> converged n (work st) = false -> P (rotate M n st)) ->
  forall remaining st, P st -> P (jacobiLoop M n remaining st).
Proof.
  intros Hstep. induction remaining as [|k IH]; intros st Hst; simpl; [assumption|].
  destruct (converged n (work st)) eqn:Hc; [assumption|].
  apply IH, Hstep; assumption.
Qed.

(** The loop runs the body [j <= remaining] times: the test failed before
    each of these passes, and holds after the last one unless the cap was
    reached. *)
Lemma jacobiLoop_passes (M : MathLib F) (n : nat) :
  forall remaining st,
  exists j,
    j <= remaining /\
    jacobiLoop M n remaining st = Nat.iter j (rotate M n) st /\
    iter (jacobiLoop M n remaining st) = iter st + j /\
    (forall i, i < j -> converged n (work (Nat.iter i (rotate M n) st)) = false) /\
    (j < remaining -> converged n (work (Nat.iter j (rotate M n) st)) = true).
Proof.
  induction remaining as [|k IH]; intros st; simpl.
  - exists 0. simpl. split; [lia|]. split; [reflexivity|]. split; [lia|].
    split; intros; lia.
  - destruct (converged n (work st)) eqn:Hc.
    + exists 0. simpl. split; [lia|]. split; [reflexivity|]. split; [lia|].
      split; [intros; lia|]. intros _. exact Hc.
    + destruct (IH (rotate M n st)) as (j & Hj & Heq & Hit & Hbefore & Hafter).
      exists (S j). rewrite !Nat.iter_succ_r.
      split; [lia|]. split; [exact Heq|]. split; [|split].
      * rewrite Hit, rotate_iter. lia.
      * intros [|i] Hi; [exact Hc|]. rewrite Nat.iter_succ_r. apply Hbefore. lia.
      * intros Hlt. apply Hafter. lia.
Qed.

Lemma insertSorted_length {A} (cmp : A -> A -> F) (x : A) (l : list A) :
  length (insertSorted cmp x l) = S (length l).
Proof.
  induction l as [|y t IH]; simpl; [reflexivity|].
  destruct (ltb (cmp y x) (fromZ 0)); simpl; auto.
Qed.

Lemma insertSorted_perm {A} (cmp : A -> A -> F) (x : A) (l : list A) :
  Permutation (x :: l) (insertSorted cmp x l).
Proof.
  induction l as [|y t IH]; simpl; [reflexivity|].
  destruct (ltb (cmp y x) (fromZ 0)); [|reflexivity].
  rewrite perm_swap. now constructor.
Qed.

Lemma sortBy_perm {A} (cmp : A -> A -> F) (l : list A) :
  Permutation l (sortBy cmp l).
Proof.
  induction l as [|x t IH]; simpl; [constructor|].
  rewrite <- insertSorted_perm. now constructor.
Qed.

Lemma mapi_index {A} (l : list A) : mapi (fun _ i => i) l = seq 0 (length l).
Proof.
  unfold mapi. 
  assert (H : forall a (l : list A),
             map (fun ix : nat * A => fst ix) (combine (seq a (length l)) l) = seq a (length l)).
  { intros a l0. revert a. induction l0 as [|x t IH]; intros a; simpl; [reflexivity|].
    now rewrite IH. }
  apply H.
Qed.

Lemma sortedIndices_perm (eigenvalues : list F) :
  Permutation (seq 0 (length eigenvalues)) (sortedIndices eigenvalues).
Proof. unfold sortedIndices. rewrite mapi_index. apply sortBy_perm. Qed.

Lemma diagonal_length (values : list (list F)) :
  length (diagonal values) = length values.
Proof. apply mapi_length. Qed.

Lemma diagonal_at (values : list (list F)) (i : nat) :
  i < length values -> at_ (diagonal values) i = cell values i i.
Proof.
  intros Hi. unfold diagonal, at_ at 1. rewrite nth_mapi with (d := []) by assumption.
  reflexivity.
Qed.

Lemma map_at_seq (l : list F) : map (at_ l) (seq 0 (length l)) = l.
Proof.
  unfold at_. induction l as [|x t IH]; simpl; [reflexivity|].
  f_equal. rewrite <- seq_shift, map_map. exact IH.
Qed.

End JacobiFacts.

(** ** Exact arithmetic *)

Ltac real :=
  cbn [add sub mul div abs gtb ltb fromZ lit_half lit_tol NaN RealNumber
       atan2 cos sin RealMath] in *.

Local Open Scope R_scope.

Lemma Rsum_app (l l' : list R) : Rsum (l ++ l') = Rsum l + Rsum l'.
Proof. induction l as [|x t IH]; simpl; [lra|]. rewrite IH. lra. Qed.

Lemma Rsum_perm (l l' : list R) : Permutation l l' -> Rsum l = Rsum l'.
Proof. induction 1; simpl; lra. Qed.

Lemma sumOf_Rsum (l : list R) : sumOf l = Rsum l.
Proof.
  unfold sumOf, Rsum. real.
  apply fold_symmetric; intros; lra.
Qed.

Lemma bigsum_S (f : nat -> R) (n : nat) : bigsum f (S n) = bigsum f n + f n.
Proof.
  unfold bigsum. rewrite seq_S, map_app, Rsum_app. simpl. lra.
Qed.

Lemma bigsum_ext (f g : nat -> R) (n : nat) :
  (forall i, (i < n)%nat -> f i = g i) -> bigsum f n = bigsum g n.
Proof.
  induction n as [|n IH]; intros H; [reflexivity|].
  rewrite !bigsum_S, IH, H by auto. reflexivity.
Qed.

Lemma bigsum_at (l : list R) : bigsum (at_ l) (length l) = Rsum l.
Proof. unfold bigsum. now rewrite map_at_seq. Qed.

(** A sum whose terms vanish away from [p] and [q]. *)
Lemma bigsum_two_points (h : nat -> R) (p q n : nat) :
  (forall i, i <> p -> i <> q -> h i = 0) -> p <> q ->
  bigsum h n = (if (p <? n)%nat then h p else 0) + (if (q <? n)%nat then h q else 0).
Proof.
  intros Hz Hpq. induction n as [|n IH]; [unfold bigsum; simpl; lra|].
  rewrite bigsum_S, IH.
  destruct (Nat.ltb_spec p n), (Nat.ltb_spec q n),
           (Nat.ltb_spec p (S n)), (Nat.ltb_spec q (S n)); try lia;
    try (assert (p = n) by lia; subst p); try (assert (q = n) by lia; subst q);
    try lra; rewrite (Hz n) by lia; lra.
Qed.

(** Two sums that differ at [p] and [q] only. *)
Lemma bigsum_change_two (f g : nat -> R) (p q n : nat) :
  (forall i, i <> p -> i <> q -> f i = g i) -> p <> q -> (p < n)%nat -> (q < n)%nat ->
  bigsum f n = bigsum g n + (f p - g p) + (f q - g q).
Proof.
  intros Hfg Hpq Hp Hq.
  assert (Hd : bigsum (fun i => f i - g i) n = (f p - g p) + (f q - g q)).
  { rewrite (@bigsum_two_points _ p q) by (intros; try rewrite Hfg; auto; lra).
    destruct (Nat.ltb_spec p n), (Nat.ltb_spec q n); try lia. reflexivity. }
  assert (Hs : forall k, bigsum (fun i => f i - g i) k = bigsum f k - bigsum g k).
  { induction k as [|k IH]; [unfold bigsum; simpl; lra|]. rewrite !bigsum_S, IH. lra. }
  rewrite Hs in Hd. lra.
Qed.

(** The product of two combinations of three families, summed. *)
Lemma bigsum_products (a b u v : nat -> R) (x1 y1 z1 x2 y2 z2 : R) (n : nat) :
  bigsum (fun r => (x1 * a r + y1 * b r + z1 * u r) * (x2 * a r + y2 * b r + z2 * v r)) n =
  x1 * x2 * bigsum (fun r => a r * a r) n + x1 * y2 * bigsum (fun r => a r * b r) n
  + x1 * z2 * bigsum (fun r => a r * v r) n
  + y1 * x2 * bigsum (fun r => b r * a r) n + y1 * y2 * bigsum (fun r => b r * b r) n
  + y1 * z2 * bigsum (fun r => b r * v r) n
  + z1 * x2 * bigsum (fun r => u r * a r) n + z1 * y2 * bigsum (fun r => u r * b r) n
  + z1 * z2 * bigsum (fun r => u r * v r) n.
Proof.
  induction n as [|n IH]; [unfold bigsum; simpl; lra|].
  rewrite !bigsum_S, IH. ring.
Qed.

Lemma bigsum_delta (i j n : nat) :
  (i < n)%nat -> (j < n)%nat -> bigsum (fun r => delta r i * delta r j) n = delta i j.
Proof.
  intros Hi Hj.
  destruct (Nat.eq_dec i j) as [<-|Hij].
  - rewrite bigsum_two_points with (p := i) (q := S n).
    + unfold delta. rewrite !Nat.eqb_refl.
      destruct (Nat.ltb_spec i n), (Nat.ltb_spec (S n) n); try lia. lra.
    + intros r Hr _. unfold delta. destruct (Nat.eqb_spec r i); [contradiction|lra].
    + lia.
  - rewrite bigsum_two_points with (p := i) (q := j); auto.
    + unfold delta. rewrite !Nat.eqb_refl.
      destruct (Nat.eqb_spec i j), (Nat.eqb_spec j i),
               (Nat.ltb_spec i n), (Nat.ltb_spec j n); try lia; lra.
    + intros r Hri Hrj. unfold delta.
      destruct (Nat.eqb_spec r i); [contradiction|lra].
Qed.

(** ** The pivot scan, in exact arithmetic *)

Lemma pivot_fold (A : list (list R)) (ps : list (nat * nat)) :
  forall mx p q mx' p' q',
    fold_left (pivotStep A) ps (mx, p, q) = (mx', p', q') ->
    mx <= mx' /\
    (forall i j, In (i, j) ps -> Rabs (cell A i j) <= mx') /\
    ((mx', p', q') = (mx, p, q) \/ (In (p', q') ps /\ mx' = Rabs (cell A p' q'))).
Proof.
  induction ps as [|[i j] t IH]; intros mx p q mx' p' q' H.
  - simpl in H. injection H as <- <- <-. split; [lra|]. split; [intros ? ? []|now left].
  - simpl in H. real. unfold Rgtb in H.
    destruct (Rlt_dec mx (Rabs (cell A i j))) as [Hgt|Hle];
      apply IH in H as (Hm & Hall & Hlast).
    + split; [lra|]. split.
      * intros a b [Heq|Hin]; [injection Heq as <- <-; assumption|auto].
      * right. destruct Hlast as [Heq|[Hin Hv]].
        -- injection Heq as -> -> ->. split; [now left|reflexivity].
        -- split; [now right|assumption].
    + split; [assumption|]. split.
      * intros a b [Heq|Hin]; [injection Heq as <- <-; lra|auto].
      * destruct Hlast as [Heq|[Hin Hv]]; [now left|right].
        split; [now right|assumption].
Qed.

(** The test of line 180 holds exactly when every entry above the diagonal
    is below the tolerance in magnitude. *)
Lemma converged_iff (n : nat) (A : list (list R)) :
  converged n A = true <-> offDiagonalSmall n A.
Proof.
  unfold converged, offDiagonalSmall. rewrite findPivot_flat.
  destruct (fold_left (pivotStep A) (upperTriangle n) (fromZ 0, 0%nat, 0%nat))
    as [[mx p] q] eqn:E.
  apply pivot_fold in E as (Hm & Hall & Hlast). real. unfold Rltb.
  destruct (Rlt_dec mx (1 / 10000000000)) as [Hlt|Hge]; split; intros H; auto.
  - intros i j Hij Hj. specialize (Hall i j). rewrite in_upperTriangle in Hall.
    specialize (Hall (conj Hij Hj)). lra.
  - discriminate.
  - exfalso. apply Hge. destruct Hlast as [Heq|[Hin Hv]].
    + injection Heq as -> _ _. lra.
    + apply in_upperTriangle in Hin as [Hpq Hq]. rewrite Hv. now apply H.
Qed.

(** When the test fails the scan has found a pivot above the diagonal. *)
Lemma pivot_found (n : nat) (A : list (list R)) (mx : R) (p q : nat) :
  converged n A = false -> findPivot n A = (mx, p, q) -> (p < q)%nat /\ (q < n)%nat.
Proof.
  unfold converged. intros Hc Hf. rewrite Hf in Hc.
  rewrite findPivot_flat in Hf.
  apply pivot_fold in Hf as (Hm & Hall & Hlast). real. unfold Rltb in Hc.
  destruct (Rlt_dec mx (1 / 10000000000)) as [Hlt|Hge]; [discriminate|].
  destruct Hlast as [Heq|[Hin Hv]].
  - injection Heq as -> _ _. lra.
  - now apply in_upperTriangle in Hin.
Qed.

(** ** The rotation keeps the trace *)

Lemma rotateValues_diagonal (n p q : nat) (c s : R) (A : list (list R)) :
  square n A -> (p < n)%nat -> (q < n)%nat -> p <> q ->
  (forall i, i <> p -> i <> q ->
             cell (rotateValues n p q c s A) i i = cell A i i) /\
  cell (rotateValues n p q c s A) p p =
    c * c * cell A p p + s * s * cell A q q - 2 * c * s * cell A p q /\
  cell (rotateValues n p q c s A) q q =
    s * s * cell A p p + c * c * cell A q q + 2 * c * s * cell A p q.
Proof.
  intros Hsq Hp Hq Hpq. unfold rotateValues.
  set (body := fun (values : list (list R)) (r : nat) =>
                 if negb (Nat.eqb r p) && negb (Nat.eqb r q) then _ else values).
  set (L := fold_left body (seq 0 n) A).
  assert (HL : square n L /\ (forall a, cell L a a = cell A a a)
               /\ cell L p q = cell A p q).
  { unfold L. apply fold_left_preserves with
      (P := fun m => square n m /\ (forall a, cell m a a = cell A a a)
                     /\ cell m p q = cell A p q); [|auto].
    intros m r (Hm & Hd & Hpq'). unfold body.
    destruct (Nat.eqb_spec r p) as [->|Hrp]; simpl; [auto|].
    destruct (Nat.eqb_spec r q) as [->|Hrq]; simpl; [auto|].
    split; [repeat apply square_setCell; assumption|]. split.
    - intros a. rewrite !cell_setCell_neq; auto; intros Heq; injection Heq; lia.
    - rewrite !cell_setCell_neq; auto; intros Heq; injection Heq; lia. }
  destruct HL as (HLsq & HLd & HLpq). real.
  split; [|split].
  - intros i Hip Hiq.
    rewrite !cell_setCell_neq; auto; intros Heq; injection Heq; lia.
  - rewrite !(@cell_setCell_neq _ _ _ _ _ p p) by (intros Heq; injection Heq; lia).
    rewrite cell_setCell_eq with (n := n) by assumption.
    now rewrite !HLd, HLpq.
  - rewrite !(@cell_setCell_neq _ _ _ _ _ q q) by (intros Heq; injection Heq; lia).
    rewrite cell_setCell_eq with (n := n) by (try apply square_setCell; assumption).
    now rewrite !HLd, HLpq.
Qed.

Lemma rotateValues_trace (n p q : nat) (c s : R) (A : list (list R)) :
  square n A -> (p < n)%nat -> (q < n)%nat -> p <> q -> c * c + s * s = 1 ->
  trace (rotateValues n p q c s A) = trace A.
Proof.
  intros Hsq Hp Hq Hpq Hcs.
  destruct (rotateValues_diagonal c s Hsq Hp Hq Hpq) as (Ho & Hpp & Hqq).
  unfold trace.
  destruct (rotateValues_square p q c s Hsq) as [-> _]. destruct Hsq as [-> _].
  rewrite bigsum_change_two with (g := fun i => cell A i i) (p := p) (q := q); auto.
  rewrite Hpp, Hqq.
  pose proof (f_equal (fun t => t * cell A p p) Hcs) as E1.
  pose proof (f_equal (fun t => t * cell A q q) Hcs) as E2.
  simpl in E1, E2. lra.
Qed.

Lemma cos_sin_unit (x : R) : Rtrigo_def.cos x * Rtrigo_def.cos x
                             + Rtrigo_def.sin x * Rtrigo_def.sin x = 1.
Proof. pose proof (sin2_cos2 x) as H. unfold Rsqr in H. lra. Qed.

Lemma rotate_trace (n : nat) (st : JacobiState) :
  square n (work st) -> converged n (work st) = false ->
  trace (work (rotate RealMath n st)) = trace (work st).
Proof.
  intros Hsq Hc. unfold rotate.
  destruct (findPivot n (work st)) as [[mx p] q] eqn:Hf.
  destruct (pivot_found _ _ Hc Hf) as [Hpq Hq]. simpl.
  apply rotateValues_trace; auto; try lia. apply cos_sin_unit.
Qed.

Lemma jacobiFinal_trace (matrix : list (list R)) :
  square (length matrix) matrix ->
  square (length matrix) (work (jacobiFinal RealMath matrix)) /\
  trace (work (jacobiFinal RealMath matrix)) = trace matrix.
Proof.
  intros Hsq. unfold jacobiFinal.
  apply jacobiLoop_invariant with
    (P := fun st => square (length matrix) (work st) /\ trace (work st) = trace matrix).
  - intros st [Hs Ht] Hc. split; [now apply rotate_work_square|].
    now rewrite rotate_trace.
  - simpl. auto.
Qed.

(** ** The sort of lines 218-219, in exact arithmetic *)







Lemma sortedIndices_length (ev : list R) :
  length (sortedIndices ev) = length ev.
Proof.
  rewrite <- (Permutation_length (sortedIndices_perm ev)). apply length_seq.
Qed.

Lemma sortedIndices_bound (ev : list R) (k : nat) :
  (k < length ev)%nat -> (nth k (sortedIndices ev) 0%nat < length ev)%nat.
Proof.
  intros Hk.
  assert (Hin : In (nth k (sortedIndices ev) 0%nat) (sortedIndices ev))
    by (apply nth_In; now rewrite sortedIndices_length).
  apply (Permutation_in _ (Permutation_sym (sortedIndices_perm ev))) in Hin.
  apply in_seq in Hin. lia.
Qed.

(** The returned eigenvalues are the diagonal, rearranged. *)
Lemma sorted_values_perm (ev : list R) :
  Permutation ev (map (fun i => at_ ev i) (sortedIndices ev)).
Proof.
  rewrite <- (map_at_seq ev) at 1.
  apply Permutation_map, sortedIndices_perm.
Qed.

Lemma at_map {A} (f : A -> R) (l : list A) (d : A) (k : nat) :
  (k < length l)%nat -> at_ (map f l) k = f (nth k l d).
Proof.
  intros Hk. unfold at_.
  rewrite nth_indep with (d' := f d) by (now rewrite length_map).
  apply map_nth.
Qed.

(** ** The rotation keeps the accumulator orthonormal *)

Lemma rotateVectors_rows (n p q : nat) (c s : R) (V : list (list R)) :
  rotateVectors n p q c s V = fold_left (rotateRow p q c s) (seq 0 n) V.
Proof. reflexivity. Qed.

Lemma rotateRow_square (n p q : nat) (c s : R) (V : list (list R)) (r : nat) :
  square n V -> square n (rotateRow p q c s V r).
Proof. intros H. unfold rotateRow. now repeat apply square_setCell. Qed.

Lemma rotateRow_other (p q : nat) (c s : R) (V : list (list R)) (a r j : nat) :
  r <> a -> cell (rotateRow p q c s V a) r j = cell V r j.
Proof.
  intros H. unfold rotateRow.
  rewrite !cell_setCell_neq; auto; intros Heq; injection Heq; lia.
Qed.

Lemma rotateRow_same (n p q : nat) (c s : R) (V : list (list R)) (r j : nat) :
  square n V -> (p < n)%nat -> (q < n)%nat -> p <> q -> (r < n)%nat ->
  cell (rotateRow p q c s V r) r j = rotatedCell p q c s V r j.
Proof.
  intros Hsq Hp Hq Hpq Hr. unfold rotateRow, rotatedCell. real.
  destruct (Nat.eqb_spec j p) as [->|Hjp].
  - rewrite cell_setCell_neq by (intros Heq; injection Heq; lia).
    now rewrite cell_setCell_eq with (n := n).
  - destruct (Nat.eqb_spec j q) as [->|Hjq].
    + rewrite cell_setCell_eq with (n := n); auto using square_setCell.
    + rewrite !cell_setCell_neq; auto; intros Heq; injection Heq; lia.
Qed.

Lemma rotateRows_untouched (p q : nat) (c s : R) (rs : list nat) (r j : nat) :
  ~ In r rs ->
  forall V, cell (fold_left (rotateRow p q c s) rs V) r j = cell V r j.
Proof.
  induction rs as [|a t IH]; intros Hn V; simpl; [reflexivity|].
  rewrite IH by (intro; apply Hn; now right).
  apply rotateRow_other. intros ->. apply Hn. now left.
Qed.

Lemma rotateRows_touched (n p q : nat) (c s : R) (rs : list nat) (r j : nat) :
  (p < n)%nat -> (q < n)%nat -> p <> q -> (r < n)%nat ->
  NoDup rs -> In r rs ->
  forall V, square n V ->
            cell (fold_left (rotateRow p q c s) rs V) r j = rotatedCell p q c s V r j.
Proof.
  intros Hp Hq Hpq Hr.
  induction rs as [|a t IH]; intros Hnd Hin V Hsq; simpl; [contradiction|].
  inversion Hnd as [|? ? Ha Ht]; subst.
  destruct (Nat.eq_dec a r) as [->|Har].
  - rewrite rotateRows_untouched by assumption.
    now apply rotateRow_same with (n := n).
  - destruct Hin as [Heq|Hin]; [contradiction|].
    rewrite IH by auto using rotateRow_square.
    unfold rotatedCell. rewrite !rotateRow_other by auto. reflexivity.
Qed.

Lemma rotateVectors_cell (n p q : nat) (c s : R) (V : list (list R)) (r j : nat) :
  square n V -> (p < n)%nat -> (q < n)%nat -> p <> q -> (r < n)%nat ->
  cell (rotateVectors n p q c s V) r j = rotatedCell p q c s V r j.
Proof.
  intros Hsq Hp Hq Hpq Hr. rewrite rotateVectors_rows.
  apply rotateRows_touched with (n := n); auto using seq_NoDup.
  apply in_seq. lia.
Qed.

Lemma rotateVectors_orthonormal (n p q : nat) (c s : R) (V : list (list R)) :
  orthonormal n V -> (p < n)%nat -> (q < n)%nat -> p <> q -> c * c + s * s = 1 ->
  orthonormal n (rotateVectors n p q c s V).
Proof.
  intros [Hsq Ho] Hp Hq Hpq Hcs. split; [now apply rotateVectors_square|].
  intros i j Hi Hj. unfold coldot.
  set (X := fun k => if Nat.eqb k p then c else if Nat.eqb k q then s else 0).
  set (Y := fun k => if Nat.eqb k p then - s else if Nat.eqb k q then c else 0).
  set (Z := fun k => if Nat.eqb k p then 0 else if Nat.eqb k q then 0 else 1).
  rewrite bigsum_ext with
    (g := fun r => (X i * cell V r p + Y i * cell V r q + Z i * cell V r i)
                   * (X j * cell V r p + Y j * cell V r q + Z j * cell V r j)).
  - rewrite bigsum_products.
    fold (coldot n V p p) (coldot n V p q) (coldot n V p j) (coldot n V q p)
         (coldot n V q q) (coldot n V q j) (coldot n V i p) (coldot n V i q)
         (coldot n V i j).
    rewrite !Ho by assumption. unfold X, Y, Z, delta.
    destruct (Nat.eqb_spec i p), (Nat.eqb_spec i q), (Nat.eqb_spec j p),
             (Nat.eqb_spec j q), (Nat.eqb_spec p q), (Nat.eqb_spec q p),
             (Nat.eqb_spec p j), (Nat.eqb_spec q j), (Nat.eqb_spec i j);
      try lia; rewrite ?Nat.eqb_refl; lra.
  - intros r Hr. rewrite !rotateVectors_cell by assumption.
    unfold rotatedCell, X, Y, Z.
    destruct (Nat.eqb_spec i p), (Nat.eqb_spec i q), (Nat.eqb_spec j p),
             (Nat.eqb_spec j q); subst; try lia; ring.
Qed.

Lemma identityMatrix_orthonormal (n : nat) : orthonormal n (identityMatrix n).
Proof.
  split; [apply identityMatrix_square|].
  intros i j Hi Hj. unfold coldot.
  rewrite bigsum_ext with (g := fun r => delta r i * delta r j).
  - now apply bigsum_delta.
  - intros r Hr. rewrite !cell_identityMatrix by assumption. reflexivity.
Qed.

Lemma rotate_orthonormal (n : nat) (st : JacobiState) :
  orthonormal n (basis st) -> converged n (work st) = false ->
  orthonormal n (basis (rotate RealMath n st)).
Proof.
  intros Ho Hc. unfold rotate.
  destruct (findPivot n (work st)) as [[mx p] q] eqn:Hf.
  destruct (pivot_found _ _ Hc Hf) as [Hpq Hq]. simpl.
  apply rotateVectors_orthonormal; auto; try lia. apply cos_sin_unit.
Qed.

Lemma jacobiFinal_orthonormal (matrix : list (list R)) :
  orthonormal (length matrix) (basis (jacobiFinal RealMath matrix)).
Proof.
  unfold jacobiFinal.
  apply jacobiLoop_invariant with (P := fun st => orthonormal (length matrix) (basis st)).
  - intros st Ho Hc. now apply rotate_orthonormal.
  - simpl. apply identityMatrix_orthonormal.
Qed.

(** The dot product of two columns read out of the matrix. *)
Lemma dot_columns (n : nat) (V : list (list R)) (i j : nat) :
  length V = n -> dot (column V i) (column V j) = coldot n V i j.
Proof.
  intros <-. unfold dot, column, coldot, bigsum, cell.
  f_equal. induction V as [|row t IH]; simpl; [reflexivity|].
  f_equal. rewrite IH, <- seq_shift, map_map. reflexivity.
Qed.

(** ** findMaxIndex, in exact arithmetic *)

Lemma findMaxIndex_scan (arr : list R) :
  forall (l pre : list R) (m : nat),
    arr = pre ++ l ->
    (m <= length pre)%nat -> (m < length pre \/ length pre = 0)%nat ->
    (forall i, (i < length pre)%nat -> at_ arr i <= at_ arr m) ->
    (forall i, (i < m)%nat -> at_ arr i < at_ arr m) ->
    let m' :=
      fold_left
        (fun maxIndex ix => if gtb (snd ix) (at_ arr maxIndex) then fst ix else maxIndex)
        (combine (seq (length pre) (length l)) l) m in
    (m' < length arr \/ length arr = 0)%nat /\
    (forall i, (i < length arr)%nat -> at_ arr i <= at_ arr m') /\
    (forall i, (i < m')%nat -> at_ arr i < at_ arr m').
Proof.
  induction l as [|x t IH]; intros pre m Harr Hm Hm0 Hle Hlt; simpl.
  - rewrite app_nil_r in Harr. subst pre. auto.
  - assert (Hx : at_ arr (length pre) = x).
    { unfold at_. rewrite Harr, app_nth2, Nat.sub_diag by lia. reflexivity. }
    assert (Hpre : arr = (pre ++ [x]) ++ t) by (now rewrite <- app_assoc).
    assert (Hlen : length (pre ++ [x]) = S (length pre))
      by (rewrite length_app; simpl; lia).
    specialize (IH (pre ++ [x])). rewrite Hlen in IH.
    real. unfold Rgtb. destruct (Rlt_dec (at_ arr m) x) as [Hgt|Hngt].
    + apply IH; auto; try lia.
      * intros i Hi. destruct (Nat.eq_dec i (length pre)) as [->|Hne]; [lra|].
        specialize (Hle i). rewrite Hx. assert (at_ arr i <= at_ arr m) by (apply Hle; lia).
        lra.
      * intros i Hi. rewrite Hx.
        assert (at_ arr i <= at_ arr m) by (apply Hle; lia). lra.
    + apply IH; auto; try lia.
      intros i Hi. destruct (Nat.eq_dec i (length pre)) as [->|Hne]; [lra|].
      apply Hle. lia.
Qed.

(** The index returned is the first one that holds the greatest value. *)
Lemma findMaxIndex_first_greatest (arr : list R) :
  arr <> [] ->
  (findMaxIndex arr < length arr)%nat /\
  (forall i, (i < length arr)%nat -> at_ arr i <= at_ arr (findMaxIndex arr)) /\
  (forall i, (i < findMaxIndex arr)%nat -> at_ arr i < at_ arr (findMaxIndex arr)).
Proof.
  intros Hne.
  destruct (@findMaxIndex_scan arr arr [] 0%nat) as (H1 & H2 & H3);
    simpl; auto; try (intros; lia).
  unfold findMaxIndex. split; [|split]; auto.
  destruct H1 as [H1|H1]; [exact H1|].
  destruct arr; [contradiction|discriminate].
Qed.

Local Close Scope R_scope.

(** ** Objects *)

Section ObjFacts.
Context {V : Type}.

Lemma get_set_same (k : string) (v : V) (o : Obj.t V) :
  Obj.get k (Obj.set k v o) = Some v.
Proof.
  induction o as [|[k' v'] rest IH]; simpl.
  - now rewrite String.eqb_refl.
  - destruct (String.eqb k k') eqn:E; simpl; rewrite E; auto.
Qed.

Lemma get_set_other (k k' : string) (v : V) (o : Obj.t V) :
  k <> k' -> Obj.get k' (Obj.set k v o) = Obj.get k' o.
Proof.
  intros Hne. induction o as [|[k0 v0] rest IH]; simpl.
  - destruct (String.eqb_spec k' k); [congruence|reflexivity].
  - destruct (String.eqb_spec k k0) as [->|Hk]; simpl.
    + destruct (String.eqb_spec k' k0); [congruence|reflexivity].
    + destruct (String.eqb_spec k' k0); [reflexivity|exact IH].
Qed.

(** After [keys.forEach(k => { o[k] = f(k) })] every key of the list holds
    [f] of itself. *)
Lemma get_after_sets (f : string -> V) (l : list string) (k : string) :
  In k l ->
  forall o, Obj.get k (fold_left (fun o s => Obj.set s (f s) o) l o) = Some (f k).
Proof.
  induction l as [|a t IH]; intros Hin o; simpl; [contradiction|].
  destruct (in_dec string_dec k t) as [Ht|Ht]; [now apply IH|].
  destruct Hin as [->|Hin]; [|contradiction].
  clear IH. revert o. induction t as [|b u IHu]; intros o; simpl.
  - apply get_set_same.
  - assert (Hb : b <> k) by (intros ->; apply Ht; now left).
    assert (Hu : ~ In k u) by (intro; apply Ht; now right).
    specialize (IHu Hu).
    assert (Hgen : forall o', Obj.get k o' = Some (f k) ->
                              Obj.get k (fold_left (fun o s => Obj.set s (f s) o) u o')
                              = Some (f k)).
    { clear -Hu. induction u as [|c w IHw]; intros o' Ho'; simpl; [exact Ho'|].
      apply IHw; [intro; apply Hu; now right|].
      rewrite get_set_other; [exact Ho'|]. intros ->. apply Hu. now left. }
    apply Hgen. rewrite get_set_other by assumption. apply get_set_same.
Qed.

End ObjFacts.

(** ** The pipeline returns whenever every asset has a price object *)

Section Pipeline.
Context {F : Type} {Num : JSNumber F}.

Lemma jacobiFinal_work_square (M : MathLib F) (matrix : list (list F)) :
  square (length matrix) matrix ->
  square (length matrix) (work (jacobiFinal M matrix)).
Proof.
  intros Hsq. unfold jacobiFinal.
  apply jacobiLoop_invariant with (P := fun st => square (length matrix) (work st)).
  - intros st Hs _. now apply rotate_work_square.
  - exact Hsq.
Qed.

Lemma jacobiMethod_lengths (M : MathLib F) (matrix : list (list F)) :
  square (length matrix) matrix ->
  length (values (jacobiMethod M matrix)) = length matrix /\
  length (vectors (jacobiMethod M matrix)) = length matrix.
Proof.
  intros Hsq. unfold jacobiMethod, readOut. simpl. rewrite !length_map.
  rewrite <- (Permutation_length (sortedIndices_perm _)), length_seq, diagonal_length.
  destruct (jacobiFinal_work_square M Hsq) as [Hl _]. auto.
Qed.

Lemma pricesOf_normal (stocks : list string) (stockData : Obj.t (Obj.t F)) :
  stocks <> [] ->
  (forall s, In s stocks -> Obj.get s stockData <> None) ->
  pricesOf stocks stockData =
  Normal (datesOf stocks stockData,
          fold_left (fun prices stock => Obj.set stock (pricesAt stocks stockData stock) prices)
                    stocks []).
Proof.
  intros Hne Hall. unfold pricesOf.
  assert (Hreq : forall s, In s stocks ->
                           required (Obj.get s stockData) = Normal (seriesOf stockData s)).
  { intros s Hs. unfold seriesOf. specialize (Hall s Hs).
    destruct (Obj.get s stockData); [reflexivity|contradiction]. }
  assert (H0 : In (nth 0 stocks "undefined"%string) stocks).
  { destruct stocks; [contradiction|now left]. }
  rewrite (Hreq _ H0). cbn [bind].
  fold (datesOf stocks stockData).
  rewrite foldM_pure with
    (g := fun prices stock => Obj.set stock (pricesAt stocks stockData stock) prices).
  - reflexivity.
  - intros prices stock Hs.
    rewrite mapM_pure with (g := fun date => Obj.get date (seriesOf stockData stock)).
    + reflexivity.
    + intros date _. now rewrite (Hreq _ Hs).
Qed.

Lemma returnsTable_normal (stocks : list string) (row : string -> list (option F)) :
  returnsTable stocks (fold_left (fun prices stock => Obj.set stock (row stock) prices) stocks [])
  = Normal (fold_left (fun returns stock => Obj.set stock (returnsOf (row stock)) returns)
                      stocks []).
Proof.
  unfold returnsTable. apply foldM_pure.
  intros returns stock Hs. now rewrite get_after_sets.
Qed.

Lemma performAnalysis_normal (M : MathLib F) (stocks : list string)
  (stockData : Obj.t (Obj.t F)) :
  stocks <> [] ->
  (forall s, In s stocks -> Obj.get s stockData <> None) ->
  exists r,
    performAnalysis M stocks stockData = Normal r /\
    res_stockData r = stockData /\
    forall s, In s stocks ->
              Obj.get s (res_returns r) = Some (returnsOf (pricesAt stocks stockData s)).
Proof.
  intros Hne Hall. unfold performAnalysis.
  rewrite pricesOf_normal by assumption. cbn [bind snd].
  rewrite returnsTable_normal. cbn [bind].
  set (returns := fold_left (fun returns stock =>
                               Obj.set stock (returnsOf (pricesAt stocks stockData stock)) returns)
                            stocks []).
  assert (Hret : forall s, In s stocks ->
                           Obj.get s returns = Some (returnsOf (pricesAt stocks stockData s))).
  { intros s Hs. unfold returns.
    apply get_after_sets with (f := fun s => returnsOf (pricesAt stocks stockData s)).
    exact Hs. }
  destruct (@covariance_cells _ _ stocks returns
              (fun k => returnsOf (pricesAt stocks stockData (nth k stocks ""%string))))
    as (m & Hm & Hsq & _).
  { intros k Hk. apply Hret, nth_In, Hk. }
  rewrite Hm. cbn [bind]. unfold performPCA.
  assert (Hsq' : square (length m) m) by (destruct Hsq as [Hl Hr]; rewrite Hl; now split).
  destruct (jacobiMethod_lengths M Hsq') as [_ Hv].
  unfold interpret.
  destruct (vectors (jacobiMethod M m)) as [|v0 rest] eqn:Ev.
  - exfalso. simpl in Hv. destruct Hsq as [Hl _]. destruct stocks; [contradiction|].
    simpl in Hl. lia.
  - cbn [nth_error required bind]. eexists. split; [reflexivity|]. simpl. auto.
Qed.

End Pipeline.

(** ** The working matrix stays symmetric *)

Section Symmetry.
Context {F : Type} {Num : JSNumber F}.

Lemma cell_setCell (n : nat) (m : list (list F)) (i j a b : nat) (v : F) :
  square n m -> i < n -> j < n ->
  cell (setCell m i j v) a b = if Nat.eqb a i && Nat.eqb b j then v else cell m a b.
Proof.
  intros Hsq Hi Hj.
  destruct (Nat.eqb_spec a i) as [->|Ha]; simpl.
  - destruct (Nat.eqb_spec b j) as [->|Hb].
    + now apply cell_setCell_eq with (n := n).
    + apply cell_setCell_neq. congruence.
  - apply cell_setCell_neq. congruence.
Qed.

Lemma fold_left_preserves_in {A S} (P : S -> Prop) (f : S -> A -> S) (l : list A) :
  (forall s a, In a l -> P s -> P (f s a)) -> forall s, P s -> P (fold_left f l s).
Proof.
  induction l as [|a t IH]; intros Hf s Hs; simpl; [assumption|].
  apply IH; [intros; apply Hf; auto; now right|]. apply Hf; [now left|assumption].
Qed.

(** The rotation writes each off-diagonal value and its mirror together,
    so it keeps a symmetric matrix symmetric, in any arithmetic. *)
Lemma rotateValues_symmetric (n p q : nat) (c s : F) (A : list (list F)) :
  square n A -> symmetric n A -> p < n -> q < n ->
  symmetric n (rotateValues n p q c s A).
Proof.
  intros Hsq Hsym Hp Hq. unfold rotateValues.
  set (body := fun (values : list (list F)) (r : nat) =>
                 if negb (Nat.eqb r p) && negb (Nat.eqb r q) then _ else values).
  set (L := fold_left body (seq 0 n) A).
  assert (HL : square n L /\ symmetric n L).
  { unfold L. apply fold_left_preserves_in with
      (P := fun m => square n m /\ symmetric n m); [|auto].
    intros m r Hr [Hm Hs]. apply in_seq in Hr. unfold body.
    destruct (negb (Nat.eqb r p) && negb (Nat.eqb r q)); [|auto].
    split; [repeat apply square_setCell; assumption|].
    intros a b Ha Hb.
    repeat (rewrite cell_setCell with (n := n);
            [|repeat apply square_setCell; assumption|lia|lia]).
    rewrite !Nat.eqb_refl. cbn [andb].
    destruct (Nat.eqb_spec a r), (Nat.eqb_spec a p), (Nat.eqb_spec a q),
             (Nat.eqb_spec b r), (Nat.eqb_spec b p), (Nat.eqb_spec b q);
      subst; cbn [andb]; rewrite ?Nat.eqb_refl; try reflexivity; try lia;
      try (apply Hs; assumption);
      repeat match goal with
             | |- context [Nat.eqb ?x ?y] => destruct (Nat.eqb_spec x y); try lia
             end; cbn [andb]; try reflexivity; try (apply Hs; assumption). }
  destruct HL as [HLsq HLsym].
  intros a b Ha Hb.
  repeat (rewrite cell_setCell with (n := n);
          [|repeat apply square_setCell; assumption|lia|lia]).
  destruct (Nat.eqb_spec a p), (Nat.eqb_spec a q),
           (Nat.eqb_spec b p), (Nat.eqb_spec b q);
    subst; cbn [andb]; rewrite ?Nat.eqb_refl; try reflexivity; try lia;
    try (apply HLsym; assumption);
    repeat match goal with
           | |- context [Nat.eqb ?x ?y] => destruct (Nat.eqb_spec x y); try lia
           end; cbn [andb]; try reflexivity; try (apply HLsym; assumption).
Qed.

End Symmetry.

Lemma jacobiFinal_symmetric (matrix : list (list R)) :
  square (length matrix) matrix -> symmetric (length matrix) matrix ->
  symmetric (length matrix) (work (jacobiFinal RealMath matrix)).
Proof.
  intros Hsq Hsym. unfold jacobiFinal.
  apply (@jacobiLoop_invariant _ _ RealMath (length matrix)
           (fun st => square (length matrix) (work st)
                      /\ symmetric (length matrix) (work st))).
  - intros st [Hs Hy] Hc. split; [now apply rotate_work_square|].
    unfold rotate. destruct (findPivot (length matrix) (work st)) as [[mx p] q] eqn:Hf.
    destruct (pivot_found _ _ Hc Hf) as [Hpq Hq]. simpl.
    apply rotateValues_symmetric; auto; lia.
  - simpl. auto.
Qed.

Lemma afterRotations_symmetric (matrix : list (list R)) (k : nat) :
  square (length matrix) matrix -> symmetric (length matrix) matrix ->
  (forall i, i < k ->
             converged (length matrix) (work (afterRotations RealMath matrix i)) = false) ->
  square (length matrix) (work (afterRotations RealMath matrix k)) /\
  symmetric (length matrix) (work (afterRotations RealMath matrix k)).
Proof.
  intros Hsq Hsym. induction k as [|k IH]; intros Hbefore; [simpl; auto|].
  destruct IH as [Hs Hy]; [intros; apply Hbefore; lia|].
  assert (Hc := Hbefore k (Nat.lt_succ_diag_r k)).
  change (afterRotations RealMath matrix (S k))
    with (rotate RealMath (length matrix) (afterRotations RealMath matrix k)).
  set (st := afterRotations RealMath matrix k) in *.
  split; [now apply rotate_work_square|].
  unfold rotate. destruct (findPivot (length matrix) (work st)) as [[mx p] q] eqn:Hf.
  destruct (pivot_found _ _ Hc Hf) as [Hpq Hq]. simpl.
  apply rotateValues_symmetric; auto; lia.
Qed.

Lemma symmetric_offDiagonal (n : nat) (A : list (list R)) :
  symmetric n A -> (offDiagonalSmall n A <-> allOffDiagonalSmall n A).
Proof.
  intros Hsym. unfold offDiagonalSmall, allOffDiagonalSmall. split; intros H i j.
  - intros Hne Hi Hj. destruct (Nat.lt_ge_cases i j) as [Hlt|Hge].
    + now apply H.
    + rewrite Hsym by assumption. apply H; lia.
  - intros Hij Hj. apply H; lia.
Qed.

(** * The claims of the specification *)

(** C5. For every price series of length [T >= 2], whatever the Number
    type, the returns computed at lines 99-103 are [T - 1] values with
    [r[i] = (p[i+1] - p[i]) / p[i]] for [i] in [[0, T-2]]; on IEEE doubles
    the prices [100, 110, 99] give exactly the doubles [0.1, -0.1]. *)
Theorem returns_contract :
  (forall (F : Type) (Num : JSNumber F) (prices : list F),
      2 <= length prices ->
      length (returnsOf (map Some prices)) = length prices - 1 /\
      forall i, i <= length prices - 2 ->
                at_ (returnsOf (map Some prices)) i
                = (at_ prices (i + 1) :-: at_ prices i) :/: at_ prices i) /\
  returnsOf [Some 100%float; Some 110%float; Some 99%float] = [0.1%float; (-0.1)%float].
Proof.
  split.
  - intros F Num prices HT. split.
    + now rewrite returnsOf_length, length_map.
    + intros i Hi. rewrite returnsOf_nth by (rewrite length_map; lia).
      now rewrite !priceAt_Some.
  - vm_compute. reflexivity.
Qed.

Lemma returns_contract_witness :
  2 <= length [100%float; 110%float; 99%float] /\
  (length (returnsOf (map Some [100%float; 110%float; 99%float])) = 3 - 1 /\
   forall i, i <= 3 - 2 ->
             at_ (returnsOf (map Some [100%float; 110%float; 99%float])) i
             = (at_ [100%float; 110%float; 99%float] (i + 1)
                :-: at_ [100%float; 110%float; 99%float] i)
               :/: at_ [100%float; 110%float; 99%float] i).
Proof.
  split; [simpl; lia|].
  apply (proj1 returns_contract float FloatNumber [100%float; 110%float; 99%float]).
  simpl; lia.
Defined.

(** C3. Given a return series of the same length [M >= 2] for each asset,
    calculateCovarianceMatrix returns an N x N matrix whose entry [i][j],
    for every ordered pair including [i = j], is the unbiased sample
    covariance of series [i] and [j]: the sum over [k] of
    [(r_i[k] - mean_i) (r_j[k] - mean_j)], divided by [M - 1]. *)
Theorem covariance_matrix_entries (F : Type) (Num : JSNumber F)
  (stocks : list string) (returns : Obj.t (list F)) (series : nat -> list F) (M : nat) :
  2 <= M ->
  (forall k, k < length stocks ->
             Obj.get (nth k stocks ""%string) returns = Some (series k) /\
             length (series k) = M) ->
  exists m,
    calculateCovarianceMatrix stocks returns = Normal m /\
    square (length stocks) m /\
    forall i j, i < length stocks -> j < length stocks ->
                cell m i j = Spec.sampleCovariance (series i) (series j).
Proof.
  intros HM Hs.
  destruct (@covariance_cells _ _ stocks returns series) as (m & Hm & Hsq & Hcells).
  { intros k Hk. apply Hs, Hk. }
  exists m. split; [assumption|]. split; [assumption|].
  intros i j Hi Hj. rewrite Hcells by assumption.
  apply covEntry_sampleCovariance.
  destruct (Hs i Hi) as [_ ->]. destruct (Hs j Hj) as [_ ->]. reflexivity.
Qed.

Lemma sampleReturns_series (k : nat) :
  k < length stocks ->
  Obj.get (nth k stocks ""%string) sampleReturns = Some (nth k sampleSeries []) /\
  length (nth k sampleSeries []) = 3.
Proof.
  intros Hk. do 5 (destruct k as [|k]; [split; reflexivity|]).
  simpl in Hk. lia.
Defined.

Lemma covariance_matrix_entries_witness :
  exists m,
    calculateCovarianceMatrix stocks sampleReturns = Normal m /\
    square (length stocks) m /\
    forall i j, i < length stocks -> j < length stocks ->
                cell m i j
                = Spec.sampleCovariance (nth i sampleSeries []) (nth j sampleSeries []).
Proof.
  apply (@covariance_matrix_entries float FloatNumber stocks sampleReturns
           (fun k => nth k sampleSeries []) 3).
  - lia.
  - exact sampleReturns_series.
Defined.

(** C4. On IEEE doubles, for return series of one length [M >= 2], the
    matrix calculateCovarianceMatrix returns is symmetric: the entries
    [i][j] and [j][i] are the same double. *)
Theorem covariance_matrix_symmetric (stocks : list string)
  (returns : Obj.t (list float)) (series : nat -> list float) (M : nat) :
  2 <= M ->
  (forall k, k < length stocks ->
             Obj.get (nth k stocks ""%string) returns = Some (series k) /\
             length (series k) = M) ->
  exists m,
    calculateCovarianceMatrix stocks returns = Normal m /\
    forall i j, i < length stocks -> j < length stocks -> cell m i j = cell m j i.
Proof.
  intros HM Hs.
  destruct (@covariance_cells _ _ stocks returns series) as (m & Hm & Hsq & Hcells).
  { intros k Hk. apply Hs, Hk. }
  exists m. split; [assumption|].
  intros i j Hi Hj. rewrite !Hcells by assumption.
  apply covEntry_sym; [exact float_mul_comm|].
  destruct (Hs i Hi) as [_ ->]. destruct (Hs j Hj) as [_ ->]. reflexivity.
Qed.

Lemma covariance_matrix_symmetric_witness :
  exists m,
    calculateCovarianceMatrix stocks sampleReturns = Normal m /\
    forall i j, i < length stocks -> j < length stocks -> cell m i j = cell m j i.
Proof.
  apply (@covariance_matrix_symmetric stocks sampleReturns
           (fun k => nth k sampleSeries []) 3).
  - lia.
  - exact sampleReturns_series.
Defined.

Lemma sampleMatrix_square : square (length sampleMatrix) sampleMatrix.
Proof. split; [reflexivity|]. repeat constructor. Defined.

(** X19. In exact arithmetic, for every N x N matrix (symmetric or not),
    the N eigenvalues jacobiMethod returns sum to the trace of the input,
    whether or not the loop met the tolerance before the cap of 50 passes:
    every pass of the loop keeps the trace of the working matrix. *)
Theorem eigenvalues_sum_to_trace (matrix : list (list R)) :
  square (length matrix) matrix ->
  length (values (jacobiMethod RealMath matrix)) = length matrix /\
  Rsum (values (jacobiMethod RealMath matrix)) = trace matrix /\
  sumOf (values (jacobiMethod RealMath matrix)) = trace matrix /\
  forall st, square (length matrix) (work st) ->
             converged (length matrix) (work st) = false ->
             trace (work (rotate RealMath (length matrix) st)) = trace (work st).
Proof.
  intros Hsq.
  destruct (jacobiMethod_lengths RealMath Hsq) as [Hlen _].
  destruct (jacobiFinal_trace Hsq) as [[Hl Hrows] Htr].
  assert (Hsum : Rsum (values (jacobiMethod RealMath matrix)) = trace matrix).
  { unfold jacobiMethod, readOut. cbn [values].
    rewrite <- (Rsum_perm (sorted_values_perm _)).
    rewrite <- bigsum_at, diagonal_length, <- Htr. unfold trace.
    apply bigsum_ext. intros i Hi. now apply diagonal_at. }
  split; [assumption|]. split; [assumption|]. split.
  - now rewrite sumOf_Rsum.
  - intros st Hs Hc. now apply rotate_trace.
Qed.

Lemma eigenvalues_sum_to_trace_witness :
  length (values (jacobiMethod RealMath sampleMatrix)) = length sampleMatrix /\
  Rsum (values (jacobiMethod RealMath sampleMatrix)) = trace sampleMatrix /\
  sumOf (values (jacobiMethod RealMath sampleMatrix)) = trace sampleMatrix /\
  forall st, square (length sampleMatrix) (work st) ->
             converged (length sampleMatrix) (work st) = false ->
             trace (work (rotate RealMath (length sampleMatrix) st)) = trace (work st).
Proof. exact (eigenvalues_sum_to_trace sampleMatrix_square). Defined.



(** X18. In exact arithmetic the N eigenvectors jacobiMethod returns have
    length N, are of unit length and are pairwise orthogonal, exactly; this
    holds after any number of passes, so in particular whenever the loop
    exits on the tolerance before the cap. *)
Theorem eigenvectors_orthonormal (matrix : list (list R)) :
  square (length matrix) matrix ->
  let vs := vectors (jacobiMethod RealMath matrix) in
  length vs = length matrix /\
  forall k l, k < length matrix -> l < length matrix ->
              dot (nth k vs []) (nth l vs []) = if Nat.eqb k l then 1%R else 0%R.
Proof.
  intros Hsq vs.
  destruct (jacobiMethod_lengths RealMath Hsq) as [_ Hlen].
  split; [exact Hlen|].
  intros k l Hk Hl. unfold vs, jacobiMethod, readOut. cbn [vectors].
  set (st := jacobiFinal RealMath matrix). set (ev := diagonal (work st)).
  destruct (jacobiFinal_work_square RealMath Hsq) as [HW _].
  assert (Hev : length ev = length matrix)
    by (unfold ev; now rewrite diagonal_length).
  assert (Hidx : length (sortedIndices ev) = length matrix)
    by (now rewrite sortedIndices_length).
  rewrite !nth_indep with (d := []) (d' := column (basis st) 0)
    by (now rewrite length_map, Hidx).
  rewrite !(map_nth (fun i => column (basis st) i)).
  destruct (jacobiFinal_orthonormal matrix) as [[Hb _] Ho]. fold st in Hb, Ho.
  rewrite dot_columns with (n := length matrix) by exact Hb.
  rewrite Ho by (rewrite <- Hev; apply sortedIndices_bound; lia).
  unfold delta.
  assert (Hnd : NoDup (sortedIndices ev))
    by (apply (Permutation_NoDup (sortedIndices_perm ev)), seq_NoDup).
  destruct (Nat.eqb_spec k l) as [->|Hkl]; [now rewrite Nat.eqb_refl|].
  destruct (Nat.eqb_spec (nth k (sortedIndices ev) 0) (nth l (sortedIndices ev) 0))
    as [Heq|Hne]; [|reflexivity].
  exfalso. apply Hkl.
  apply (proj1 (NoDup_nth (sortedIndices ev) 0) Hnd); auto; lia.
Qed.

Lemma eigenvectors_orthonormal_witness :
  let vs := vectors (jacobiMethod RealMath sampleMatrix) in
  length vs = length sampleMatrix /\
  forall k l, k < length sampleMatrix -> l < length sampleMatrix ->
              dot (nth k vs []) (nth l vs []) = if Nat.eqb k l then 1%R else 0%R.
Proof. exact (eigenvectors_orthonormal sampleMatrix_square). Defined.

(** C7. jacobiMethod always returns, whatever the Number type and the
    [Math] functions: the loop makes [iter <= 50] passes; it leaves before
    pass [k] exactly when the test of line 180 holds of the working matrix
    after [k] passes, and not before; when the cap of 50 is reached first
    the state after 50 passes is read out like any other, with no error.
    In exact arithmetic the test holds exactly when every entry above the
    diagonal of the working matrix is below 1e-10 in magnitude; for a
    symmetric input every working matrix the loop tests is symmetric, so
    that these are all its off-diagonal entries. *)
Theorem jacobi_terminates :
  (forall (F : Type) (Num : JSNumber F) (M : MathLib F) (matrix : list (list F)),
      let fin := jacobiFinal M matrix in
      iter fin <= 50 /\
      fin = afterRotations M matrix (iter fin) /\
      jacobiMethod M matrix = readOut (afterRotations M matrix (iter fin)) /\
      (forall k, k < iter fin ->
                 converged (length matrix) (work (afterRotations M matrix k)) = false) /\
      (iter fin < 50 -> converged (length matrix) (work fin) = true)) /\
  (forall (n : nat) (A : list (list R)),
      square n A -> (converged n A = true <-> offDiagonalSmall n A)) /\
  (forall (matrix : list (list R)) (k : nat),
      square (length matrix) matrix -> symmetric (length matrix) matrix ->
      k <= iter (jacobiFinal RealMath matrix) ->
      let A := work (afterRotations RealMath matrix k) in
      symmetric (length matrix) A /\
      (converged (length matrix) A = true <-> allOffDiagonalSmall (length matrix) A)).
Proof.
  assert (Hgen : forall (F : Type) (Num : JSNumber F) (M : MathLib F)
                        (matrix : list (list F)),
             let fin := jacobiFinal M matrix in
             iter fin <= 50 /\
             fin = afterRotations M matrix (iter fin) /\
             jacobiMethod M matrix = readOut (afterRotations M matrix (iter fin)) /\
             (forall k, k < iter fin ->
                        converged (length matrix) (work (afterRotations M matrix k)) = false) /\
             (iter fin < 50 -> converged (length matrix) (work fin) = true)).
  { intros F Num M matrix fin.
    destruct (jacobiLoop_passes M (length matrix) 50 (initialState matrix))
      as (j & Hj & Heq & Hit & Hbefore & Hafter).
    assert (Hfin : fin = jacobiLoop M (length matrix) 50 (initialState matrix))
      by reflexivity.
    rewrite <- Hfin in Heq, Hit.
    assert (Hij : iter fin = j) by (rewrite Hit; reflexivity).
    rewrite Hij. unfold afterRotations.
    split; [exact Hj|]. split; [exact Heq|]. split; [|split].
    - unfold jacobiMethod. fold fin. now rewrite <- Heq.
    - exact Hbefore.
    - intros Hlt. rewrite Heq. now apply Hafter. }
  split; [exact Hgen|]. split; [intros n A _; apply converged_iff|].
  intros matrix k Hsq Hsym Hk A.
  destruct (Hgen R RealNumber RealMath matrix) as (_ & _ & _ & Hbefore & _).
  destruct (@afterRotations_symmetric matrix k Hsq Hsym) as [_ Hy].
  { intros i Hi. apply Hbefore. lia. }
  split; [exact Hy|].
  rewrite converged_iff. now apply symmetric_offDiagonal.
Qed.

Lemma sampleMatrix_symmetric : symmetric (length sampleMatrix) sampleMatrix.
Proof.
  intros i j Hi Hj. simpl in Hi, Hj.
  destruct i as [|[|i]], j as [|[|j]]; try lia; reflexivity.
Defined.

Lemma jacobi_terminates_witness :
  let A := work (afterRotations RealMath sampleMatrix 0) in
  symmetric (length sampleMatrix) A /\
  (converged (length sampleMatrix) A = true <->
   allOffDiagonalSmall (length sampleMatrix) A).
Proof.
  apply (proj2 (proj2 jacobi_terminates) sampleMatrix 0
           sampleMatrix_square sampleMatrix_symmetric).
  apply Nat.le_0_l.
Defined.

(** C8. For a decomposition with at least one eigenvector, whatever the
    Number type, the summary of lines 123-127 names the asset at index
    [findMaxIndex(eigenvectors[0])], gives varianceExplained as
    eigenvalue[0] over the sum of all eigenvalues, times 100, and
    totalVariance as that sum.  In exact arithmetic [findMaxIndex] of a
    non-empty array is the first index that holds the greatest signed
    value: no component is greater, and every earlier one is smaller. *)
Theorem interpret_summary :
  (forall (F : Type) (Num : JSNumber F) (stocks : list string)
          (eigenvalues v0 : list F) (rest : list (list F)),
      interpret stocks eigenvalues (v0 :: rest) =
      Normal {| mainTrendStock := nth_error stocks (findMaxIndex v0);
                varianceExplained :=
                  (at_ eigenvalues 0 :/: Spec.total eigenvalues) :*: fromZ 100;
                totalVariance := Spec.total eigenvalues |}) /\
  (forall (stocks : list string) (v0 : list R),
      v0 <> [] -> length v0 = length stocks ->
      findMaxIndex v0 < length v0 /\
      nth_error stocks (findMaxIndex v0) = Some (nth (findMaxIndex v0) stocks ""%string) /\
      (forall i, i < length v0 -> (at_ v0 i <= at_ v0 (findMaxIndex v0))%R) /\
      (forall i, i < findMaxIndex v0 -> (at_ v0 i < at_ v0 (findMaxIndex v0))%R)).
Proof.
  split.
  - intros. reflexivity.
  - intros stocks v0 Hne Hlen.
    destruct (findMaxIndex_first_greatest Hne) as (Hm & Hge & Hfirst).
    split; [exact Hm|]. split; [|split; assumption].
    apply nth_error_nth'. lia.
Qed.

Lemma interpret_summary_witness :
  [1; 3; 3; -4; 2]%R <> [] /\ length [1; 3; 3; -4; 2]%R = length stocks /\
  findMaxIndex [1; 3; 3; -4; 2]%R < length [1; 3; 3; -4; 2]%R /\
  nth_error stocks (findMaxIndex [1; 3; 3; -4; 2]%R)
  = Some (nth (findMaxIndex [1; 3; 3; -4; 2]%R) stocks ""%string) /\
  (forall i, i < length [1; 3; 3; -4; 2]%R ->
             (at_ [1; 3; 3; -4; 2]%R i <= at_ [1; 3; 3; -4; 2]%R (findMaxIndex [1; 3; 3; -4; 2]%R))%R) /\
  (forall i, i < findMaxIndex [1; 3; 3; -4; 2]%R ->
             (at_ [1; 3; 3; -4; 2]%R i < at_ [1; 3; 3; -4; 2]%R (findMaxIndex [1; 3; 3; -4; 2]%R))%R).
Proof.
  split; [discriminate|]. split; [reflexivity|].
  apply (proj2 interpret_summary stocks [1; 3; 3; -4; 2]%R).
  - discriminate.
  - reflexivity.
Defined.

(** C9, as the specification states it, fails: the source has no
    DegenerateDecompositionError.  For the all-zero decomposition of the
    basket the eigenvalues sum to zero and lines 123-127 return a summary,
    whose varianceExplained is NaN; performAnalysis returns that summary for
    a table of constant prices, whatever the [Math] functions. *)
Lemma degenerate_summary_returned :
  sumOf zeroEigenvalues = 0%float /\
  interpret stocks zeroEigenvalues unitVectors =
  Normal {| mainTrendStock := Some "RELIANCE.NS"%string;
            varianceExplained := PrimFloat.nan;
            totalVariance := 0%float |} /\
  exists r,
    (forall M : MathLib float, performAnalysis M stocks constantTable = Normal r) /\
    res_eigenvalues r = zeroEigenvalues /\
    res_eigenvectors r = unitVectors /\
    res_analysis r = {| mainTrendStock := Some "RELIANCE.NS"%string;
                        varianceExplained := PrimFloat.nan;
                        totalVariance := 0%float |}.
Proof.
  split; [vm_compute; reflexivity|]. split; [vm_compute; reflexivity|].
  eexists. split; [intros M; vm_compute; reflexivity|].
  split; [|split]; vm_compute; reflexivity.
Qed.

(** C9, amended.  On IEEE doubles, for a decomposition with at least one
    eigenvector whose eigenvalues sum to zero, the interpretation raises no
    error: it returns a summary whose totalVariance is 0 and whose
    varianceExplained is [eigenvalue[0] / 0 * 100], which is NaN when
    eigenvalue[0] is zero. *)
Theorem interpret_zero_total (stocks : list string) (eigenvalues : list float)
  (v0 : list float) (rest : list (list float)) :
  sumOf eigenvalues = 0%float ->
  exists s,
    interpret stocks eigenvalues (v0 :: rest) = Normal s /\
    mainTrendStock s = nth_error stocks (findMaxIndex v0) /\
    totalVariance s = 0%float /\
    varianceExplained s = (at_ eigenvalues 0 / 0 * 100)%float /\
    (at_ eigenvalues 0 = 0%float -> varianceExplained s = PrimFloat.nan).
Proof.
  intros Hsum. unfold interpret. cbn [nth_error required bind].
  eexists. split; [reflexivity|]. cbn [mainTrendStock totalVariance varianceExplained].
  rewrite Hsum. split; [reflexivity|]. split; [reflexivity|]. split; [reflexivity|].
  intros ->. vm_compute. reflexivity.
Qed.

Lemma interpret_zero_total_witness :
  exists s,
    interpret stocks zeroEigenvalues ([1; 0; 0; 0; 0]%float :: tl unitVectors) = Normal s /\
    mainTrendStock s = nth_error stocks (findMaxIndex [1; 0; 0; 0; 0]%float) /\
    totalVariance s = 0%float /\
    varianceExplained s = (at_ zeroEigenvalues 0 / 0 * 100)%float /\
    (at_ zeroEigenvalues 0 = 0%float -> varianceExplained s = PrimFloat.nan).
Proof.
  apply (@interpret_zero_total stocks zeroEigenvalues [1; 0; 0; 0; 0]%float (tl unitVectors)).
  vm_compute. reflexivity.
Defined.

(** C10, as the specification states it, fails: the source has no
    DataAlignmentError and does not compare date keys.  In
    [misalignedTable] the second asset has a date the first one lacks;
    performAnalysis returns, whatever the [Math] functions, with returns,
    eigenvalues and a summary computed from the dates of the first asset. *)
Lemma misaligned_table_analysed :
  ~ aligned stocks misalignedTable /\
  exists r,
    (forall M : MathLib float, performAnalysis M stocks misalignedTable = Normal r) /\
    Obj.get "TCS.NS"%string (res_returns r) = Some [0; 0]%float /\
    res_eigenvalues r = [0.020000000000000004; 0; 0; 0; 0]%float /\
    res_analysis r = {| mainTrendStock := Some "RELIANCE.NS"%string;
                        varianceExplained := 100%float;
                        totalVariance := 0.020000000000000004%float |}.
Proof.
  split.
  - intros H.
    specialize (H "RELIANCE.NS"%string "TCS.NS"%string).
    assert (Hk : Obj.keys (seriesOf misalignedTable "RELIANCE.NS"%string)
                 = Obj.keys (seriesOf misalignedTable "TCS.NS"%string))
      by (apply H; simpl; auto).
    vm_compute in Hk. discriminate Hk.
  - eexists. split; [intros M; vm_compute; reflexivity|].
    split; [|split]; vm_compute; reflexivity.
Qed.

(** C10, amended.  performAnalysis makes no check of the date keys: for a
    non-empty basket of which every asset has a price object in the table,
    aligned or not, it returns a result bundle (no error) that carries the
    table and, for each asset, the returns of its prices read at the dates
    of the first asset of the basket, a price being [undefined] where the
    asset lacks the date. *)
Theorem analysis_without_alignment_check (F : Type) (Num : JSNumber F)
  (M : MathLib F) (stocks : list string) (stockData : Obj.t (Obj.t F)) :
  stocks <> [] ->
  (forall s, In s stocks -> Obj.get s stockData <> None) ->
  exists r,
    performAnalysis M stocks stockData = Normal r /\
    res_stockData r = stockData /\
    forall s, In s stocks ->
              Obj.get s (res_returns r) = Some (returnsOf (pricesAt stocks stockData s)).
Proof. intros Hne Hall. now apply performAnalysis_normal. Qed.

Lemma analysis_without_alignment_check_witness :
  ~ aligned stocks misalignedRealTable /\
  exists r,
    performAnalysis RealMath stocks misalignedRealTable = Normal r /\
    res_stockData r = misalignedRealTable /\
    forall s, In s stocks ->
              Obj.get s (res_returns r)
              = Some (returnsOf (pricesAt stocks misalignedRealTable s)).
Proof.
  split.
  - intros H.
    specialize (H "RELIANCE.NS"%string "TCS.NS"%string).
    assert (Hk : Obj.keys (seriesOf misalignedRealTable "RELIANCE.NS"%string)
                 = Obj.keys (seriesOf misalignedRealTable "TCS.NS"%string))
      by (apply H; simpl; auto).
    simpl in Hk. discriminate Hk.
  - apply (@analysis_without_alignment_check R RealNumber RealMath stocks misalignedRealTable).
    + discriminate.
    + intros s Hs. simpl in Hs.
      destruct Hs as [<-|[<-|[<-|[<-|[<-|[]]]]]]; simpl; discriminate.
Defined.

(** * Further properties of the code *)

(** ** Objects filled by a loop *)

Section ObjFill.
Context {A V : Type}.
Variable key : A -> string.
Variable val : A -> V.

Lemma fill_app (l l' : list A) (o : Obj.t V) : fillObject key val (l ++ l') o = fillObject key val l' (fillObject key val l o).
Proof. unfold fillObject. apply fold_left_app. Qed.

Lemma get_fill_absent (k : string) (l : list A) :
  (forall x, In x l -> key x <> k) -> forall o, Obj.get k (fillObject key val l o) = Obj.get k o.
Proof.
  induction l as [|a t IH]; intros Hn o; [reflexivity|].
  change (fillObject key val (a :: t) o) with (fillObject key val t (Obj.set (key a) (val a) o)).
  rewrite IH by (intros; apply Hn; now right).
  apply get_set_other, Hn. now left.
Qed.

(** The last write of a key is the one a later read sees. *)
Lemma get_fill_last (l1 l2 : list A) (x : A) (o : Obj.t V) :
  (forall y, In y l2 -> key y <> key x) ->
  Obj.get (key x) (fillObject key val (l1 ++ x :: l2) o) = Some (val x).
Proof.
  intros Hn. rewrite fill_app.
  change (fillObject key val (x :: l2) (fillObject key val l1 o)) with (fillObject key val l2 (Obj.set (key x) (val x) (fillObject key val l1 o))).
  rewrite get_fill_absent by assumption. apply get_set_same.
Qed.

Lemma get_None_not_key (k : string) (o : Obj.t V) :
  Obj.get k o = None <-> ~ In k (Obj.keys o).
Proof.
  induction o as [|[k' v] rest IH]; simpl; [tauto|].
  destruct (String.eqb_spec k k') as [->|Hne].
  - split; [discriminate|]. intros H. exfalso. apply H. now left.
  - rewrite IH. split; intros H; [intros [Heq|Hin]; [congruence|auto]|auto].
Qed.

Lemma set_fresh (k : string) (v : V) (o : Obj.t V) :
  ~ In k (Obj.keys o) -> Obj.set k v o = o ++ [(k, v)].
Proof.
  induction o as [|[k' v'] rest IH]; intros Hn; simpl; [reflexivity|].
  destruct (String.eqb_spec k k') as [->|Hne].
  - exfalso. apply Hn. now left.
  - rewrite IH; [reflexivity|]. intro. apply Hn. now right.
Qed.

(** Keys written once each come out in the order they were written. *)
Lemma fill_distinct (l : list A) (o : Obj.t V) :
  NoDup (Obj.keys o ++ map key l) ->
  fillObject key val l o = o ++ map (fun x => (key x, val x)) l.
Proof.
  revert o. induction l as [|a t IH]; intros o Hnd; simpl.
  - now rewrite app_nil_r.
  - change (fillObject key val (a :: t) o) with (fillObject key val t (Obj.set (key a) (val a) o)).
    assert (Ha : ~ In (key a) (Obj.keys o)).
    { apply NoDup_remove_2 in Hnd. intro. apply Hnd. apply in_or_app. now left. }
    rewrite set_fresh by assumption.
    rewrite IH.
    + now rewrite <- app_assoc.
    + unfold Obj.keys in *. rewrite map_app. simpl. rewrite <- app_assoc. exact Hnd.
Qed.

End ObjFill.

(** ** processChartData *)

Lemma combine_seq_app {A} (a : nat) (l1 l2 : list A) :
  combine (seq a (length (l1 ++ l2))) (l1 ++ l2) =
  combine (seq a (length l1)) l1 ++ combine (seq (a + length l1) (length l2)) l2.
Proof.
  revert a. induction l1 as [|x t IH]; intros a; simpl.
  - now rewrite Nat.add_0_r.
  - rewrite IH. replace (a + S (length t)) with (S a + length t) by lia. reflexivity.
Qed.

Lemma map_snd_combine_seq {A B} (f : A -> B) (a : nat) (l : list A) :
  map (fun it : nat * A => f (snd it)) (combine (seq a (length l)) l) = map f l.
Proof.
  revert a. induction l as [|x t IH]; intros a; simpl; [reflexivity|].
  now rewrite IH.
Qed.

Lemma in_combine_seq {A} (a : nat) (l : list A) (i : nat) (x : A) :
  In (i, x) (combine (seq a (length l)) l) -> In x l.
Proof. apply in_combine_r. Qed.

Section ChartFacts.
Context {T V : Type}.
Variable isoDate : T -> string.

Lemma processChartData_fill (results : list (ChartResult T V)) :
  processChartData isoDate results =
  fillObject meta_symbol (seriesOfChart isoDate) results [].
Proof. reflexivity. Qed.

Lemma seriesOfChart_fill (e : ChartResult T V) :
  seriesOfChart isoDate e =
  fillObject (fun it : nat * T => isoDate (snd it))
             (fun it : nat * T => nth_error (close e) (fst it))
             (combine (seq 0 (length (timestamp e))) (timestamp e)) [].
Proof. reflexivity. Qed.

End ChartFacts.

(** X1. In the table processChartData builds, a symbol holds the series of
    the last result that carries it (an earlier result for the same symbol
    is replaced as a whole), and a symbol no result carries is absent. *)
Theorem chart_symbol_lookup :
  forall (T V : Type) (isoDate : T -> string),
    (forall (before after : list (ChartResult T V)) (e : ChartResult T V),
        (forall e', In e' after -> meta_symbol e' <> meta_symbol e) ->
        Obj.get (meta_symbol e) (processChartData isoDate (before ++ e :: after))
        = Some (seriesOfChart isoDate e)) /\
    (forall (results : list (ChartResult T V)) (symbol : string),
        (forall e, In e results -> meta_symbol e <> symbol) ->
        Obj.get symbol (processChartData isoDate results) = None).
Proof.
  intros T V isoDate. split.
  - intros before after e Hlast. rewrite processChartData_fill.
    now apply (get_fill_last meta_symbol (seriesOfChart isoDate)).
  - intros results symbol Habsent. rewrite processChartData_fill.
    now rewrite get_fill_absent.
Qed.

Lemma chart_symbol_lookup_witness :
  Obj.get (meta_symbol sampleFresh)
          (processChartData dayLabel ([sampleStale] ++ sampleFresh :: [sampleOther]))
  = Some (seriesOfChart dayLabel sampleFresh).
Proof.
  apply (proj1 (@chart_symbol_lookup N float dayLabel) [sampleStale] [sampleOther] sampleFresh).
  intros e' [<-|[]]. discriminate.
Defined.

(** X2. In the series of one chart result, a date holds the close at the
    index of the last time stamp that falls on it, which is [undefined]
    when the closes are fewer than the time stamps; a date no time stamp
    falls on is absent. *)
Theorem chart_date_lookup :
  forall (T V : Type) (isoDate : T -> string) (e : ChartResult T V),
    (forall (earlier later : list T) (t : T),
        timestamp e = earlier ++ t :: later ->
        (forall t', In t' later -> isoDate t' <> isoDate t) ->
        Obj.get (isoDate t) (seriesOfChart isoDate e)
        = Some (nth_error (close e) (length earlier))) /\
    (forall date : string,
        (forall t, In t (timestamp e) -> isoDate t <> date) ->
        Obj.get date (seriesOfChart isoDate e) = None).
Proof.
  intros T V isoDate e. split.
  - intros earlier later t Hts Hlast. rewrite seriesOfChart_fill, Hts.
    rewrite combine_seq_app. simpl.
    apply (get_fill_last (fun it : nat * T => isoDate (snd it))
                         (fun it : nat * T => nth_error (close e) (fst it))
                         _ _ (length earlier, t)).
    intros [i t'] Hin. simpl. apply Hlast.
    eapply in_combine_r, Hin.
  - intros date Habsent. rewrite seriesOfChart_fill.
    rewrite get_fill_absent; [reflexivity|].
    intros [i t] Hin. simpl. apply Habsent. eapply in_combine_r, Hin.
Qed.

Lemma chart_date_lookup_witness :
  Obj.get (dayLabel 172860) (seriesOfChart dayLabel sampleFresh)
  = Some (nth_error (close sampleFresh) (length [86400; 172800]%N)).
Proof.
  apply (proj1 (@chart_date_lookup N float dayLabel sampleFresh) [86400; 172800]%N [] 172860%N).
  - reflexivity.
  - intros t' [].
Defined.

(** X3. When the time stamps of a chart result fall on pairwise distinct
    dates, the keys of its series are these dates in the order of the time
    stamps: this is the order performAnalysis later reads the prices in. *)
Theorem chart_dates_in_order (T V : Type) (isoDate : T -> string) (e : ChartResult T V) :
  NoDup (map isoDate (timestamp e)) ->
  Obj.keys (seriesOfChart isoDate e) = map isoDate (timestamp e).
Proof.
  intros Hnd. rewrite seriesOfChart_fill.
  assert (Hk : map (fun it : nat * T => isoDate (snd it))
                   (combine (seq 0 (length (timestamp e))) (timestamp e))
               = map isoDate (timestamp e)).
  { apply map_snd_combine_seq. }
  rewrite fill_distinct by (simpl; now rewrite Hk).
  simpl. unfold Obj.keys. rewrite map_map. exact Hk.
Qed.

Lemma chart_dates_in_order_witness :
  Obj.keys (seriesOfChart dayLabel sampleOther) = map dayLabel (timestamp sampleOther).
Proof.
  apply (@chart_dates_in_order N float dayLabel sampleOther).
  vm_compute. repeat constructor; simpl; intuition discriminate.
Defined.

(** ** Loops that may throw *)

Lemma throws_TypeError {A} (c : completion A) :
  (forall a, c <> Normal a) -> c = Throw TypeError.
Proof. destruct c as [a|[]]; intros H; [now destruct (H a)|reflexivity]. Qed.

Lemma foldM_normal_inv {A S} (f : S -> A -> completion S) (l : list A) :
  forall s s', foldM f l s = Normal s' ->
               forall a, In a l -> exists s0 s1, f s0 a = Normal s1.
Proof.
  induction l as [|x t IH]; intros s s' H a Hin; [contradiction|].
  simpl in H. destruct (f s x) as [s1|e] eqn:Hf; [|discriminate].
  destruct Hin as [<-|Hin]; [eauto|]. simpl in H. eapply IH; eauto.
Qed.

Lemma mapM_normal_inv {A B} (f : A -> completion B) (l : list A) (bs : list B) :
  mapM f l = Normal bs -> forall a, In a l -> exists b, f a = Normal b.
Proof.
  revert bs. induction l as [|x t IH]; intros bs H a Hin; [contradiction|].
  simpl in H. destruct (f x) as [b|e] eqn:Hf; [|discriminate].
  destruct Hin as [<-|Hin]; [eauto|].
  simpl in H. destruct (mapM f t) as [bs'|e]; [|discriminate]. eapply IH; eauto.
Qed.

Lemma mapM_length {A B} (f : A -> completion B) (l : list A) (bs : list B) :
  mapM f l = Normal bs -> length bs = length l.
Proof.
  revert bs. induction l as [|x t IH]; intros bs H; simpl in H.
  - injection H as <-. reflexivity.
  - destruct (f x) as [b|e]; [|discriminate]. simpl in H.
    destruct (mapM f t) as [bs'|e]; [|discriminate]. simpl in H.
    injection H as <-. simpl. f_equal. now apply IH.
Qed.

Lemma appendRows_normal {A Row} (f : A -> completion Row) (g : A -> Row) (l : list A) :
  (forall a, In a l -> f a = Normal (g a)) ->
  appendRows f l = (map g l, Normal tt).
Proof.
  induction l as [|a t IH]; intros H; simpl; [reflexivity|].
  rewrite H by (now left). rewrite IH by (intros; apply H; now right). reflexivity.
Qed.

Lemma appendRows_throw {A Row} (f : A -> completion Row) (g : A -> Row)
  (l1 l2 : list A) (a : A) (e : JsError) :
  (forall x, In x l1 -> f x = Normal (g x)) -> f a = Throw e ->
  appendRows f (l1 ++ a :: l2) = (map g l1, Throw e).
Proof.
  intros H Ha. induction l1 as [|x t IH]; simpl.
  - now rewrite Ha.
  - rewrite H by (now left). rewrite IH by (intros; apply H; now right). reflexivity.
Qed.

Lemma lastFive_length {A} (l : list A) : length (lastFive l) = Nat.min 5 (length l).
Proof. unfold lastFive. rewrite length_skipn. lia. Qed.

Lemma lastFive_nth {A} (l : list A) (d : A) (k : nat) :
  nth k (lastFive l) d = nth (length l - Nat.min 5 (length l) + k) l d.
Proof.
  unfold lastFive. rewrite nth_skipn. f_equal. lia.
Qed.

Lemma lastFive_incl {A} (l : list A) (x : A) : In x (lastFive l) -> In x l.
Proof.
  unfold lastFive. intros H.
  rewrite <- (firstn_skipn (length l - 5) l). apply in_or_app. now right.
Qed.

(** ** When performAnalysis returns *)

Section PipelineStructure.
Context {F : Type} {Num : JSNumber F}.

Lemma pricesOf_returns (stocks : list string) (stockData : Obj.t (Obj.t F))
  (first : Obj.t F) :
  Obj.get (nth 0 stocks "undefined"%string) stockData = Some first ->
  (Obj.keys first = [] \/ forall s, In s stocks -> Obj.get s stockData <> None) ->
  pricesOf stocks stockData =
  Normal (datesOf stocks stockData,
          fold_left (fun prices stock => Obj.set stock (pricesAt stocks stockData stock) prices)
                    stocks []).
Proof.
  intros Hfirst Hcases. unfold pricesOf. rewrite Hfirst. cbn [required bind].
  assert (Hd : datesOf stocks stockData = Obj.keys first).
  { unfold datesOf, seriesOf. now rewrite Hfirst. }
  rewrite <- Hd.
  rewrite foldM_pure with
    (g := fun prices stock => Obj.set stock (pricesAt stocks stockData stock) prices).
  - reflexivity.
  - intros prices stock Hs. unfold pricesAt.
    destruct Hcases as [Hempty|Hall].
    + rewrite Hd, Hempty. reflexivity.
    + rewrite mapM_pure with (g := fun date => Obj.get date (seriesOf stockData stock)).
      * reflexivity.
      * intros date _. unfold seriesOf. specialize (Hall stock Hs).
        destruct (Obj.get stock stockData); [reflexivity|contradiction].
Qed.

Lemma pricesOf_normal_inv (stocks : list string) (stockData : Obj.t (Obj.t F))
  (dp : list string * Obj.t (list (option F))) :
  pricesOf stocks stockData = Normal dp ->
  exists first,
    Obj.get (nth 0 stocks "undefined"%string) stockData = Some first /\
    (Obj.keys first = [] \/ forall s, In s stocks -> Obj.get s stockData <> None).
Proof.
  unfold pricesOf. intros H.
  destruct (Obj.get (nth 0 stocks "undefined"%string) stockData) as [first|] eqn:Hfirst;
    [|discriminate].
  exists first. split; [reflexivity|]. cbn [required bind] in H.
  destruct (Obj.keys first) as [|date dates] eqn:Hk; [now left|right].
  intros s Hs Hnone.
  match type of H with
  | bind ?c _ = _ => destruct c as [prices|e] eqn:Hfold; [|discriminate]
  end.
  destruct (foldM_normal_inv _ _ _ Hfold s Hs) as (s0 & s1 & Hrow).
  simpl in Hrow. rewrite Hnone in Hrow. discriminate.
Qed.

(** What a returning call is made of. *)
Lemma performAnalysis_structure (M : MathLib F) (stocks : list string)
  (stockData : Obj.t (Obj.t F)) (first : Obj.t F) :
  stocks <> [] ->
  Obj.get (nth 0 stocks "undefined"%string) stockData = Some first ->
  (Obj.keys first = [] \/ forall s, In s stocks -> Obj.get s stockData <> None) ->
  exists r cov,
    performAnalysis M stocks stockData = Normal r /\
    res_stockData r = stockData /\
    (forall s, In s stocks ->
               Obj.get s (res_returns r) = Some (returnsOf (pricesAt stocks stockData s))) /\
    calculateCovarianceMatrix stocks (res_returns r) = Normal cov /\
    square (length stocks) cov /\
    (forall i j, i < length stocks -> j < length stocks ->
                 cell cov i j =
                 covEntry (returnsOf (pricesAt stocks stockData (nth i stocks ""%string)))
                          (returnsOf (pricesAt stocks stockData (nth j stocks ""%string)))) /\
    res_eigenvalues r = values (jacobiMethod M cov) /\
    res_eigenvectors r = vectors (jacobiMethod M cov) /\
    interpret stocks (res_eigenvalues r) (res_eigenvectors r) = Normal (res_analysis r).
Proof.
  intros Hne Hfirst Hcases. unfold performAnalysis.
  rewrite (@pricesOf_returns stocks stockData first Hfirst Hcases). cbn [bind snd].
  rewrite returnsTable_normal. cbn [bind].
  set (returns := fold_left (fun returns stock =>
                               Obj.set stock (returnsOf (pricesAt stocks stockData stock)) returns)
                            stocks []).
  assert (Hret : forall s, In s stocks ->
                           Obj.get s returns = Some (returnsOf (pricesAt stocks stockData s))).
  { intros s Hs. unfold returns.
    apply get_after_sets with (f := fun s => returnsOf (pricesAt stocks stockData s)).
    exact Hs. }
  destruct (@covariance_cells _ _ stocks returns
              (fun k => returnsOf (pricesAt stocks stockData (nth k stocks ""%string))))
    as (m & Hm & Hsq & Hcells).
  { intros k Hk. apply Hret, nth_In, Hk. }
  rewrite Hm. cbn [bind]. unfold performPCA.
  assert (Hsq' : square (length m) m) by (destruct Hsq as [Hl Hr]; rewrite Hl; now split).
  destruct (jacobiMethod_lengths M Hsq') as [_ Hv].
  unfold interpret.
  destruct (vectors (jacobiMethod M m)) as [|v0 rest] eqn:Ev.
  - exfalso. simpl in Hv. destruct Hsq as [Hl _]. destruct stocks; [contradiction|].
    simpl in Hl. lia.
  - cbn [nth_error required bind]. eexists. exists m.
    split; [reflexivity|]. cbn [res_stockData res_returns res_eigenvalues
                                res_eigenvectors res_analysis].
    rewrite Ev. cbn [nth_error required bind].
    split; [reflexivity|]. split; [exact Hret|]. split; [exact Hm|].
    split; [exact Hsq|]. split; [exact Hcells|].
    split; [reflexivity|]. split; reflexivity.
Qed.

Lemma performAnalysis_empty_basket (M : MathLib F) (stockData : Obj.t (Obj.t F)) :
  performAnalysis M [] stockData = Throw TypeError.
Proof.
  apply throws_TypeError. intros r. unfold performAnalysis, pricesOf.
  destruct (Obj.get (nth 0 [] "undefined"%string) stockData) as [first|];
    [|discriminate].
  cbn [required bind foldM snd returnsTable calculateCovarianceMatrix length seq].
  unfold performPCA.
  assert (Hsq : square (length (zeroMatrix 0 : list (list F))) (zeroMatrix 0))
    by apply zeroMatrix_square.
  destruct (jacobiMethod_lengths M Hsq) as [_ Hv].
  unfold interpret.
  destruct (vectors (jacobiMethod M (zeroMatrix 0))) as [|v0 rest];
    [cbn [nth_error required bind]; discriminate|discriminate Hv].
Qed.

Lemma performAnalysis_normal_inv (M : MathLib F) (stocks : list string)
  (stockData : Obj.t (Obj.t F)) (r : Analysis) :
  performAnalysis M stocks stockData = Normal r ->
  stocks <> [] /\
  exists first,
    Obj.get (nth 0 stocks "undefined"%string) stockData = Some first /\
    (Obj.keys first = [] \/ forall s, In s stocks -> Obj.get s stockData <> None).
Proof.
  intros H. split.
  - intros ->. rewrite performAnalysis_empty_basket in H. discriminate.
  - unfold performAnalysis in H.
    destruct (pricesOf stocks stockData) as [dp|e] eqn:Hp; [|discriminate].
    now apply pricesOf_normal_inv in Hp.
Qed.

End PipelineStructure.

(** ** The two tables *)

Section TableFacts.
Context {F : Type}.
Variable toFixed : F -> nat -> string.
Variable toLocaleDateString : string -> string.

Lemma priceRow_normal (stocks : list string) (pricesData : Obj.t (Obj.t F)) (date : string) :
  (forall s, In s stocks -> Obj.get s pricesData <> None) ->
  mapM (fun stock =>
          (series <- required (Obj.get stock pricesData) ;;
           Normal (priceCell toFixed (Obj.get date series)))%js) stocks
  = Normal (map (fun s => priceCell toFixed (Obj.get date (seriesOf pricesData s))) stocks).
Proof.
  intros Hall. apply mapM_pure. intros s Hs. unfold seriesOf.
  specialize (Hall s Hs). destruct (Obj.get s pricesData); [reflexivity|contradiction].
Qed.

Lemma priceRow_normal_inv (stocks : list string) (pricesData : Obj.t (Obj.t F))
  (date : string) (cells : list string) :
  mapM (fun stock =>
          (series <- required (Obj.get stock pricesData) ;;
           Normal (priceCell toFixed (Obj.get date series)))%js) stocks
  = Normal cells ->
  forall s, In s stocks -> Obj.get s pricesData <> None.
Proof.
  intros H s Hs Hnone.
  destruct (mapM_normal_inv _ _ H s Hs) as [b Hb].
  rewrite Hnone in Hb. discriminate.
Qed.

Lemma displayStockPrices_normal (stocks : list string) (pricesData : Obj.t (Obj.t F))
  (first : Obj.t F) :
  Obj.get (nth 0 stocks "undefined"%string) pricesData = Some first ->
  (Obj.keys first = [] \/ forall s, In s stocks -> Obj.get s pricesData <> None) ->
  displayStockPrices toFixed toLocaleDateString stocks pricesData =
  (map (fun date =>
          toLocaleDateString date
          :: map (fun s => priceCell toFixed (Obj.get date (seriesOf pricesData s))) stocks)
       (lastFive (datesOf stocks pricesData)),
   Normal tt).
Proof.
  intros Hfirst Hcases. unfold displayStockPrices. rewrite Hfirst.
  assert (Hd : datesOf stocks pricesData = Obj.keys first).
  { unfold datesOf, seriesOf. now rewrite Hfirst. }
  rewrite Hd. destruct Hcases as [Hempty|Hall].
  - rewrite Hempty. reflexivity.
  - apply appendRows_normal. intros date _. now rewrite priceRow_normal.
Qed.

Lemma displayEigenData_from (eigenvectors : list (list F)) (eigenvalues : list F) :
  forall a,
    let res :=
      appendRows
        (fun ix : nat * F =>
           (vector <- required (nth_error eigenvectors (fst ix)) ;;
            Normal {| component := componentLabel (fst ix);
                      eigenvalueText := toFixed (snd ix) 6;
                      loadings := map (fun value => (toFixed value 4, Nat.eqb (fst ix) 0))
                                      vector |})%js)
        (combine (seq a (length eigenvalues)) eigenvalues) in
    length (fst res) = Nat.min (length eigenvalues) (length eigenvectors - a) /\
    (snd res = Normal tt <->
     length eigenvalues = 0 \/ a + length eigenvalues <= length eigenvectors) /\
    (forall k x v,
        nth_error eigenvalues k = Some x -> nth_error eigenvectors (a + k) = Some v ->
        nth_error (fst res) k =
        Some {| component := componentLabel (a + k);
                eigenvalueText := toFixed x 6;
                loadings := map (fun value => (toFixed value 4, Nat.eqb (a + k) 0)) v |}).
Proof.
  induction eigenvalues as [|x t IH]; intros a res.
  - subst res. simpl. split; [reflexivity|]. split; [tauto|].
    intros [|k] ? ? H; discriminate H.
  - subst res. cbn [length seq combine appendRows fst snd].
    destruct (nth_error eigenvectors a) as [v|] eqn:Ha.
    + cbn [required bind].
      specialize (IH (S a)). cbv zeta in IH.
      destruct (appendRows _ (combine (seq (S a) (length t)) t)) as [rows c] eqn:Hrest.
      cbn [fst snd] in *. destruct IH as (Hlen & Hc & Hrows).
      assert (Hlt : a < length eigenvectors)
        by (apply nth_error_Some; rewrite Ha; discriminate).
      split; [cbn [length]; rewrite Hlen; lia|]. split.
      * rewrite Hc. cbn [length]. lia.
      * intros [|k] x' v' Hx Hv.
        -- rewrite Nat.add_0_r in *. simpl in Hx. injection Hx as <-.
           rewrite Ha in Hv. injection Hv as <-. reflexivity.
        -- simpl in Hx. simpl nth_error.
           replace (a + S k) with (S a + k) in * by lia. now apply Hrows.
    + cbn [required bind fst snd length].
      assert (Hge : length eigenvectors <= a) by (now apply nth_error_None).
      split; [lia|]. split.
      * split; [discriminate|]. intros [H|H]; [discriminate|lia].
      * intros k x' v' _ Hv. exfalso.
        assert (a + k < length eigenvectors)
          by (apply nth_error_Some; rewrite Hv; discriminate). lia.
Qed.

End TableFacts.

(** X4. For a non-empty basket of which every asset has a price object,
    displayStockPrices fills the table with one row for each of the last
    five dates of the first asset (all of them when there are fewer), in
    their order.  A row is the date followed by one cell for each asset:
    its price at that date to two digits, or N/A when it has none. *)
Theorem price_table_rows (F : Type) (toFixed : F -> nat -> string)
  (toLocaleDateString : string -> string) (stocks : list string)
  (pricesData : Obj.t (Obj.t F)) :
  stocks <> [] ->
  (forall s, In s stocks -> Obj.get s pricesData <> None) ->
  let dates := datesOf stocks pricesData in
  exists rows,
    displayStockPrices toFixed toLocaleDateString stocks pricesData = (rows, Normal tt) /\
    length rows = Nat.min 5 (length dates) /\
    forall k, k < length rows ->
      let date := nth (length dates - length rows + k) dates ""%string in
      nth k rows [] =
      toLocaleDateString date
      :: map (fun s => priceCell toFixed (Obj.get date (seriesOf pricesData s))) stocks.
Proof.
  intros Hne Hall dates.
  assert (H0 : In (nth 0 stocks "undefined"%string) stocks).
  { destruct stocks; [contradiction|now left]. }
  destruct (Obj.get (nth 0 stocks "undefined"%string) pricesData) as [first|] eqn:Hfirst;
    [|now apply Hall in H0].
  eexists. split; [apply (@displayStockPrices_normal F toFixed toLocaleDateString stocks pricesData first Hfirst); now right|].
  fold dates. rewrite length_map, lastFive_length. split; [reflexivity|].
  intros k Hk date.
  set (g := fun date => toLocaleDateString date :: _).
  rewrite nth_indep with (d' := g ""%string)
    by (now rewrite length_map, lastFive_length).
  rewrite (map_nth g), lastFive_nth. reflexivity.
Qed.

Lemma price_table_rows_witness :
  let dates := datesOf stocks misalignedTable in
  exists rows,
    displayStockPrices (fun (x : float) (_ : nat) => "?"%string) (fun d => d)
                       stocks misalignedTable = (rows, Normal tt) /\
    length rows = Nat.min 5 (length dates) /\
    forall k, k < length rows ->
      let date := nth (length dates - length rows + k) dates ""%string in
      nth k rows [] =
      date :: map (fun s => priceCell (fun (x : float) (_ : nat) => "?"%string)
                                      (Obj.get date (seriesOf misalignedTable s))) stocks.
Proof.
  apply (@price_table_rows float (fun (x : float) (_ : nat) => "?"%string) (fun d => d)
           stocks misalignedTable).
  - discriminate.
  - intros s Hs. simpl in Hs.
    destruct Hs as [<-|[<-|[<-|[<-|[<-|[]]]]]]; simpl; discriminate.
Defined.

(** X5. displayStockPrices never leaves a partly filled price table: when
    it throws, the table body is empty. *)
Theorem price_table_never_partial (F : Type) (toFixed : F -> nat -> string)
  (toLocaleDateString : string -> string) (stocks : list string)
  (pricesData : Obj.t (Obj.t F)) (e : JsError) :
  snd (displayStockPrices toFixed toLocaleDateString stocks pricesData) = Throw e ->
  fst (displayStockPrices toFixed toLocaleDateString stocks pricesData) = [].
Proof.
  unfold displayStockPrices.
  destruct (Obj.get (nth 0 stocks "undefined"%string) pricesData) as [first|];
    [|reflexivity].
  destruct (lastFive (Obj.keys first)) as [|date rest]; [discriminate|].
  cbn [appendRows].
  destruct (mapM _ stocks) as [cells|e'] eqn:Hrow; cbn [bind]; [|reflexivity].
  intros H. exfalso.
  pose proof (priceRow_normal_inv _ _ _ _ Hrow) as Hall.
  rewrite appendRows_normal with
    (g := fun date =>
            toLocaleDateString date
            :: map (fun s => priceCell toFixed (Obj.get date (seriesOf pricesData s))) stocks)
    in H.
  - discriminate H.
  - intros d _. now rewrite priceRow_normal.
Qed.

Lemma price_table_never_partial_witness :
  fst (displayStockPrices (fun (x : float) (_ : nat) => "?"%string) (fun d => d)
                          stocks [("RELIANCE.NS"%string, [("d1"%string, 1%float)])]) = [].
Proof.
  apply (@price_table_never_partial float _ _ _ _ TypeError). reflexivity.
Defined.

(** X6. displayEigenData appends a row for each eigenvalue that has an
    eigenvector, in order, up to the first that has none, where it throws
    TypeError and leaves the rows before in the table; it returns normally
    exactly when there are at least as many eigenvectors as eigenvalues.
    Row [k] is labelled PC(k+1), holds eigenvalue [k] to six digits and the
    components of eigenvector [k] to four, highlighted in the first row
    only. *)
Theorem eigen_table_rows (F : Type) (toFixed : F -> nat -> string)
  (eigenvalues : list F) (eigenvectors : list (list F)) :
  let res := displayEigenData toFixed eigenvalues eigenvectors in
  length (fst res) = Nat.min (length eigenvalues) (length eigenvectors) /\
  (snd res = Normal tt <-> length eigenvalues <= length eigenvectors) /\
  (snd res <> Normal tt -> snd res = Throw TypeError) /\
  (forall k x v,
      nth_error eigenvalues k = Some x -> nth_error eigenvectors k = Some v ->
      nth_error (fst res) k =
      Some {| component := componentLabel k;
              eigenvalueText := toFixed x 6;
              loadings := map (fun value => (toFixed value 4, Nat.eqb k 0)) v |}).
Proof.
  intros res.
  destruct (displayEigenData_from toFixed eigenvectors eigenvalues 0) as (Hlen & Hc & Hrows).
  fold (displayEigenData toFixed eigenvalues eigenvectors) in Hlen, Hc, Hrows.
  fold res in Hlen, Hc, Hrows.
  split; [rewrite Hlen; f_equal; lia|]. split; [|split].
  - rewrite Hc. simpl. lia.
  - intros Hn. apply throws_TypeError. intros []. exact Hn.
  - exact Hrows.
Qed.

(** ** Displaying the result of an analysis *)

Section DisplayFacts.
Context {F : Type} {Num : JSNumber F}.

Lemma findMaxIndex_bound (arr : list F) :
  arr <> [] -> findMaxIndex arr < length arr.
Proof.
  intros Hne. unfold findMaxIndex.
  assert (H : forall (l : list F) a m,
             m < length arr -> a + length l <= length arr ->
             fold_left
               (fun maxIndex (ix : nat * F) =>
                  if gtb (snd ix) (at_ arr maxIndex) then fst ix else maxIndex)
               (combine (seq a (length l)) l) m < length arr).
  { induction l as [|x t IH]; intros a m Hm Ha; simpl in *; [assumption|].
    apply IH; [|lia]. destruct (gtb x (at_ arr m)); lia. }
  apply H; [|lia]. destruct arr; [contradiction|simpl; lia].
Qed.

Lemma jacobiFinal_basis_square (M : MathLib F) (matrix : list (list F)) :
  square (length matrix) (basis (jacobiFinal M matrix)).
Proof.
  unfold jacobiFinal.
  apply jacobiLoop_invariant with (P := fun st => square (length matrix) (basis st)).
  - intros st Hs _. now apply rotate_basis_square.
  - apply identityMatrix_square.
Qed.

Lemma jacobiMethod_vector_length (M : MathLib F) (matrix : list (list F)) (v : list F) :
  In v (vectors (jacobiMethod M matrix)) -> length v = length matrix.
Proof.
  unfold jacobiMethod, readOut. cbn [vectors]. intros Hin.
  apply in_map_iff in Hin as (i & <- & _). unfold column. rewrite length_map.
  apply (jacobiFinal_basis_square M matrix).
Qed.

End DisplayFacts.

Lemma displayResults_returns (F : Type) (Num : JSNumber F) (M : MathLib F)
  (toFixed : F -> nat -> string) (toLocaleDateString : string -> string)
  (stocks : list string) (stockData : Obj.t (Obj.t F)) (r : Analysis) (page : Page) :
  performAnalysis M stocks stockData = Normal r ->
  exists page',
    displayResults toFixed toLocaleDateString stocks r page = (page', Normal tt) /\
    resultsHidden page' = false /\
    (exists k, k < length stocks /\
               mainTrendStockText page' = Some (nth k stocks ""%string)) /\
    length (pricesTable page') = Nat.min 5 (length (datesOf stocks stockData)) /\
    length (eigenTable page') = length stocks /\
    spinnerHidden page' = spinnerHidden page /\
    alerts page' = alerts page.
Proof.
  intros H.
  destruct (performAnalysis_normal_inv _ _ _ H) as (Hne & first & Hfirst & Hcases).
  destruct (@performAnalysis_structure F Num M stocks stockData first Hne Hfirst Hcases)
    as (r' & cov & Hr' & Hdata & _ & _ & Hsq & _ & Hval & Hvec & Hint).
  rewrite H in Hr'. injection Hr' as <-.
  assert (Hsq' : square (length cov) cov)
    by (destruct Hsq as [Hl Hrows]; rewrite Hl; now split).
  destruct (jacobiMethod_lengths M Hsq') as [Hlv Hlw].
  assert (Hn : length cov = length stocks) by apply Hsq.
  unfold displayResults. rewrite Hdata.
  rewrite (@displayStockPrices_normal F toFixed toLocaleDateString stocks stockData first
             Hfirst Hcases).
  destruct (displayEigenData_from toFixed (res_eigenvectors r) (res_eigenvalues r) 0)
    as (Hlen & Hc & _).
  fold (displayEigenData toFixed (res_eigenvalues r) (res_eigenvectors r)) in Hlen, Hc.
  destruct (displayEigenData toFixed (res_eigenvalues r) (res_eigenvectors r))
    as [eigen c] eqn:He.
  cbn [fst snd] in Hlen, Hc.
  assert (Hcn : c = Normal tt).
  { apply Hc. right. rewrite Hval, Hvec, Hlv, Hlw. simpl. lia. }
  subst c. eexists. split; [reflexivity|].
  cbn [resultsHidden mainTrendStockText pricesTable eigenTable spinnerHidden alerts].
  split; [reflexivity|]. split; [|split; [|split; [|split; reflexivity]]].
  - unfold interpret in Hint.
    destruct (res_eigenvectors r) as [|v0 rest] eqn:Ev; [discriminate|].
    cbn [nth_error required bind] in Hint. injection Hint as Hs.
    rewrite <- Hs. cbn [mainTrendStock].
    assert (Hv0 : length v0 = length stocks).
    { rewrite <- Hn. apply (@jacobiMethod_vector_length F Num M cov).
      rewrite <- Hvec. now left. }
    assert (Hb : findMaxIndex v0 < length v0).
    { apply findMaxIndex_bound. intros ->. simpl in Hv0.
      destruct stocks; [contradiction|discriminate]. }
    exists (findMaxIndex v0). split; [lia|].
    apply nth_error_nth'. lia.
  - now rewrite length_map, lastFive_length.
  - rewrite Hlen, Hval, Hvec, Hlv, Hlw, Hn. lia.
Qed.


(** X7. Displaying the result of a call of performAnalysis that returned
    never throws: both tables are filled (one price row for each of the last
    five dates, one eigen row for each asset), the trend element names an
    asset of the basket, and the results section is shown; the spinner and
    the alerts are not touched. *)
Theorem display_after_analysis (F : Type) (Num : JSNumber F) (M : MathLib F)
  (toFixed : F -> nat -> string) (toLocaleDateString : string -> string)
  (stocks : list string) (stockData : Obj.t (Obj.t F)) (r : Analysis) (page : Page) :
  performAnalysis M stocks stockData = Normal r ->
  exists page',
    displayResults toFixed toLocaleDateString stocks r page = (page', Normal tt) /\
    resultsHidden page' = false /\
    (exists k, k < length stocks /\
               mainTrendStockText page' = Some (nth k stocks ""%string)) /\
    length (pricesTable page') = Nat.min 5 (length (datesOf stocks stockData)) /\
    length (eigenTable page') = length stocks /\
    spinnerHidden page' = spinnerHidden page /\
    alerts page' = alerts page.
Proof. apply displayResults_returns. Qed.

Lemma display_after_analysis_witness :
  exists r page',
    performAnalysis RealMath stocks misalignedRealTable = Normal r /\
    displayResults (fun (x : R) (_ : nat) => "?"%string) (fun d => d) stocks r
      {| mainTrendStockText := None; varianceExplainedText := ""; totalVarianceText := "";
         pricesTable := []; eigenTable := []; resultsHidden := true;
         spinnerHidden := false; alerts := [] |} = (page', Normal tt) /\
    resultsHidden page' = false /\
    (exists k, k < length stocks /\
               mainTrendStockText page' = Some (nth k stocks ""%string)) /\
    length (pricesTable page') = Nat.min 5 (length (datesOf stocks misalignedRealTable)) /\
    length (eigenTable page') = length stocks /\
    spinnerHidden page' = false /\
    alerts page' = [].
Proof.
  destruct (@performAnalysis_normal R RealNumber RealMath stocks misalignedRealTable)
    as (r & Hr & _).
  - discriminate.
  - intros s Hs. simpl in Hs.
    destruct Hs as [<-|[<-|[<-|[<-|[<-|[]]]]]]; simpl; discriminate.
  - exists r.
    destruct (@display_after_analysis R RealNumber RealMath
                (fun (x : R) (_ : nat) => "?"%string) (fun d => d)
                stocks misalignedRealTable r
                {| mainTrendStockText := None; varianceExplainedText := "";
                   totalVarianceText := ""; pricesTable := []; eigenTable := [];
                   resultsHidden := true; spinnerHidden := false; alerts := [] |} Hr)
      as (page' & H).
    exists page'. split; [exact Hr|exact H].
Defined.

(** ** The click handler *)

Lemma leb_nan (x : float) :
  PrimFloat.leb x PrimFloat.nan = false /\ PrimFloat.leb PrimFloat.nan x = false.
Proof.
  rewrite !leb_spec. unfold SFleb, SFcompare.
  replace (Prim2SF PrimFloat.nan) with S754_nan by reflexivity.
  destruct (Prim2SF x); split; reflexivity.
Qed.

Section HandlerFacts.
Variable toFixed : float -> nat -> string.
Variable toLocaleDateString : string -> string.
Variable timeValue : string -> float.
Variable fetched : string -> string -> Obj.t (Obj.t float) + string.
Variable M : MathLib float.

(** What a run that passed both checks of lines 31-39 leaves. *)
Lemma analyzeStocks_validated (stocks : list string) (startDate endDate : string)
  (page : Page) :
  startDate <> ""%string -> endDate <> ""%string ->
  PrimFloat.leb (timeValue endDate) (timeValue startDate) = false ->
  let page' :=
    analyzeStocks toFixed toLocaleDateString timeValue fetched M
                  stocks startDate endDate page in
  spinnerHidden page' = true /\
  ((exists stockData r,
       fetched startDate endDate = inl stockData /\
       performAnalysis M stocks stockData = Normal r /\
       page' = showLoading false
                 (fst (displayResults toFixed toLocaleDateString stocks r
                         (showLoading true page))) /\
       resultsHidden page' = false /\
       length (pricesTable page') = Nat.min 5 (length (datesOf stocks stockData)) /\
       length (eigenTable page') = length stocks /\
       alerts page' = alerts page) \/
   (exists cause,
       (match cause with
        | FetchFailed message => fetched startDate endDate = inr message
        | Thrown e => exists stockData, fetched startDate endDate = inl stockData /\
                                        performAnalysis M stocks stockData = Throw e
        end) /\
       resultsHidden page' = true /\
       alerts page' = alerts page ++ [AnalysisFailed cause] /\
       pricesTable page' = pricesTable page /\
       eigenTable page' = eigenTable page /\
       mainTrendStockText page' = mainTrendStockText page)).
Proof.
  intros Hs He Hle page'. subst page'. unfold analyzeStocks.
  apply String.eqb_neq in Hs, He. rewrite Hs, He, Hle. cbn [orb].
  destruct (fetched startDate endDate) as [stockData|message] eqn:Hf.
  - destruct (performAnalysis M stocks stockData) as [r|e] eqn:Hp.
    + destruct (@displayResults_returns float FloatNumber M toFixed toLocaleDateString
                  stocks stockData r (showLoading true page) Hp)
        as (p' & Hd & Hres & _ & Hpr & Hei & Hsp & Hal).
      rewrite Hd. cbn [spinnerHidden showLoading negb].
      split; [reflexivity|]. left. exists stockData, r.
      split; [reflexivity|]. split; [exact Hp|].
      cbn [fst resultsHidden pricesTable eigenTable alerts].
      split; [rewrite ?Hd; reflexivity|]. split; [exact Hres|]. split; [exact Hpr|].
      split; [exact Hei|exact Hal].
    + split; [reflexivity|]. right. exists (Thrown e).
      split; [exists stockData; auto|]. cbn. auto.
  - split; [reflexivity|]. right. exists (FetchFailed message).
    split; [reflexivity|]. cbn. auto.
Qed.

End HandlerFacts.

(** X8. A click with two non-empty dates, the start before the end, always
    ends with the spinner hidden.  Either the fetch gave a table on which
    performAnalysis returned: then the results section is shown with both
    tables filled and no alert is raised.  Or the fetch failed or
    performAnalysis threw: then the results section stays hidden, exactly
    one alert reports that failure, and the tables and the trend element
    keep what they held. *)
Theorem analyze_outcome (toFixed : float -> nat -> string)
  (toLocaleDateString : string -> string) (timeValue : string -> float)
  (fetched : string -> string -> Obj.t (Obj.t float) + string) (M : MathLib float)
  (stocks : list string) (startDate endDate : string) (page : Page) :
  startDate <> ""%string -> endDate <> ""%string ->
  PrimFloat.leb (timeValue endDate) (timeValue startDate) = false ->
  let page' :=
    analyzeStocks toFixed toLocaleDateString timeValue fetched M
                  stocks startDate endDate page in
  spinnerHidden page' = true /\
  ((exists stockData r,
       fetched startDate endDate = inl stockData /\
       performAnalysis M stocks stockData = Normal r /\
       page' = showLoading false
                 (fst (displayResults toFixed toLocaleDateString stocks r
                         (showLoading true page))) /\
       resultsHidden page' = false /\
       length (pricesTable page') = Nat.min 5 (length (datesOf stocks stockData)) /\
       length (eigenTable page') = length stocks /\
       alerts page' = alerts page) \/
   (exists cause,
       (match cause with
        | FetchFailed message => fetched startDate endDate = inr message
        | Thrown e => exists stockData, fetched startDate endDate = inl stockData /\
                                        performAnalysis M stocks stockData = Throw e
        end) /\
       resultsHidden page' = true /\
       alerts page' = alerts page ++ [AnalysisFailed cause] /\
       pricesTable page' = pricesTable page /\
       eigenTable page' = eigenTable page /\
       mainTrendStockText page' = mainTrendStockText page)).
Proof. apply analyzeStocks_validated. Qed.

Lemma analyze_outcome_witness :
  "2024-01-01"%string <> ""%string /\ "2024-02-01"%string <> ""%string /\
  PrimFloat.leb 2%float 1%float = false /\
  forall (M : MathLib float) (page : Page),
    let page' :=
      analyzeStocks (fun _ _ => "?"%string) (fun d => d)
        (fun s => if String.eqb s "2024-01-01" then 1%float else 2%float)
        (fun _ _ => inl constantTable) M stocks "2024-01-01" "2024-02-01" page in
    spinnerHidden page' = true.
Proof.
  split; [discriminate|]. split; [discriminate|]. split; [reflexivity|].
  intros M page.
  apply (@analyze_outcome (fun _ _ => "?"%string) (fun d => d)
           (fun s => if String.eqb s "2024-01-01" then 1%float else 2%float)
           (fun _ _ => inl constantTable) M stocks "2024-01-01" "2024-02-01" page);
    [discriminate|discriminate|reflexivity].
Defined.

(** X9. The check of line 36 does not reject a date that does not parse:
    when both strings are non-empty and the time value of either is NaN,
    the handler goes on to the fetch, shows and hides the spinner, and
    raises no alert but that of a failed analysis. *)
Theorem unparseable_dates_pass (toFixed : float -> nat -> string)
  (toLocaleDateString : string -> string) (timeValue : string -> float)
  (fetched : string -> string -> Obj.t (Obj.t float) + string) (M : MathLib float)
  (stocks : list string) (startDate endDate : string) (page : Page) :
  startDate <> ""%string -> endDate <> ""%string ->
  timeValue startDate = PrimFloat.nan \/ timeValue endDate = PrimFloat.nan ->
  let page' :=
    analyzeStocks toFixed toLocaleDateString timeValue fetched M
                  stocks startDate endDate page in
  spinnerHidden page' = true /\
  (alerts page' = alerts page \/
   exists cause, alerts page' = alerts page ++ [AnalysisFailed cause]) /\
  (forall message, fetched startDate endDate = inr message ->
                   alerts page' = alerts page ++ [AnalysisFailed (FetchFailed message)]).
Proof.
  intros Hs He Hnan page'.
  assert (Hle : PrimFloat.leb (timeValue endDate) (timeValue startDate) = false).
  { destruct Hnan as [-> | ->]; apply leb_nan. }
  destruct (@analyzeStocks_validated toFixed toLocaleDateString timeValue fetched M
              stocks startDate endDate page Hs He Hle) as [Hsp Hcases].
  fold page' in Hsp, Hcases.
  split; [exact Hsp|]. split.
  - destruct Hcases as [(sd & r & _ & _ & _ & _ & _ & _ & Hal)|(cause & _ & _ & Hal & _)];
      [now left|right; now exists cause].
  - intros message Hf.
    destruct Hcases as [(sd & r & Hf' & _)|(cause & Hc & _ & Hal & _)].
    + rewrite Hf in Hf'. discriminate.
    + destruct cause as [message'|e].
      * rewrite Hf in Hc. injection Hc as ->. exact Hal.
      * destruct Hc as (sd & Hf' & _). rewrite Hf in Hf'. discriminate.
Qed.

Lemma unparseable_dates_pass_witness :
  "soon"%string <> ""%string /\ "2024-02-01"%string <> ""%string /\
  forall (M : MathLib float) (page : Page),
    let page' :=
      analyzeStocks (fun _ _ => "?"%string) (fun d => d)
        (fun s => if String.eqb s "soon" then PrimFloat.nan else 2%float)
        (fun _ _ => inr "Failed to fetch stock data"%string) M stocks
        "soon" "2024-02-01" page in
    spinnerHidden page' = true /\
    (alerts page' = alerts page \/
     exists cause, alerts page' = alerts page ++ [AnalysisFailed cause]) /\
    (forall message,
        inr "Failed to fetch stock data"%string
        = (inr message : Obj.t (Obj.t float) + string) ->
        alerts page' = alerts page ++ [AnalysisFailed (FetchFailed message)]).
Proof.
  split; [discriminate|]. split; [discriminate|].
  intros M page.
  apply (@unparseable_dates_pass (fun _ _ => "?"%string) (fun d => d)
           (fun s => if String.eqb s "soon" then PrimFloat.nan else 2%float)
           (fun _ _ => inr "Failed to fetch stock data"%string) M stocks
           "soon" "2024-02-01" page);
    [discriminate|discriminate|left; reflexivity].
Defined.

(** ** When the engine throws *)

(** X10. calculateCovarianceMatrix returns a matrix exactly when every
    asset of the basket has a series in [returns]; otherwise it throws
    TypeError. *)
Theorem covariance_returns_iff (F : Type) (Num : JSNumber F) (stocks : list string)
  (returns : Obj.t (list F)) :
  ((exists m, calculateCovarianceMatrix stocks returns = Normal m) <->
   (forall s, In s stocks -> Obj.get s returns <> None)) /\
  ((exists s, In s stocks /\ Obj.get s returns = None) ->
   calculateCovarianceMatrix stocks returns = Throw TypeError).
Proof.
  assert (Hinv : forall m, calculateCovarianceMatrix stocks returns = Normal m ->
                           forall s, In s stocks -> Obj.get s returns <> None).
  { intros m Hm s Hs Hnone.
    destruct (In_nth _ _ ""%string Hs) as (k & Hk & Hnth).
    unfold calculateCovarianceMatrix in Hm.
    assert (Hin : In k (seq 0 (length stocks))) by (apply in_seq; lia).
    destruct (foldM_normal_inv _ _ _ Hm k Hin) as (s0 & s1 & Hrow).
    destruct (foldM_normal_inv _ _ _ Hrow k Hin) as (s2 & s3 & Hcell).
    rewrite Hnth, Hnone in Hcell. discriminate. }
  split; [split|].
  - intros [m Hm]. now apply Hinv with (m := m).
  - intros Hall.
    destruct (@covariance_cells F Num stocks returns
                (fun k => match Obj.get (nth k stocks ""%string) returns with
                          | Some r => r
                          | None => []
                          end)) as (m & Hm & _).
    + intros k Hk. specialize (Hall _ (nth_In stocks ""%string Hk)).
      destruct (Obj.get (nth k stocks ""%string) returns); [reflexivity|contradiction].
    + now exists m.
  - intros (s & Hs & Hnone). apply throws_TypeError.
    intros m Hm. exact (Hinv m Hm s Hs Hnone).
Qed.

(** X11. performAnalysis returns a result exactly when the basket is not
    empty, its first asset has a price object, and either that object has no
    date or every asset of the basket has a price object; in every other
    case it throws TypeError.  So with an empty date range assets missing
    from the table go unnoticed. *)
Theorem analysis_returns_iff (F : Type) (Num : JSNumber F) (M : MathLib F)
  (stocks : list string) (stockData : Obj.t (Obj.t F)) :
  let accepted :=
    stocks <> [] /\
    exists first,
      Obj.get (nth 0 stocks "undefined"%string) stockData = Some first /\
      (Obj.keys first = [] \/ forall s, In s stocks -> Obj.get s stockData <> None) in
  ((exists r, performAnalysis M stocks stockData = Normal r) <-> accepted) /\
  (~ accepted -> performAnalysis M stocks stockData = Throw TypeError).
Proof.
  intros accepted.
  assert (Hinv : forall r, performAnalysis M stocks stockData = Normal r -> accepted)
    by (intros r Hr; now apply performAnalysis_normal_inv in Hr).
  split; [split|].
  - intros [r Hr]. now apply Hinv with (r := r).
  - intros (Hne & first & Hfirst & Hcases).
    destruct (@performAnalysis_structure F Num M stocks stockData first Hne Hfirst Hcases)
      as (r & cov & Hr & _).
    now exists r.
  - intros Hn. apply throws_TypeError. intros r Hr. apply Hn. now apply Hinv with (r := r).
Qed.

(** ** Cumulative returns *)

Lemma cumulativeReturnsOf_map {F : Type} {Num : JSNumber F} (ps : list (option F)) :
  cumulativeReturnsOf ps =
  fromZ 1 :: map (fun i => fromZ 1 :+: ((priceAt ps i :-: priceAt ps 0) :/: priceAt ps 0))
                 (seq 1 (length ps - 1)).
Proof. unfold cumulativeReturnsOf. now rewrite fold_left_push. Qed.

(** X12. The cumulative returns createReturnsChart draws for a price array
    start at 1 and have one point for each price, and one point even when
    there is no price.  In exact arithmetic, for prices that are all
    present with a first price that is not zero, point [i] is
    [p[i] / p[0]]. *)
Theorem cumulative_returns_points :
  (forall (F : Type) (Num : JSNumber F) (ps : list (option F)),
      length (cumulativeReturnsOf ps) = Nat.max 1 (length ps) /\
      nth_error (cumulativeReturnsOf ps) 0 = Some (fromZ 1)) /\
  (forall (prices : list R) (i : nat),
      i < length prices -> at_ prices 0 <> 0%R ->
      at_ (cumulativeReturnsOf (map Some prices)) i = (at_ prices i / at_ prices 0)%R).
Proof.
  split.
  - intros F Num ps. rewrite cumulativeReturnsOf_map. cbn [length nth_error].
    rewrite length_map, length_seq. split; [lia|reflexivity].
  - intros prices i Hi H0. rewrite cumulativeReturnsOf_map, length_map.
    destruct i as [|i].
    + unfold at_ at 1. cbn [nth fromZ RealNumber].
      destruct prices as [|p t]; [simpl in Hi; lia|].
      unfold at_ in *. simpl in *. field. exact H0.
    + unfold at_ at 1. cbn [nth].
      rewrite nth_map_seq by lia.
      rewrite !priceAt_Some. replace (1 + i) with (S i) by lia.
      cbn [add sub mul div fromZ RealNumber]. field. exact H0.
Qed.

Lemma cumulative_returns_points_witness :
  1 < length [100; 110; 99]%R /\ at_ [100; 110; 99]%R 0 <> 0%R /\
  at_ (cumulativeReturnsOf (map Some [100; 110; 99]%R)) 1
  = (at_ [100; 110; 99]%R 1 / at_ [100; 110; 99]%R 0)%R.
Proof.
  assert (H0 : at_ [100; 110; 99]%R 0 <> 0%R) by (unfold at_; simpl; lra).
  split; [simpl; lia|]. split; [exact H0|].
  apply (proj2 cumulative_returns_points [100; 110; 99]%R 1); [simpl; lia|exact H0].
Defined.

(** ** The rotation is a similarity *)

Local Open Scope R_scope.

Lemma rotateValues_body (n p q : nat) (c s : R) (W : list (list R)) :
  rotateValues n p q c s W =
  let L := fold_left (rotateOffDiagonal p q c s) (seq 0 n) W in
  setCell
    (setCell
       (setCell
          (setCell L p p
             (c * c * cell L p p + s * s * cell L q q - 2 * c * s * cell L p q))
          q q
          (s * s * cell L p p + c * c * cell L q q + 2 * c * s * cell L p q))
       q p 0)
    p q 0.
Proof. reflexivity. Qed.

Lemma rotateOffDiagonal_square (n p q : nat) (c s : R) (m : list (list R)) (r : nat) :
  square n m -> square n (rotateOffDiagonal p q c s m r).
Proof.
  intros H. unfold rotateOffDiagonal.
  destruct (negb (Nat.eqb r p) && negb (Nat.eqb r q));
    [repeat apply square_setCell|]; assumption.
Qed.

Lemma rotateOffDiagonal_unwritten (p q : nat) (c s : R) (m : list (list R)) (r x y : nat) :
  ~ writtenBy p q r x y -> cell (rotateOffDiagonal p q c s m r) x y = cell m x y.
Proof.
  intros Hn. unfold rotateOffDiagonal.
  destruct (Nat.eqb_spec r p) as [Hrp|Hrp]; [reflexivity|].
  destruct (Nat.eqb_spec r q) as [Hrq|Hrq]; [reflexivity|]. cbn [negb andb].
  unfold writtenBy in Hn.
  rewrite !cell_setCell_neq; [reflexivity| | | |];
    intros Heq; injection Heq as <- <-; apply Hn; auto 10.
Qed.

Lemma rotateOffDiagonal_written (n p q : nat) (c s : R) (m : list (list R)) (r : nat) :
  square n m -> (p < n)%nat -> (q < n)%nat -> (r < n)%nat ->
  p <> q -> r <> p -> r <> q ->
  cell (rotateOffDiagonal p q c s m r) p r = c * cell m p r - s * cell m q r /\
  cell (rotateOffDiagonal p q c s m r) r p = c * cell m p r - s * cell m q r /\
  cell (rotateOffDiagonal p q c s m r) q r = s * cell m p r + c * cell m q r /\
  cell (rotateOffDiagonal p q c s m r) r q = s * cell m p r + c * cell m q r.
Proof.
  intros Hsq Hp Hq Hr Hpq Hrp Hrq. unfold rotateOffDiagonal.
  destruct (Nat.eqb_spec r p) as [|_]; [contradiction|].
  destruct (Nat.eqb_spec r q) as [|_]; [contradiction|]. cbn [negb andb]. real.
  repeat (rewrite cell_setCell with (n := n);
          [|repeat apply square_setCell; assumption|lia|lia]).
  rewrite !Nat.eqb_refl. cbn [andb].
  repeat match goal with
         | |- context [Nat.eqb ?a ?b] => destruct (Nat.eqb_spec a b); try lia
         end; cbn [andb]; repeat split; reflexivity.
Qed.

Lemma offDiagonalLoop_square (n p q : nat) (c s : R) (rs : list nat) :
  forall m, square n m -> square n (fold_left (rotateOffDiagonal p q c s) rs m).
Proof.
  induction rs as [|a t IH]; intros m H; simpl; [assumption|].
  apply IH, rotateOffDiagonal_square, H.
Qed.

Lemma offDiagonalLoop_unwritten (p q : nat) (c s : R) (rs : list nat) (x y : nat) :
  (forall r, In r rs -> ~ writtenBy p q r x y) ->
  forall m, cell (fold_left (rotateOffDiagonal p q c s) rs m) x y = cell m x y.
Proof.
  induction rs as [|a t IH]; intros Hn m; simpl; [reflexivity|].
  rewrite IH by (intros; apply Hn; now right).
  apply rotateOffDiagonal_unwritten, Hn. now left.
Qed.

(** The four cells pass [r] writes hold, after the whole loop, the rotation
    of the values rows [p] and [q] had in column [r] before it. *)
Lemma offDiagonalLoop_written (n p q : nat) (c s : R) (W : list (list R)) (r : nat) :
  square n W -> (p < n)%nat -> (q < n)%nat -> (r < n)%nat ->
  p <> q -> r <> p -> r <> q ->
  let L := fold_left (rotateOffDiagonal p q c s) (seq 0 n) W in
  cell L p r = c * cell W p r - s * cell W q r /\
  cell L r p = c * cell W p r - s * cell W q r /\
  cell L q r = s * cell W p r + c * cell W q r /\
  cell L r q = s * cell W p r + c * cell W q r.
Proof.
  intros Hsq Hp Hq Hr Hpq Hrp Hrq L.
  assert (Hin : In r (seq 0 n)) by (apply in_seq; lia).
  destruct (in_split _ _ Hin) as (l1 & l2 & Hsplit).
  assert (Hnd : NoDup (l1 ++ r :: l2)) by (rewrite <- Hsplit; apply seq_NoDup).
  assert (Hr1 : ~ In r l1)
    by (intro; apply NoDup_remove_2 in Hnd; apply Hnd, in_or_app; now left).
  assert (Hr2 : ~ In r l2)
    by (intro; apply NoDup_remove_2 in Hnd; apply Hnd, in_or_app; now right).
  assert (Hother : forall l x y,
             ~ In r l -> (x = r \/ y = r) ->
             forall r', In r' l -> ~ writtenBy p q r' x y).
  { intros l x y Hl Hxy r' Hr' (H1 & H2 & H3).
    assert (r' <> r) by (intros ->; contradiction). lia. }
  subst L. rewrite Hsplit, fold_left_app. cbn [fold_left].
  set (m1 := fold_left (rotateOffDiagonal p q c s) l1 W).
  assert (Hm1 : square n m1) by (now apply offDiagonalLoop_square).
  destruct (@rotateOffDiagonal_written n p q c s m1 r) as (H1 & H2 & H3 & H4); auto.
  assert (Epr : cell m1 p r = cell W p r)
    by (apply offDiagonalLoop_unwritten, Hother; auto).
  assert (Eqr : cell m1 q r = cell W q r)
    by (apply offDiagonalLoop_unwritten, Hother; auto).
  rewrite !(@offDiagonalLoop_unwritten p q c s l2) by (apply Hother; auto).
  rewrite H1, H2, H3, H4, Epr, Eqr. repeat split; reflexivity.
Qed.

Lemma rotateValues_cell (n p q : nat) (c s : R) (W : list (list R)) (i j : nat) :
  square n W -> (p < n)%nat -> (q < n)%nat -> p <> q -> (i < n)%nat -> (j < n)%nat ->
  cell (rotateValues n p q c s W) i j = rotatedValue p q c s W i j.
Proof.
  intros Hsq Hp Hq Hpq Hi Hj. rewrite rotateValues_body. cbv zeta.
  set (L := fold_left (rotateOffDiagonal p q c s) (seq 0 n) W).
  assert (HL : square n L) by (now apply offDiagonalLoop_square).
  assert (Hkeep : forall x y, ((x = p \/ x = q) /\ (y = p \/ y = q))
                              \/ (x <> p /\ x <> q /\ y <> p /\ y <> q) ->
                              cell L x y = cell W x y).
  { intros x y Hxy. apply offDiagonalLoop_unwritten.
    intros r _ (H1 & H2 & H3). lia. }
  repeat (rewrite cell_setCell with (n := n);
          [|repeat apply square_setCell; assumption|lia|lia]).
  rewrite !(Hkeep p p), !(Hkeep q q), !(Hkeep p q) by lia.
  unfold rotatedValue.
  destruct (Nat.eqb_spec i p) as [Hip|Hip]; destruct (Nat.eqb_spec i q) as [Hiq|Hiq];
    destruct (Nat.eqb_spec j p) as [Hjp|Hjp]; destruct (Nat.eqb_spec j q) as [Hjq|Hjq];
    try lia; cbn [andb]; try reflexivity.
  - destruct (@offDiagonalLoop_written n p q c s W j) as (H1 & H2 & H3 & H4); auto.
    rewrite Hip. exact H1.
  - destruct (@offDiagonalLoop_written n p q c s W j) as (H1 & H2 & H3 & H4); auto.
    rewrite Hiq. exact H3.
  - destruct (@offDiagonalLoop_written n p q c s W i) as (H1 & H2 & H3 & H4); auto.
    rewrite Hjp. exact H2.
  - destruct (@offDiagonalLoop_written n p q c s W i) as (H1 & H2 & H3 & H4); auto.
    rewrite Hjq. exact H4.
  - apply Hkeep. lia.
Qed.

Lemma bigsum_plus (f g : nat -> R) (n : nat) :
  bigsum (fun i => f i + g i) n = bigsum f n + bigsum g n.
Proof.
  induction n as [|n IH]; [unfold bigsum; simpl; lra|]. rewrite !bigsum_S, IH. lra.
Qed.

Lemma bigsum_scal (c : R) (f : nat -> R) (n : nat) :
  bigsum (fun i => c * f i) n = c * bigsum f n.
Proof.
  induction n as [|n IH]; [unfold bigsum; simpl; lra|]. rewrite !bigsum_S, IH. lra.
Qed.

Lemma bigsum_zero (n : nat) : bigsum (fun _ => 0) n = 0.
Proof. induction n as [|n IH]; [reflexivity|]. rewrite bigsum_S, IH. lra. Qed.

Lemma bigsum_pick (f : nat -> R) (i n : nat) :
  (i < n)%nat -> bigsum (fun a => delta a i * f a) n = f i.
Proof.
  intros Hi. rewrite bigsum_two_points with (p := i) (q := S n).
  - unfold delta. rewrite Nat.eqb_refl.
    destruct (Nat.ltb_spec i n), (Nat.ltb_spec (S n) n); try lia. lra.
  - intros a Ha _. unfold delta. destruct (Nat.eqb_spec a i); [contradiction|lra].
  - lia.
Qed.

Lemma bigsum_swap (G : nat -> nat -> R) (n m : nat) :
  bigsum (fun a => bigsum (fun b => G a b) m) n =
  bigsum (fun b => bigsum (fun a => G a b) n) m.
Proof.
  induction n as [|n IH].
  - unfold bigsum at 1. simpl. symmetry.
    rewrite bigsum_ext with (g := fun _ => 0); [apply bigsum_zero|reflexivity].
  - rewrite bigsum_S, IH, <- bigsum_plus.
    apply bigsum_ext. intros b _. now rewrite bigsum_S.
Qed.

Lemma bigsum_three (m f g h : nat -> R) (x y z : R) (n : nat) :
  bigsum (fun b => m b * (x * f b + y * g b + z * h b)) n =
  x * bigsum (fun b => m b * f b) n + y * bigsum (fun b => m b * g b) n
  + z * bigsum (fun b => m b * h b) n.
Proof.
  induction n as [|n IH]; [unfold bigsum; simpl; lra|]. rewrite !bigsum_S, IH. ring.
Qed.

Lemma bigsum_nine (f1 g1 h1 f2 g2 h2 : nat -> R) (x1 y1 z1 x2 y2 z2 : R) (n : nat) :
  bigsum (fun a => (x1 * f1 a + y1 * g1 a + z1 * h1 a)
                   * (x2 * f2 a + y2 * g2 a + z2 * h2 a)) n =
  x1 * x2 * bigsum (fun a => f1 a * f2 a) n + x1 * y2 * bigsum (fun a => f1 a * g2 a) n
  + x1 * z2 * bigsum (fun a => f1 a * h2 a) n
  + y1 * x2 * bigsum (fun a => g1 a * f2 a) n + y1 * y2 * bigsum (fun a => g1 a * g2 a) n
  + y1 * z2 * bigsum (fun a => g1 a * h2 a) n
  + z1 * x2 * bigsum (fun a => h1 a * f2 a) n + z1 * y2 * bigsum (fun a => h1 a * g2 a) n
  + z1 * z2 * bigsum (fun a => h1 a * h2 a) n.
Proof.
  induction n as [|n IH]; [unfold bigsum; simpl; lra|]. rewrite !bigsum_S, IH. ring.
Qed.

Lemma congruence_rows (n : nat) (A V : list (list R)) (i j : nat) :
  congruence n A V i j =
  bigsum (fun a => cell V a i * bigsum (fun b => cell A a b * cell V b j) n) n.
Proof.
  unfold congruence. apply bigsum_ext. intros a _.
  rewrite <- bigsum_scal. apply bigsum_ext. intros b _. ring.
Qed.

(** [V'^T A V'] in terms of [V^T A V], when each column [k] of [V'] is
    [X k] times column [p], plus [Y k] times column [q], plus [Z k] times
    column [k] of [V]. *)
Lemma congruence_combination (n p q : nat) (A V V' : list (list R)) (X Y Z : nat -> R)
  (i j : nat) :
  (forall a k, (a < n)%nat ->
               cell V' a k = X k * cell V a p + Y k * cell V a q + Z k * cell V a k) ->
  congruence n A V' i j =
  X i * X j * congruence n A V p p + X i * Y j * congruence n A V p q
  + X i * Z j * congruence n A V p j
  + Y i * X j * congruence n A V q p + Y i * Y j * congruence n A V q q
  + Y i * Z j * congruence n A V q j
  + Z i * X j * congruence n A V i p + Z i * Y j * congruence n A V i q
  + Z i * Z j * congruence n A V i j.
Proof.
  intros HV. rewrite !congruence_rows.
  rewrite bigsum_ext with
    (g := fun a => (X i * cell V a p + Y i * cell V a q + Z i * cell V a i)
                   * (X j * bigsum (fun b => cell A a b * cell V b p) n
                      + Y j * bigsum (fun b => cell A a b * cell V b q) n
                      + Z j * bigsum (fun b => cell A a b * cell V b j) n)).
  - apply bigsum_nine.
  - intros a Ha. rewrite HV by assumption. f_equal.
    rewrite <- bigsum_three. apply bigsum_ext. intros b Hb. now rewrite HV.
Qed.

(** The direction of the angle [atan2(y, x)]. *)
Lemma atan2_direction (y x : R) :
  Rtrigo_def.cos (Ratan2 y x) * y = Rtrigo_def.sin (Ratan2 y x) * x.
Proof.
  assert (Hat : forall t, Rtrigo_def.sin (atan t) = t * Rtrigo_def.cos (atan t)).
  { intros t. pose proof (atan_right_inv t) as Ht. unfold tan in Ht.
    assert (Hc : Rtrigo_def.cos (atan t) <> 0).
    { apply Rgt_not_eq, cos_gt_0; pose proof (atan_bound t); lra. }
    rewrite <- Ht at 2. field. exact Hc. }
  unfold Ratan2.
  destruct (Rlt_dec 0 x) as [Hx|Hx].
  - rewrite Hat. field. lra.
  - destruct (Rlt_dec x 0) as [Hx'|Hx'].
    + destruct (Rlt_dec y 0).
      * rewrite cos_minus, sin_minus, cos_PI, sin_PI, Hat. field. lra.
      * rewrite neg_cos, neg_sin, Hat. field. lra.
    + assert (x = 0) by lra. subst x.
      destruct (Rlt_dec 0 y); [rewrite cos_PI2; lra|].
      destruct (Rlt_dec y 0).
      * replace (- PI / 2) with (- (PI / 2)) by lra. rewrite cos_neg, cos_PI2. lra.
      * assert (y = 0) by lra. subst y. lra.
Qed.

(** The angle of line 182 makes the rotated entry [(p, q)] vanish, which is
    why line 204 may store 0 there. *)
Lemma jacobi_angle (wpp wqq wpq : R) :
  let theta := 1 / 2 * Ratan2 (2 * wpq) (wqq - wpp) in
  Rtrigo_def.cos theta * Rtrigo_def.sin theta * (wpp - wqq)
  + (Rtrigo_def.cos theta * Rtrigo_def.cos theta
     - Rtrigo_def.sin theta * Rtrigo_def.sin theta) * wpq = 0.
Proof.
  intros theta.
  pose proof (atan2_direction (2 * wpq) (wqq - wpp)) as H.
  replace (Ratan2 (2 * wpq) (wqq - wpp)) with (2 * theta) in H by (unfold theta; field).
  rewrite cos_2a, sin_2a in H. lra.
Qed.

Lemma rotatedCell_combination (p q : nat) (c s : R) (V : list (list R)) (a k : nat) :
  p <> q ->
  rotatedCell p q c s V a k =
  (if Nat.eqb k p then c else if Nat.eqb k q then s else 0) * cell V a p
  + (if Nat.eqb k p then - s else if Nat.eqb k q then c else 0) * cell V a q
  + (if Nat.eqb k p then 0 else if Nat.eqb k q then 0 else 1) * cell V a k.
Proof.
  intros Hpq. unfold rotatedCell.
  destruct (Nat.eqb_spec k p) as [->|Hp]; [ring|].
  destruct (Nat.eqb_spec k q) as [->|Hq]; ring.
Qed.

(** One rotation takes [W = V^T A V] to [W' = V'^T A V'], for a symmetric
    working matrix and the angle of line 182. *)
Lemma rotation_congruence (n p q : nat) (A W V : list (list R)) (i j : nat) :
  square n W -> symmetric n W -> square n V ->
  (forall a b, (a < n)%nat -> (b < n)%nat -> cell W a b = congruence n A V a b) ->
  (p < n)%nat -> (q < n)%nat -> p <> q -> (i < n)%nat -> (j < n)%nat ->
  let theta := 1 / 2 * Ratan2 (2 * cell W p q) (cell W q q - cell W p p) in
  let c := Rtrigo_def.cos theta in
  let s := Rtrigo_def.sin theta in
  cell (rotateValues n p q c s W) i j =
  congruence n A (rotateVectors n p q c s V) i j.
Proof.
  intros HW Hsym HV Hinv Hp Hq Hpq Hi Hj theta c s.
  rewrite rotateValues_cell by assumption.
  rewrite (@congruence_combination n p q A V (rotateVectors n p q c s V)
             (fun k => if Nat.eqb k p then c else if Nat.eqb k q then s else 0)
             (fun k => if Nat.eqb k p then - s else if Nat.eqb k q then c else 0)
             (fun k => if Nat.eqb k p then 0 else if Nat.eqb k q then 0 else 1)).
  2:{ intros a k Ha. rewrite rotateVectors_cell by assumption.
      now apply rotatedCell_combination. }
  rewrite <- !Hinv by assumption.
  rewrite (Hsym q p), (Hsym i p), (Hsym i q) by assumption.
  pose proof (jacobi_angle (cell W p p) (cell W q q) (cell W p q)) as H0.
  cbv zeta in H0. fold theta in H0. fold c s in H0.
  unfold rotatedValue.
  destruct (Nat.eqb_spec i p) as [Hip|Hip]; destruct (Nat.eqb_spec i q) as [Hiq|Hiq];
    destruct (Nat.eqb_spec j p) as [Hjp|Hjp]; destruct (Nat.eqb_spec j q) as [Hjq|Hjq];
    try lia; subst; try lra.
Qed.

Lemma congruence_identity (n : nat) (A : list (list R)) (i j : nat) :
  (i < n)%nat -> (j < n)%nat -> congruence n A (identityMatrix n) i j = cell A i j.
Proof.
  intros Hi Hj. rewrite congruence_rows.
  rewrite bigsum_ext with (g := fun a => delta a i * cell A a j).
  - now apply (bigsum_pick (fun a => cell A a j)).
  - intros a Ha. rewrite cell_identityMatrix by assumption.
    change (if Nat.eqb a i then fromZ 1 else fromZ 0) with (delta a i). f_equal.
    rewrite bigsum_ext with (g := fun b => delta b j * cell A a b).
    + now apply (bigsum_pick (fun b => cell A a b)).
    + intros b Hb. rewrite cell_identityMatrix by assumption.
      change (if Nat.eqb b j then fromZ 1 else fromZ 0) with (delta b j). ring.
Qed.

(** What every pass keeps, for a symmetric input [A]: the working matrix is
    symmetric and is [V^T A V] for the accumulator [V]. *)
Lemma jacobiFinal_congruent (matrix : list (list R)) :
  square (length matrix) matrix -> symmetric (length matrix) matrix ->
  square (length matrix) (work (jacobiFinal RealMath matrix)) /\
  symmetric (length matrix) (work (jacobiFinal RealMath matrix)) /\
  forall i j, (i < length matrix)%nat -> (j < length matrix)%nat ->
              cell (work (jacobiFinal RealMath matrix)) i j =
              congruence (length matrix) matrix (basis (jacobiFinal RealMath matrix)) i j.
Proof.
  intros Hsq Hsym. set (n := length matrix).
  set (P := fun st : JacobiState =>
              square n (work st) /\ symmetric n (work st) /\ square n (basis st) /\
              forall i j, (i < n)%nat -> (j < n)%nat ->
                          cell (work st) i j = congruence n matrix (basis st) i j).
  assert (H : P (jacobiFinal RealMath matrix)).
  { unfold jacobiFinal. fold n. apply jacobiLoop_invariant.
    - intros st (HW & HS & HV & Hinv) Hc.
      split; [now apply rotate_work_square|].
      split; [|split; [now apply rotate_basis_square|]].
      + unfold rotate. destruct (findPivot n (work st)) as [[mx p] q] eqn:Hf.
        destruct (pivot_found _ _ Hc Hf) as [Hpq Hq]. cbn [work].
        apply rotateValues_symmetric; auto; lia.
      + intros i j Hi Hj. unfold rotate.
        destruct (findPivot n (work st)) as [[mx p] q] eqn:Hf.
        destruct (pivot_found _ _ Hc Hf) as [Hpq Hq]. cbn [work basis].
        cbn [add sub mul div fromZ lit_half RealNumber atan2 cos sin RealMath].
        apply rotation_congruence; auto; lia.
    - unfold P. cbn [initialState work basis]. fold n.
      split; [exact Hsq|]. split; [exact Hsym|]. split; [apply identityMatrix_square|].
      intros i j Hi Hj. now rewrite congruence_identity. }
  destruct H as (H1 & H2 & _ & H4). auto.
Qed.

Lemma bilinear_columns (n : nat) (A V : list (list R)) (i j : nat) :
  length V = n -> bilinear n A (column V i) (column V j) = congruence n A V i j.
Proof.
  intros Hl. unfold bilinear, congruence, column.
  apply bigsum_ext. intros a Ha. apply bigsum_ext. intros b Hb.
  rewrite !at_map with (d := []) by lia. reflexivity.
Qed.

(** What line 215-224 read out of a state, entry by entry. *)
Lemma readOut_entries (n : nat) (st : JacobiState) (k : nat) :
  length (work st) = n -> (k < n)%nat ->
  let index := nth k (sortedIndices (diagonal (work st))) 0%nat in
  (index < n)%nat /\
  at_ (values (readOut st)) k = cell (work st) index index /\
  nth k (vectors (readOut st)) [] = column (basis st) index.
Proof.
  intros Hl Hk index.
  assert (Hev : length (diagonal (work st)) = n) by (now rewrite diagonal_length).
  assert (Hidx : length (sortedIndices (diagonal (work st))) = n)
    by (now rewrite sortedIndices_length).
  assert (Hb : (index < n)%nat)
    by (rewrite <- Hev; apply sortedIndices_bound; lia).
  split; [exact Hb|]. unfold readOut. cbn [values vectors]. split.
  - rewrite at_map with (d := 0%nat) by lia. fold index.
    apply diagonal_at. lia.
  - rewrite nth_indep with (d' := column (basis st) 0) by (now rewrite length_map, Hidx).
    now rewrite (map_nth (fun i => column (basis st) i)).
Qed.

Lemma readOut_distinct (n : nat) (st : JacobiState) (k l : nat) :
  length (work st) = n -> (k < n)%nat -> (l < n)%nat -> k <> l ->
  nth k (sortedIndices (diagonal (work st))) 0%nat
  <> nth l (sortedIndices (diagonal (work st))) 0%nat.
Proof.
  intros Hl Hk Hlt Hkl Heq. apply Hkl.
  assert (Hidx : length (sortedIndices (diagonal (work st))) = n)
    by (now rewrite sortedIndices_length, diagonal_length).
  assert (Hnd : NoDup (sortedIndices (diagonal (work st))))
    by (apply (Permutation_NoDup (sortedIndices_perm _)), seq_NoDup).
  apply (proj1 (NoDup_nth _ 0%nat) Hnd); auto; lia.
Qed.

(** When the loop left before the cap, the working matrix passes the test. *)
Lemma jacobiFinal_converged (matrix : list (list R)) :
  (iter (jacobiFinal RealMath matrix) < 50)%nat ->
  converged (length matrix) (work (jacobiFinal RealMath matrix)) = true.
Proof.
  intros Hlt.
  destruct (jacobiLoop_passes RealMath (length matrix) 50 (initialState matrix))
    as (j & Hj & Heq & Hit & _ & Hafter).
  assert (Hfin : jacobiFinal RealMath matrix
                 = jacobiLoop RealMath (length matrix) 50 (initialState matrix))
    by reflexivity.
  rewrite <- Hfin in Heq, Hit.
  assert (Hij : iter (jacobiFinal RealMath matrix) = j) by (rewrite Hit; reflexivity).
  rewrite Heq. apply Hafter. lia.
Qed.

Lemma jacobiMethod_rayleigh (matrix : list (list R)) (k : nat) :
  square (length matrix) matrix -> symmetric (length matrix) matrix ->
  (k < length matrix)%nat ->
  at_ (values (jacobiMethod RealMath matrix)) k
  = bilinear (length matrix) matrix
      (nth k (vectors (jacobiMethod RealMath matrix)) [])
      (nth k (vectors (jacobiMethod RealMath matrix)) []).
Proof.
  intros Hsq Hsym Hk.
  destruct (jacobiFinal_congruent Hsq Hsym) as ([HWl _] & _ & Hinv).
  destruct (jacobiFinal_orthonormal matrix) as [[HVl _] _].
  unfold jacobiMethod.
  destruct (@readOut_entries (length matrix) (jacobiFinal RealMath matrix) k HWl Hk)
    as (Hb & Hv & Hc).
  rewrite Hv, Hc, bilinear_columns by exact HVl. now apply Hinv.
Qed.

(** X13. In exact arithmetic, for a symmetric N x N input [A], after the
    loop (whether it met the tolerance or the cap) the working matrix is
    symmetric and equals [V^T A V], where [V] is the accumulator: every
    pass is a similarity by the rotation it accumulates, and the angle of
    line 182 is the one for which the entry the code overwrites with 0 is
    indeed 0. *)
Theorem working_matrix_congruent (matrix : list (list R)) :
  square (length matrix) matrix -> symmetric (length matrix) matrix ->
  let fin := jacobiFinal RealMath matrix in
  symmetric (length matrix) (work fin) /\
  forall i j, (i < length matrix)%nat -> (j < length matrix)%nat ->
              cell (work fin) i j = congruence (length matrix) matrix (basis fin) i j.
Proof.
  intros Hsq Hsym fin.
  destruct (jacobiFinal_congruent Hsq Hsym) as (_ & H2 & H3). auto.
Qed.

Lemma working_matrix_congruent_witness :
  let fin := jacobiFinal RealMath sampleMatrix in
  symmetric (length sampleMatrix) (work fin) /\
  forall i j, (i < length sampleMatrix)%nat -> (j < length sampleMatrix)%nat ->
              cell (work fin) i j
              = congruence (length sampleMatrix) sampleMatrix (basis fin) i j.
Proof. exact (working_matrix_congruent sampleMatrix_square sampleMatrix_symmetric). Defined.

(** X14. In exact arithmetic, for a symmetric N x N input [A], each
    eigenvalue jacobiMethod returns is the quadratic form [v^T A v] at the
    eigenvector returned with it; and when the loop left before
    the cap of 50 passes, [u^T A v] is below 1e-10 in magnitude for any two
    different eigenvectors returned. *)
Theorem eigenvalues_are_rayleigh_quotients (matrix : list (list R)) :
  square (length matrix) matrix -> symmetric (length matrix) matrix ->
  let n := length matrix in
  let r := jacobiMethod RealMath matrix in
  (forall k, (k < n)%nat ->
             at_ (values r) k
             = bilinear n matrix (nth k (vectors r) []) (nth k (vectors r) [])) /\
  ((iter (jacobiFinal RealMath matrix) < 50)%nat ->
   forall k l, (k < n)%nat -> (l < n)%nat -> k <> l ->
               Rabs (bilinear n matrix (nth k (vectors r) []) (nth l (vectors r) []))
               < 1 / 10000000000).
Proof.
  intros Hsq Hsym n r.
  destruct (jacobiFinal_congruent Hsq Hsym) as ([HWl _] & HS & Hinv).
  destruct (jacobiFinal_orthonormal matrix) as [[HVl _] _].
  fold n in HWl, HS, Hinv, HVl.
  unfold r, jacobiMethod. set (st := jacobiFinal RealMath matrix) in *.
  split.
  - intros k Hk. now apply jacobiMethod_rayleigh.
  - intros Hlt k l Hk Hl Hkl.
    destruct (@readOut_entries n st k HWl Hk) as (Hbk & _ & Hck).
    destruct (@readOut_entries n st l HWl Hl) as (Hbl & _ & Hcl).
    rewrite Hck, Hcl, bilinear_columns by exact HVl.
    rewrite <- Hinv by assumption.
    apply jacobiFinal_converged in Hlt. fold n st in Hlt.
    apply converged_iff in Hlt. apply (symmetric_offDiagonal HS) in Hlt.
    apply Hlt; auto. now apply (@readOut_distinct n st k l).
Qed.

Lemma eigenvalues_are_rayleigh_quotients_witness :
  let n := length sampleMatrix in
  let r := jacobiMethod RealMath sampleMatrix in
  (forall k, (k < n)%nat ->
             at_ (values r) k
             = bilinear n sampleMatrix (nth k (vectors r) []) (nth k (vectors r) [])) /\
  ((iter (jacobiFinal RealMath sampleMatrix) < 50)%nat ->
   forall k l, (k < n)%nat -> (l < n)%nat -> k <> l ->
               Rabs (bilinear n sampleMatrix (nth k (vectors r) []) (nth l (vectors r) []))
               < 1 / 10000000000).
Proof.
  exact (eigenvalues_are_rayleigh_quotients sampleMatrix_square sampleMatrix_symmetric).
Defined.

(** ** The eigenvalue equation *)

Lemma delta_sym (i j : nat) : delta i j = delta j i.
Proof. unfold delta. now rewrite Nat.eqb_sym. Qed.

Lemma bigsum_minus (f g : nat -> R) (n : nat) :
  bigsum (fun i => f i - g i) n = bigsum f n - bigsum g n.
Proof.
  induction n as [|n IH]; [unfold bigsum; simpl; lra|]. rewrite !bigsum_S, IH. lra.
Qed.

Lemma bigsum_bounded (f : nat -> R) (e : R) (n : nat) :
  (forall i, (i < n)%nat -> Rabs (f i) <= e) -> Rabs (bigsum f n) <= INR n * e.
Proof.
  induction n as [|n IH]; intros H.
  - unfold bigsum. simpl. rewrite Rabs_R0. lra.
  - rewrite bigsum_S, S_INR.
    apply Rle_trans with (1 := Rabs_triang _ _).
    specialize (IH (fun i Hi => H i (Nat.lt_lt_succ_r _ _ Hi))).
    specialize (H n (Nat.lt_succ_diag_r n)). lra.
Qed.

Lemma bigsum_member (f : nat -> R) (m n : nat) :
  (forall i, (i < n)%nat -> 0 <= f i) -> (m < n)%nat -> f m <= bigsum f n.
Proof.
  induction n as [|n IH]; intros Hf Hm; [lia|]. rewrite bigsum_S.
  assert (Hpos : 0 <= bigsum f n).
  { clear IH Hm. induction n as [|k IHk]; [unfold bigsum; simpl; lra|].
    rewrite bigsum_S. specialize (Hf k) as Hk. 
    assert (0 <= bigsum f k) by (apply IHk; intros; apply Hf; lia).
    assert (0 <= f k) by (apply Hf; lia). lra. }
  destruct (Nat.eq_dec m n) as [->|Hne].
  - lra.
  - assert (f m <= bigsum f n) by (apply IH; [intros; apply Hf|]; lia).
    assert (0 <= f n) by (apply Hf; lia). lra.
Qed.

(** The rows of the accumulator stay orthonormal as well. *)
Lemma rotateVectors_rows_orthonormal (n p q : nat) (c s : R) (V : list (list R)) :
  square n V -> (forall a b, (a < n)%nat -> (b < n)%nat -> rowdot n V a b = delta a b) ->
  (p < n)%nat -> (q < n)%nat -> p <> q -> c * c + s * s = 1 ->
  forall a b, (a < n)%nat -> (b < n)%nat ->
              rowdot n (rotateVectors n p q c s V) a b = delta a b.
Proof.
  intros Hsq Ho Hp Hq Hpq Hcs a b Ha Hb. rewrite <- (Ho a b Ha Hb). unfold rowdot.
  rewrite bigsum_change_two
    with (g := fun j => cell V a j * cell V b j) (p := p) (q := q); auto.
  - rewrite !rotateVectors_cell by assumption. unfold rotatedCell.
    rewrite !Nat.eqb_refl. destruct (Nat.eqb_spec q p) as [E|_]; [congruence|].
    pose proof (f_equal (fun t => t * (cell V a p * cell V b p)) Hcs) as H1.
    pose proof (f_equal (fun t => t * (cell V a q * cell V b q)) Hcs) as H2.
    simpl in H1, H2. lra.
  - intros j Hjp Hjq. rewrite !rotateVectors_cell by assumption. unfold rotatedCell.
    destruct (Nat.eqb_spec j p), (Nat.eqb_spec j q); try contradiction. reflexivity.
Qed.

Lemma identityMatrix_rows_orthonormal (n a b : nat) :
  (a < n)%nat -> (b < n)%nat -> rowdot n (identityMatrix n) a b = delta a b.
Proof.
  intros Ha Hb. unfold rowdot.
  rewrite bigsum_ext with (g := fun j => delta j a * delta j b).
  - now apply bigsum_delta.
  - intros j Hj. rewrite !cell_identityMatrix by assumption.
    unfold delta. rewrite (Nat.eqb_sym a j), (Nat.eqb_sym b j). reflexivity.
Qed.

Lemma rotate_rows_orthonormal (n : nat) (st : JacobiState) :
  square n (basis st) ->
  (forall a b, (a < n)%nat -> (b < n)%nat -> rowdot n (basis st) a b = delta a b) ->
  converged n (work st) = false ->
  forall a b, (a < n)%nat -> (b < n)%nat ->
              rowdot n (basis (rotate RealMath n st)) a b = delta a b.
Proof.
  intros Hsq Ho Hc. unfold rotate.
  destruct (findPivot n (work st)) as [[mx p] q] eqn:Hf.
  destruct (pivot_found _ _ Hc Hf) as [Hpq Hq]. cbn [basis].
  apply rotateVectors_rows_orthonormal; auto; try lia. apply cos_sin_unit.
Qed.

Lemma jacobiFinal_rows_orthonormal (matrix : list (list R)) (a b : nat) :
  (a < length matrix)%nat -> (b < length matrix)%nat ->
  rowdot (length matrix) (basis (jacobiFinal RealMath matrix)) a b = delta a b.
Proof.
  set (n := length matrix).
  set (P := fun st : JacobiState =>
              square n (basis st) /\
              forall a b, (a < n)%nat -> (b < n)%nat -> rowdot n (basis st) a b = delta a b).
  assert (H : P (jacobiFinal RealMath matrix)).
  { unfold jacobiFinal. apply jacobiLoop_invariant.
    - intros st [Hsq Ho] Hc. split.
      + now apply rotate_basis_square.
      + now apply rotate_rows_orthonormal.
    - split.
      + apply identityMatrix_square.
      + intros; now apply identityMatrix_rows_orthonormal. }
  intros Ha Hb. now apply H.
Qed.

(** With orthonormal rows, [W = V^T A V] gives [V W = A V]. *)
Lemma basis_times_work (n : nat) (A V W : list (list R)) (a k : nat) :
  (forall i j, (i < n)%nat -> (j < n)%nat -> cell W i j = congruence n A V i j) ->
  (forall i j, (i < n)%nat -> (j < n)%nat -> rowdot n V i j = delta i j) ->
  (a < n)%nat -> (k < n)%nat ->
  bigsum (fun m => cell V a m * cell W m k) n
  = bigsum (fun d => cell A a d * cell V d k) n.
Proof.
  intros HW Ho Ha Hk.
  set (T := fun c => bigsum (fun d => cell A c d * cell V d k) n).
  rewrite bigsum_ext
    with (g := fun m => bigsum (fun c => cell V a m * cell V c m * T c) n).
  - rewrite bigsum_swap.
    rewrite bigsum_ext with (g := fun c => delta c a * T c).
    + now apply (bigsum_pick T).
    + intros c Hc.
      rewrite bigsum_ext with (g := fun m => T c * (cell V a m * cell V c m))
        by (intros; ring).
      rewrite bigsum_scal. fold (rowdot n V a c). rewrite Ho by assumption.
      rewrite delta_sym. ring.
  - intros m Hm. rewrite HW, congruence_rows by assumption.
    rewrite <- bigsum_scal. apply bigsum_ext. intros c Hc. unfold T. ring.
Qed.

Lemma applyMatrix_at (n : nat) (A : list (list R)) (v : list R) (a : nat) :
  (a < n)%nat ->
  at_ (applyMatrix n A v) a = bigsum (fun b => cell A a b * at_ v b) n.
Proof.
  intros Ha. unfold applyMatrix.
  rewrite at_map with (d := 0%nat) by (now rewrite length_seq).
  now rewrite seq_nth.
Qed.

Lemma column_at (V : list (list R)) (j b : nat) :
  (b < length V)%nat -> at_ (column V j) b = cell V b j.
Proof. intros Hb. unfold column. now rewrite at_map with (d := []). Qed.

Lemma rows_bounded (n : nat) (V : list (list R)) (a m : nat) :
  (forall i j, (i < n)%nat -> (j < n)%nat -> rowdot n V i j = delta i j) ->
  (a < n)%nat -> (m < n)%nat -> Rabs (cell V a m) <= 1.
Proof.
  intros Ho Ha Hm.
  assert (H : cell V a m * cell V a m <= 1).
  { specialize (Ho a a Ha Ha). unfold delta in Ho. rewrite Nat.eqb_refl in Ho.
    rewrite <- Ho. unfold rowdot.
    apply (bigsum_member (fun j => cell V a j * cell V a j)); [|assumption].
    intros i _. nra. }
  apply Rabs_le. nra.
Qed.

(** On two assets one pass is enough: line 198 writes an exact 0 into the
    only entry the test of line 180 looks at. *)
Lemma two_by_two_passes (matrix : list (list R)) :
  square 2 matrix -> (iter (jacobiFinal RealMath matrix) <= 1)%nat.
Proof.
  intros Hsq. pose proof (proj1 Hsq) as Hlen.
  destruct (jacobiLoop_passes RealMath (length matrix) 50 (initialState matrix))
    as (j & _ & _ & Hit & Hbefore & _).
  assert (Hfin : jacobiFinal RealMath matrix
                 = jacobiLoop RealMath (length matrix) 50 (initialState matrix))
    by reflexivity.
  rewrite <- Hfin in Hit. rewrite Hit. cbn [iter initialState].
  destruct (le_lt_dec j 1) as [Hle|Hgt]; [lia|exfalso].
  pose proof (Hbefore 0%nat ltac:(lia)) as H0.
  pose proof (Hbefore 1%nat Hgt) as H1.
  rewrite Hlen in H0, H1. cbn [Nat.iter nat_rect] in H0, H1.
  cbn [work initialState] in H0.
  assert (Htrue : converged 2 (work (rotate RealMath 2 (initialState matrix))) = true).
  { unfold rotate. cbn [work initialState].
    destruct (findPivot 2 matrix) as [[mx p] q] eqn:Hf.
    destruct (pivot_found _ _ H0 Hf) as [Hpq Hq]. cbn [work].
    apply converged_iff. intros a b Hab Hb.
    assert (a = 0%nat /\ b = 1%nat /\ p = 0%nat /\ q = 1%nat) as (-> & -> & -> & ->) by lia.
    rewrite rotateValues_cell by (assumption || lia).
    unfold rotatedValue. cbn [Nat.eqb]. rewrite Rabs_R0. lra. }
  congruence.
Qed.

Lemma sampleMatrix_passes : (iter (jacobiFinal RealMath sampleMatrix) < 50)%nat.
Proof.
  pose proof (two_by_two_passes sampleMatrix_square). lia.
Defined.


(** X15. In exact arithmetic, for a symmetric N x N input [A], when the
    loop left before the cap of 50 passes every pair jacobiMethod returns
    solves the eigenvalue equation up to the tolerance: each component of
    [A v - lambda v] is at most N * 1e-10 in magnitude.  The rows of the
    accumulator stay orthonormal like its columns, so that [A V = V W] for
    the working matrix [W], whose off-diagonal entries are below 1e-10. *)
Theorem eigen_residual (matrix : list (list R)) :
  square (length matrix) matrix -> symmetric (length matrix) matrix ->
  (iter (jacobiFinal RealMath matrix) < 50)%nat ->
  let n := length matrix in
  let r := jacobiMethod RealMath matrix in
  forall k a, (k < n)%nat -> (a < n)%nat ->
    Rabs (at_ (applyMatrix n matrix (nth k (vectors r) [])) a
          - at_ (values r) k * at_ (nth k (vectors r) []) a)
    <= INR n * (1 / 10000000000).
Proof.
  intros Hsq Hsym Hlt n r k a Hk Ha.
  destruct (jacobiFinal_congruent Hsq Hsym) as ([HWl _] & HS & Hinv).
  destruct (jacobiFinal_orthonormal matrix) as [[HVl _] _].
  pose proof (@jacobiFinal_rows_orthonormal matrix) as Hrows.
  apply jacobiFinal_converged in Hlt.
  apply converged_iff in Hlt. apply (symmetric_offDiagonal HS) in Hlt.
  fold n in HWl, HS, Hinv, HVl, Hrows, Hlt.
  unfold r, jacobiMethod. set (st := jacobiFinal RealMath matrix) in *.
  destruct (@readOut_entries n st k HWl Hk) as (Hb & Hv & Hc).
  set (index := nth k (sortedIndices (diagonal (work st))) 0%nat) in *.
  rewrite Hv, Hc, applyMatrix_at by assumption.
  rewrite bigsum_ext with (g := fun d => cell matrix a d * cell (basis st) d index)
    by (intros d Hd; rewrite column_at by lia; reflexivity).
  rewrite column_at by lia.
  rewrite <- (@basis_times_work n matrix (basis st) (work st) a index Hinv
                (fun i j Hi Hj => Hrows i j Hi Hj) Ha Hb).
  rewrite <- (@bigsum_pick (fun m => cell (work st) m index * cell (basis st) a m)
                index n Hb) at 1.
  cbv beta. rewrite <- bigsum_minus.
  apply bigsum_bounded. intros m Hm. unfold delta.
  destruct (Nat.eqb_spec m index) as [->|Hne].
  - replace (_ - _) with 0 by ring. rewrite Rabs_R0. lra.
  - replace (_ - _) with (cell (basis st) a m * cell (work st) m index) by ring.
    rewrite Rabs_mult.
    pose proof (@rows_bounded n (basis st) a m (fun i j Hi Hj => Hrows i j Hi Hj) Ha Hm).
    pose proof (Hlt m index Hne Hm Hb).
    pose proof (Rabs_pos (cell (basis st) a m)).
    pose proof (Rabs_pos (cell (work st) m index)). nra.
Qed.

Lemma eigen_residual_witness :
  Rabs (at_ (applyMatrix 2 sampleMatrix
               (nth 0 (vectors (jacobiMethod RealMath sampleMatrix)) [])) 1
        - at_ (values (jacobiMethod RealMath sampleMatrix)) 0
          * at_ (nth 0 (vectors (jacobiMethod RealMath sampleMatrix)) []) 1)
  <= INR 2 * (1 / 10000000000).
Proof.
  apply (eigen_residual sampleMatrix_square sampleMatrix_symmetric sampleMatrix_passes);
    simpl; lia.
Defined.

(** ** The covariance matrix is positive semidefinite *)

Lemma fold_left_bigsum (f : nat -> R) (n : nat) :
  fold_left (fun acc k => acc + f k) (seq 0 n) 0 = bigsum f n.
Proof.
  induction n as [|n IH]; [reflexivity|].
  rewrite seq_S, fold_left_app, IH, bigsum_S. reflexivity.
Qed.

Lemma covEntry_deviations (ri rj : list R) :
  covEntry ri rj
  = bigsum (fun k => deviation ri k * deviation rj k) (length ri)
    / (INR (length ri) - 1).
Proof.
  unfold covEntry, deviation, len.
  cbn [add sub mul div fromZ RealNumber].
  rewrite fold_left_bigsum, <- INR_IZR_INZ. reflexivity.
Qed.

Lemma bigsum_nonneg (f : nat -> R) (n : nat) :
  (forall i, (i < n)%nat -> 0 <= f i) -> 0 <= bigsum f n.
Proof.
  induction n as [|n IH]; intros H; [unfold bigsum; simpl; lra|].
  rewrite bigsum_S. pose proof (H n (Nat.lt_succ_diag_r n)).
  assert (0 <= bigsum f n) by (apply IH; intros; apply H; lia). lra.
Qed.

Lemma bigsum_mult (f g : nat -> R) (n m : nat) :
  bigsum f n * bigsum g m = bigsum (fun a => bigsum (fun b => f a * g b) m) n.
Proof.
  rewrite Rmult_comm, <- bigsum_scal. apply bigsum_ext. intros a _.
  rewrite Rmult_comm, <- bigsum_scal. reflexivity.
Qed.

(** A matrix of scaled sums of products of deviations is positive
    semidefinite. *)
Lemma gram_nonneg (n T : nat) (c : R) (d : nat -> nat -> R) (m : list (list R))
  (u : list R) :
  0 <= c ->
  (forall a b, (a < n)%nat -> (b < n)%nat ->
               cell m a b = bigsum (fun k => d a k * d b k) T * c) ->
  0 <= bilinear n m u u.
Proof.
  intros Hc Hm.
  assert (E : bilinear n m u u
              = c * bigsum (fun k => bigsum (fun a => at_ u a * d a k) n
                                     * bigsum (fun b => at_ u b * d b k) n) T).
  { unfold bilinear.
    rewrite bigsum_ext
      with (g := fun a => bigsum (fun k => bigsum (fun b =>
                   c * ((at_ u a * d a k) * (at_ u b * d b k))) n) T).
    - rewrite bigsum_swap, <- bigsum_scal. apply bigsum_ext. intros k _.
      rewrite bigsum_mult, <- bigsum_scal. apply bigsum_ext. intros a _.
      rewrite <- bigsum_scal. reflexivity.
    - intros a Ha. rewrite bigsum_swap. apply bigsum_ext. intros b Hb.
      rewrite Hm by assumption.
      rewrite bigsum_ext
        with (f := fun k => c * (at_ u a * d a k * (at_ u b * d b k)))
             (g := fun k => (at_ u a * c * at_ u b) * (d a k * d b k))
        by (intros; ring).
      rewrite bigsum_scal. ring. }
  rewrite E. apply Rmult_le_pos; [assumption|].
  apply bigsum_nonneg. intros k _. nra.
Qed.

Lemma covariance_gram (stocks : list string) (returns : Obj.t (list R))
  (series : nat -> list R) (M : nat) :
  (forall k, (k < length stocks)%nat ->
             Obj.get (nth k stocks ""%string) returns = Some (series k) /\
             length (series k) = M) ->
  exists m,
    calculateCovarianceMatrix stocks returns = Normal m /\
    square (length stocks) m /\
    symmetric (length stocks) m /\
    forall a b, (a < length stocks)%nat -> (b < length stocks)%nat ->
                cell m a b
                = bigsum (fun k => deviation (series a) k * deviation (series b) k) M
                  * / (INR M - 1).
Proof.
  intros Hs.
  destruct (@covariance_cells _ _ stocks returns series) as (m & Hm & Hsq & Hcells).
  { intros k Hk. apply Hs, Hk. }
  exists m. split; [assumption|]. split; [assumption|].
  assert (Hgram : forall a b, (a < length stocks)%nat -> (b < length stocks)%nat ->
                    cell m a b
                    = bigsum (fun k => deviation (series a) k * deviation (series b) k) M
                      * / (INR M - 1)).
  { intros a b Ha Hb. rewrite Hcells, covEntry_deviations by assumption.
    destruct (Hs a Ha) as [_ ->]. reflexivity. }
  split; [|exact Hgram].
  intros a b Ha Hb. rewrite !Hgram by assumption. f_equal.
  apply bigsum_ext. intros k _. ring.
Qed.

Lemma jacobiMethod_sum (matrix : list (list R)) :
  square (length matrix) matrix ->
  sumOf (values (jacobiMethod RealMath matrix)) = trace matrix.
Proof.
  intros Hsq. destruct (jacobiFinal_trace Hsq) as [[Hl Hrows] Htr].
  rewrite sumOf_Rsum. unfold jacobiMethod, readOut. cbn [values].
  rewrite <- (Rsum_perm (sorted_values_perm _)).
  rewrite <- bigsum_at, diagonal_length, <- Htr. unfold trace.
  apply bigsum_ext. intros i Hi. now apply diagonal_at.
Qed.

Lemma INR_minus_one_pos (M : nat) : (2 <= M)%nat -> 0 <= / (INR M - 1).
Proof.
  intros HM. apply Rlt_le, Rinv_0_lt_compat.
  apply le_INR in HM. simpl in HM. lra.
Qed.

(** X16. In exact arithmetic, for return series of one length [M >= 2] the
    matrix calculateCovarianceMatrix returns is positive semidefinite
    ([u^T C u >= 0] for every [u]: it is [1 / (M - 1)] times a sum of
    squares), and every eigenvalue performPCA returns for it is
    non-negative, whether or not the Jacobi loop met its tolerance. *)
Theorem covariance_eigenvalues_nonnegative (stocks : list string)
  (returns : Obj.t (list R)) (series : nat -> list R) (M : nat) :
  (2 <= M)%nat ->
  (forall k, (k < length stocks)%nat ->
             Obj.get (nth k stocks ""%string) returns = Some (series k) /\
             length (series k) = M) ->
  exists m,
    calculateCovarianceMatrix stocks returns = Normal m /\
    (forall u, 0 <= bilinear (length stocks) m u u) /\
    forall k, (k < length stocks)%nat -> 0 <= at_ (fst (performPCA RealMath m)) k.
Proof.
  intros HM Hs.
  destruct (covariance_gram stocks returns series Hs) as (m & Hm & Hsq & Hsym & Hgram).
  exists m. split; [assumption|].
  assert (Hpsd : forall u, 0 <= bilinear (length stocks) m u u).
  { intros u.
    apply (@gram_nonneg (length stocks) M (/ (INR M - 1))
             (fun a k => deviation (series a) k) m u); [|exact Hgram].
    now apply INR_minus_one_pos. }
  split; [exact Hpsd|].
  intros k Hk. unfold performPCA. cbn [fst].
  pose proof (proj1 Hsq) as Hl. rewrite <- Hl in Hsq, Hsym, Hk.
  rewrite jacobiMethod_rayleigh by assumption. rewrite Hl. apply Hpsd.
Qed.

Lemma sampleRealReturns_series (k : nat) :
  (k < length stocks)%nat ->
  Obj.get (nth k stocks ""%string) sampleRealReturns = Some (nth k sampleRealSeries []) /\
  length (nth k sampleRealSeries []) = 3%nat.
Proof.
  intros Hk. do 5 (destruct k as [|k]; [split; reflexivity|]).
  simpl in Hk. lia.
Defined.

Lemma covariance_eigenvalues_nonnegative_witness :
  exists m,
    calculateCovarianceMatrix stocks sampleRealReturns = Normal m /\
    (forall u, 0 <= bilinear (length stocks) m u u) /\
    forall k, (k < length stocks)%nat -> 0 <= at_ (fst (performPCA RealMath m)) k.
Proof.
  apply (@covariance_eigenvalues_nonnegative stocks sampleRealReturns
           (fun k => nth k sampleRealSeries []) 3).
  - lia.
  - exact sampleRealReturns_series.
Defined.

(** X17. In exact arithmetic, for a non-empty basket and return series of
    one length [M >= 2], the summary of lines 123-127 for the covariance
    matrix has a totalVariance that is the trace of the covariance matrix
    (the sum of the sample variances) and is non-negative, and, unless it
    is zero, a varianceExplained between 0 and 100. *)
Theorem variance_explained_percentage (stocks : list string)
  (returns : Obj.t (list R)) (series : nat -> list R) (M : nat) :
  stocks <> [] -> (2 <= M)%nat ->
  (forall k, (k < length stocks)%nat ->
             Obj.get (nth k stocks ""%string) returns = Some (series k) /\
             length (series k) = M) ->
  exists m summary,
    calculateCovarianceMatrix stocks returns = Normal m /\
    interpret stocks (fst (performPCA RealMath m)) (snd (performPCA RealMath m))
    = Normal summary /\
    totalVariance summary = trace m /\
    0 <= totalVariance summary /\
    (totalVariance summary <> 0 ->
     0 <= varianceExplained summary <= 100).
Proof.
  intros Hne HM Hs.
  destruct (covariance_gram stocks returns series Hs) as (m & Hm & Hsq & Hsym & Hgram).
  pose proof (proj1 Hsq) as Hl.
  assert (Hn : (0 < length m)%nat).
  { rewrite Hl. destruct stocks; [contradiction|simpl; lia]. }
  assert (Hsq' : square (length m) m) by (now rewrite Hl).
  assert (Hsym' : symmetric (length m) m) by (now rewrite Hl).
  destruct (jacobiMethod_lengths RealMath Hsq') as [Hvl Hwl].
  set (r := jacobiMethod RealMath m) in *.
  assert (Hpos : forall k, (k < length m)%nat -> 0 <= at_ (values r) k).
  { intros k Hk. unfold r. rewrite jacobiMethod_rayleigh by assumption.
    apply (@gram_nonneg (length m) M (/ (INR M - 1))
             (fun a k => deviation (series a) k) m); [now apply INR_minus_one_pos|].
    rewrite Hl. exact Hgram. }
  assert (Hsum : sumOf (values r) = bigsum (at_ (values r)) (length m))
    by (now rewrite sumOf_Rsum, <- bigsum_at, Hvl).
  assert (Htot : 0 <= sumOf (values r))
    by (rewrite Hsum; now apply bigsum_nonneg).
  assert (Hfirst : at_ (values r) 0 <= sumOf (values r))
    by (rewrite Hsum; now apply (bigsum_member (at_ (values r)))).
  exists m. unfold performPCA. fold r. cbn [fst snd]. unfold interpret.
  destruct (vectors r) as [|v0 rest] eqn:Ev; [simpl in Hwl; lia|].
  cbn [nth_error required bind].
  eexists. split; [assumption|]. split; [reflexivity|].
  cbn [totalVariance varianceExplained].
  split; [now apply jacobiMethod_sum|]. split; [assumption|].
  intros Hnz. cbn [mul div fromZ RealNumber].
  pose proof (Hpos 0%nat Hn) as H0.
  assert (Hlt : 0 < sumOf (values r)) by lra.
  assert (Hq : 0 <= at_ (values r) 0 / sumOf (values r) <= 1).
  { split.
    - apply Rmult_le_pos; [assumption|]. now apply Rlt_le, Rinv_0_lt_compat.
    - apply Rmult_le_reg_r with (r := sumOf (values r)); [assumption|].
      unfold Rdiv. rewrite Rmult_assoc, Rinv_l by lra. lra. }
  lra.
Qed.

Lemma variance_explained_percentage_witness :
  exists m summary,
    calculateCovarianceMatrix stocks sampleRealReturns = Normal m /\
    interpret stocks (fst (performPCA RealMath m)) (snd (performPCA RealMath m))
    = Normal summary /\
    totalVariance summary = trace m /\
    0 <= totalVariance summary /\
    (totalVariance summary <> 0 ->
     0 <= varianceExplained summary <= 100).
Proof.
  apply (@variance_explained_percentage stocks sampleRealReturns
           (fun k => nth k sampleRealSeries []) 3).
  - discriminate.
  - lia.
  - exact sampleRealReturns_series.
Defined.

(** * The engine on IEEE doubles *)

(** ** Rounding of the sum, the difference and the product *)

Lemma Rabs_bound (x a : R) : Rabs x <= a -> - a <= x <= a.
Proof. unfold Rabs. destruct (Rcase_abs x); lra. Qed.

Lemma signed_abs (s : bool) (x : R) : Rabs (signed s x) = Rabs x.
Proof. destruct s; simpl; [apply Rabs_Ropp|reflexivity]. Qed.

Lemma signed_minus (s : bool) (x y : R) : signed s x - signed s y = signed s (x - y).
Proof. destruct s; simpl; lra. Qed.

Lemma two_pow_pos (e : Z) : 0 < powerRZ 2 e.
Proof. apply powerRZ_lt. lra. Qed.

Lemma two_pow_add (a b : Z) : powerRZ 2 (a + b) = powerRZ 2 a * powerRZ 2 b.
Proof. apply powerRZ_add. lra. Qed.

Lemma two_pow_IZR (k : Z) : (0 <= k)%Z -> IZR (2 ^ k) = powerRZ 2 k.
Proof.
  intros Hk. destruct k as [|p|p]; [reflexivity| |lia].
  change (2 ^ Z.pos p)%Z with (Z.pow_pos 2 p). apply Zpower_pos_powerRZ.
Qed.

Lemma two_pow_le (a b : Z) : (a <= b)%Z -> powerRZ 2 a <= powerRZ 2 b.
Proof.
  intros H. replace b with (a + (b - a))%Z by lia. rewrite two_pow_add.
  assert (H1 : 1 <= powerRZ 2 (b - a)).
  { rewrite <- two_pow_IZR by lia. apply IZR_le.
    pose proof (Z.pow_pos_nonneg 2 (b - a)). lia. }
  pose proof (two_pow_pos a). nra.
Qed.

Lemma two_pow_lt_inv (a b : Z) : powerRZ 2 a <= powerRZ 2 b -> (a <= b)%Z.
Proof.
  intros H. destruct (Z_le_gt_dec a b) as [Hle|Hgt]; [assumption|exfalso].
  assert (Hb : powerRZ 2 (b + 1) <= powerRZ 2 a) by (apply two_pow_le; lia).
  rewrite two_pow_add in Hb. change (powerRZ 2 1) with (2 * 1) in Hb.
  pose proof (two_pow_pos b). lra.
Qed.

(** [digits2_pos m] is the number of binary digits of [m]. *)
Lemma digits2_pos_bounds (m : positive) :
  (2 ^ (Zpos (digits2_pos m) - 1) <= Zpos m < 2 ^ Zpos (digits2_pos m))%Z.
Proof.
  induction m as [m IH|m IH|]; cbn [digits2_pos].
  - rewrite Pos2Z.inj_succ.
    replace (Z.succ (Z.pos (digits2_pos m)) - 1)%Z with (Z.pos (digits2_pos m) - 1 + 1)%Z by lia.
    rewrite Z.pow_succ_r by lia.
    rewrite Z.pow_add_r by lia. change (2 ^ 1)%Z with 2%Z. lia.
  - rewrite Pos2Z.inj_succ.
    replace (Z.succ (Z.pos (digits2_pos m)) - 1)%Z with (Z.pos (digits2_pos m) - 1 + 1)%Z by lia.
    rewrite Z.pow_succ_r by lia.
    rewrite Z.pow_add_r by lia. change (2 ^ 1)%Z with 2%Z. lia.
  - simpl. lia.
Qed.

Lemma shr_1_m (mrs : shr_record) :
  (0 <= shr_m mrs)%Z -> shr_m (shr_1 mrs) = (shr_m mrs / 2)%Z.
Proof.
  destruct mrs as [m r s]. cbn [shr_m]. intros Hm.
  destruct m as [|[p|p|]|p]; cbn [shr_1 shr_m]; try lia.
  - reflexivity.
  - rewrite Pos2Z.inj_xI. apply Z.div_unique with (r := 1%Z); lia.
  - rewrite Pos2Z.inj_xO. apply Z.div_unique with (r := 0%Z); lia.
  - reflexivity.
Qed.

Lemma shr_iter_m (p : positive) :
  forall mrs, (0 <= shr_m mrs)%Z ->
              shr_m (iter_pos shr_1 p mrs) = (shr_m mrs / 2 ^ Zpos p)%Z.
Proof.
  induction p as [p IH|p IH|]; intros mrs Hm; cbn [iter_pos].
  - assert (E : (2 ^ Z.pos p~1 = 2 * (2 ^ Z.pos p * 2 ^ Z.pos p))%Z).
    { rewrite <- Z.pow_add_r, <- Z.pow_succ_r by lia. f_equal. lia. }
    assert (H1 : (0 <= shr_m (shr_1 mrs))%Z)
      by (rewrite shr_1_m by assumption; apply Z.div_pos; lia).
    assert (H2 : (0 <= shr_m (iter_pos shr_1 p (shr_1 mrs)))%Z)
      by (rewrite IH by assumption; apply Z.div_pos; lia).
    rewrite IH, IH, shr_1_m by assumption.
    rewrite !Z.div_div, E by lia. reflexivity.
  - assert (E : (2 ^ Z.pos p~0 = 2 ^ Z.pos p * 2 ^ Z.pos p)%Z).
    { rewrite <- Z.pow_add_r by lia. f_equal. lia. }
    assert (H2 : (0 <= shr_m (iter_pos shr_1 p mrs))%Z)
      by (rewrite IH by assumption; apply Z.div_pos; lia).
    rewrite IH, IH by assumption.
    rewrite Z.div_div, E by lia. reflexivity.
  - rewrite shr_1_m by assumption. reflexivity.
Qed.

Lemma round_nearest_even_cases (m : Z) (l : location) :
  round_nearest_even m l = m \/ round_nearest_even m l = (m + 1)%Z.
Proof.
  destruct l as [|[| |]]; cbn [round_nearest_even]; auto.
  destruct (Z.even m); auto.
Qed.

(** The first shift of the rounding: nothing when the mantissa already
    fits, and a floor division otherwise. *)
Lemma shr_fexp_cases (z e : Z) :
  (0 <= z)%Z ->
  let f := fexp 53 1024 (Zdigits2 z + e) in
  exists mrs e2,
    shr_fexp 53 1024 z e loc_Exact = (mrs, e2) /\
    (((f <= e)%Z /\ e2 = e /\ mrs = Build_shr_record z false false) \/
     ((e < f)%Z /\ e2 = f /\ (0 <= shr_m mrs)%Z /\
      (shr_m mrs * 2 ^ (f - e) <= z < (shr_m mrs + 1) * 2 ^ (f - e))%Z)).
Proof.
  intros Hz f. unfold shr_fexp. fold f. cbn [shr_record_of_loc].
  destruct (f - e)%Z as [|p|p] eqn:Hn; cbn [shr].
  - eexists _, _. split; [reflexivity|]. left. split; [lia|]. split; reflexivity.
  - eexists _, _. split; [reflexivity|]. right.
    assert (Hp : (0 < 2 ^ Z.pos p)%Z) by (apply Z.pow_pos_nonneg; lia).
    rewrite shr_iter_m by (cbn [shr_m]; assumption). cbn [shr_m].
    split; [lia|]. split; [lia|]. split; [apply Z.div_pos; lia|].
    pose proof (Z.mul_div_le z (2 ^ Z.pos p) Hp).
    pose proof (Z.mul_succ_div_gt z (2 ^ Z.pos p) Hp). lia.
  - eexists _, _. split; [reflexivity|]. left. split; [lia|]. split; reflexivity.
Qed.

Lemma Zdigits2_le (z k : Z) : (0 <= z <= 2 ^ k)%Z -> (0 <= k)%Z -> (Zdigits2 z <= k + 1)%Z.
Proof.
  intros Hz Hk. destruct z as [|x|x]; cbn [Zdigits2]; [lia| |lia].
  pose proof (digits2_pos_bounds x) as [Hlo _].
  destruct (Z_le_gt_dec (Z.pos (digits2_pos x)) (k + 1)) as [|Hgt]; [assumption|exfalso].
  assert (H : (2 ^ (k + 1) <= 2 ^ (Z.pos (digits2_pos x) - 1))%Z)
    by (apply Z.pow_le_mono_r; lia).
  rewrite Z.pow_add_r in H by lia. change (2 ^ 1)%Z with 2%Z in H.
  pose proof (Z.pow_pos_nonneg 2 k). lia.
Qed.

Lemma fexp_le (x y : Z) : (x <= y)%Z -> (fexp 53 1024 x <= fexp 53 1024 y)%Z.
Proof. unfold fexp, emin. lia. Qed.

Lemma fexp_min (x : Z) : (-1074 <= fexp 53 1024 x)%Z.
Proof. unfold fexp, emin. lia. Qed.

Lemma fexp_sub (x : Z) : (x - 53 <= fexp 53 1024 x)%Z.
Proof. unfold fexp, emin. lia. Qed.

Lemma fexp_max (x : Z) : (fexp 53 1024 x = Z.max (x - 53) (-1074))%Z.
Proof. reflexivity. Qed.

Lemma floor_scaled (a z e f : Z) :
  (e <= f)%Z -> (a * 2 ^ (f - e) <= z < (a + 1) * 2 ^ (f - e))%Z ->
  IZR a * powerRZ 2 f <= IZR z * powerRZ 2 e < (IZR a + 1) * powerRZ 2 f.
Proof.
  intros Hef [Hlo Hhi].
  assert (Ef : powerRZ 2 f = IZR (2 ^ (f - e)) * powerRZ 2 e).
  { rewrite two_pow_IZR, <- two_pow_add by lia. f_equal. lia. }
  rewrite Ef.
  apply IZR_le in Hlo. apply IZR_lt in Hhi.
  rewrite mult_IZR in Hlo, Hhi. rewrite plus_IZR in Hhi.
  pose proof (two_pow_pos e) as He.
  split.
  - rewrite <- Rmult_assoc. apply Rmult_le_compat_r; lra.
  - rewrite <- Rmult_assoc. apply Rmult_lt_compat_r; lra.
Qed.

(** From the size of the value to the number of digits of the mantissa. *)
Lemma digits_of_value (m : positive) (e k : Z) :
  IZR (Zpos m) * powerRZ 2 e < powerRZ 2 k -> (Zpos (digits2_pos m) + e <= k)%Z.
Proof.
  intros H. pose proof (digits2_pos_bounds m) as [Hlo _].
  apply IZR_le in Hlo. rewrite two_pow_IZR in Hlo by lia.
  pose proof (two_pow_pos e) as He.
  assert (H1 : powerRZ 2 (Zpos (digits2_pos m) - 1 + e) < powerRZ 2 k).
  { rewrite two_pow_add.
    apply Rle_lt_trans with (2 := H). apply Rmult_le_compat_r; lra. }
  destruct (Z_le_gt_dec (Zpos (digits2_pos m) + e) k) as [|Hgt]; [assumption|exfalso].
  assert (H2 : powerRZ 2 k <= powerRZ 2 (Zpos (digits2_pos m) - 1 + e))
    by (apply two_pow_le; lia).
  lra.
Qed.

(** Rounding an exact value of magnitude below 16 gives a finite number
    (or zero) that is within [2^-47] of it. *)
Lemma binary_round_aux_value (s : bool) (m : positive) (e : Z) :
  IZR (Zpos m) * powerRZ 2 e < 16 ->
  SFfinite (binary_round_aux 53 1024 s (Zpos m) e loc_Exact) = true /\
  Rabs (SF2R (binary_round_aux 53 1024 s (Zpos m) e loc_Exact)
        - signed s (IZR (Zpos m) * powerRZ 2 e)) <= powerRZ 2 (-47).
Proof.
  intros Hv.
  assert (Hd : (Zpos (digits2_pos m) + e <= 4)%Z)
    by (apply digits_of_value; simpl; lra).
  assert (He : (e <= 3)%Z) by lia.
  unfold binary_round_aux.
  destruct (@shr_fexp_cases (Zpos m) e) as (mrs1 & e1 & E1 & C1); [lia|].
  rewrite E1. cbn [Zdigits2] in C1.
  set (f1 := fexp 53 1024 (Z.pos (digits2_pos m) + e)) in *.
  assert (Hf1 : (f1 <= -49)%Z) by (unfold f1; rewrite fexp_max; lia).
  pose proof (fexp_min (Z.pos (digits2_pos m) + e)) as Hf1min. fold f1 in Hf1min.
  pose proof (fexp_sub (Z.pos (digits2_pos m) + e)) as Hf1sub. fold f1 in Hf1sub.
  set (m2 := round_nearest_even (shr_m mrs1) (loc_of_shr_record mrs1)).
  (* the mantissa after the first rounding, and its distance to the value *)
  assert (H2 : (0 <= m2 <= 2 ^ 53)%Z /\ (-1074 <= e1 <= 3)%Z /\
               ((e1 = e /\ m2 = Zpos m /\ (f1 <= e)%Z) \/
                ((e1 <= -49)%Z /\
                 Rabs (IZR m2 * powerRZ 2 e1 - IZR (Zpos m) * powerRZ 2 e)
                 <= powerRZ 2 (-49)))).
  { destruct C1 as [(Hle & -> & ->)|(Hlt & -> & Hpos & Hdiv)].
    - unfold m2. cbn [shr_m loc_of_shr_record round_nearest_even].
      pose proof (digits2_pos_bounds m) as [_ Hhi].
      assert ((2 ^ Zpos (digits2_pos m) <= 2 ^ 53)%Z) by (apply Z.pow_le_mono_r; lia).
      split; [lia|]. split; [lia|]. left. split; [reflexivity|]. split; [reflexivity|lia].
    - assert (Hm1 : (shr_m mrs1 < 2 ^ 53)%Z).
      { pose proof (digits2_pos_bounds m) as [_ Hhi].
        assert (Hp : (0 < 2 ^ (f1 - e))%Z) by (apply Z.pow_pos_nonneg; lia).
        assert (Hq : (2 ^ Zpos (digits2_pos m) <= 2 ^ (53 + (f1 - e)))%Z)
          by (apply Z.pow_le_mono_r; lia).
        rewrite Z.pow_add_r in Hq by lia. nia. }
      assert (Hm2 : m2 = shr_m mrs1 \/ m2 = (shr_m mrs1 + 1)%Z)
        by apply round_nearest_even_cases.
      split; [lia|]. split; [lia|]. right. split; [lia|].
      pose proof (@floor_scaled (shr_m mrs1) (Zpos m) e f1 ltac:(lia) Hdiv) as [Hlo Hhi].
      pose proof (two_pow_le Hf1) as Hpow.
      pose proof (two_pow_pos f1).
      apply Rabs_le.
      destruct Hm2 as [->| ->]; [|rewrite plus_IZR]; lra. }
  destruct H2 as (Hm2 & He1 & Hval).
  destruct (@shr_fexp_cases m2 e1) as (mrs3 & e3 & E3 & C3); [lia|].
  rewrite E3.
  set (f3 := fexp 53 1024 (Zdigits2 m2 + e1)) in *.
  assert (Hdd : (Zdigits2 m2 <= 54)%Z) by (apply (@Zdigits2_le m2 53); lia).
  assert (Hf3 : (f3 <= Z.max (e1 + 1) (-1074))%Z) by (unfold f3; rewrite fexp_max; lia).
  destruct C3 as [(Hle & -> & ->)|(Hlt & -> & Hpos & Hdiv)]; cbn [shr_m].
  - (* the second shift does nothing *)
    destruct m2 as [|x|x]; [| |lia].
    + cbn [SFfinite SF2R]. split; [reflexivity|].
      destruct Hval as [(_ & Habs & _)|[_ Hb]]; [discriminate|].
      rewrite Rmult_0_l in Hb. rewrite Rminus_0_l, Rabs_Ropp, signed_abs.
      rewrite Rminus_0_l, Rabs_Ropp in Hb.
      apply Rle_trans with (1 := Hb). apply two_pow_le. lia.
    + replace (e1 <=? 1024 - 53)%Z with true by (symmetry; apply Z.leb_le; lia).
      cbn [SFfinite SF2R]. split; [reflexivity|].
      rewrite signed_minus, signed_abs.
      destruct Hval as [(-> & Heq & _)|[_ Hb]].
      * injection Heq as ->. rewrite Rminus_diag, Rabs_R0.
        apply Rlt_le, two_pow_pos.
      * apply Rle_trans with (1 := Hb). apply two_pow_le. lia.
  - (* the second shift drops one digit *)
    destruct Hval as [(Ee & Heq & Hfe)|[Hsmall Hb]].
    + exfalso. unfold f3 in Hlt. rewrite Heq, Ee in Hlt. cbn [Zdigits2] in Hlt.
      fold f1 in Hlt. lia.
    + assert (Hf3' : (f3 <= -48)%Z) by lia.
      pose proof (@floor_scaled (shr_m mrs3) m2 e1 f3 ltac:(lia) Hdiv) as [Hlo Hhi].
      pose proof (two_pow_le Hf3') as Hpow. pose proof (two_pow_pos f3).
      assert (Hsum : powerRZ 2 (-48) + powerRZ 2 (-49) <= powerRZ 2 (-47)).
      { replace (-47)%Z with (-48 + 1)%Z by lia.
        replace (-48)%Z with (-49 + 1)%Z at 1 2 by lia.
        rewrite !two_pow_add. change (powerRZ 2 1) with (2 * 1).
        pose proof (two_pow_pos (-49)). lra. }
      apply Rabs_bound in Hb.
      destruct (shr_m mrs3) as [|x|x]; [| |lia].
      * cbn [SFfinite SF2R]. split; [reflexivity|].
        rewrite Rminus_0_l, Rabs_Ropp, signed_abs. apply Rabs_le.
        pose proof (two_pow_pos e). lra.
      * replace (f3 <=? 1024 - 53)%Z with true by (symmetry; apply Z.leb_le; lia).
        cbn [SFfinite SF2R]. split; [reflexivity|].
        rewrite signed_minus, signed_abs. apply Rabs_le. lra.
Qed.

Lemma iter_xO_value (m d : positive) : Zpos (Pos.iter xO m d) = (Zpos m * 2 ^ Zpos d)%Z.
Proof.
  induction d as [|d IH] using Pos.peano_ind.
  - simpl. lia.
  - rewrite Pos.iter_succ, Pos2Z.inj_xO, IH, Pos2Z.inj_succ, Z.pow_succ_r by lia. lia.
Qed.

Lemma shl_align_value (m : positive) (e e' : Z) :
  IZR (Zpos (fst (shl_align m e e'))) * powerRZ 2 (snd (shl_align m e e'))
  = IZR (Zpos m) * powerRZ 2 e.
Proof.
  unfold shl_align. destruct (e' - e)%Z as [|d|d] eqn:Hd; cbn [fst snd]; try reflexivity.
  rewrite iter_xO_value, mult_IZR, two_pow_IZR by lia.
  rewrite Rmult_assoc, <- two_pow_add. do 2 f_equal. lia.
Qed.

Lemma shl_align_min (m : positive) (e e' : Z) :
  (e' <= e)%Z ->
  IZR (Zpos (fst (shl_align m e e'))) * powerRZ 2 e' = IZR (Zpos m) * powerRZ 2 e.
Proof.
  intros Hle. rewrite <- (shl_align_value m e e'). f_equal. f_equal.
  unfold shl_align. destruct (e' - e)%Z as [|d|d] eqn:Hd; cbn [snd]; lia.
Qed.

Lemma binary_round_value (s : bool) (m : positive) (e : Z) :
  IZR (Zpos m) * powerRZ 2 e < 16 ->
  SFfinite (binary_round 53 1024 s m e) = true /\
  Rabs (SF2R (binary_round 53 1024 s m e) - signed s (IZR (Zpos m) * powerRZ 2 e))
  <= powerRZ 2 (-47).
Proof.
  intros Hv. unfold binary_round.
  pose proof (shl_align_value m e (fexp 53 1024 (Z.pos (digits2_pos m) + e))) as Hs.
  destruct (shl_align m e (fexp 53 1024 (Z.pos (digits2_pos m) + e))) as [mz ez].
  cbn [fst snd] in Hs. rewrite <- Hs in *. now apply binary_round_aux_value.
Qed.

Lemma binary_normalize_value (z e : Z) (szero : bool) :
  Rabs (IZR z * powerRZ 2 e) < 16 ->
  SFfinite (binary_normalize 53 1024 z e szero) = true /\
  Rabs (SF2R (binary_normalize 53 1024 z e szero) - IZR z * powerRZ 2 e) <= powerRZ 2 (-47).
Proof.
  intros Hv. pose proof (two_pow_pos e) as He.
  destruct z as [|m|m]; cbn [binary_normalize].
  - cbn [SFfinite SF2R]. split; [reflexivity|].
    rewrite Rmult_0_l, Rminus_diag, Rabs_R0. apply Rlt_le, two_pow_pos.
  - apply (@binary_round_value false m e).
    apply Rabs_def2 in Hv. lra.
  - replace (IZR (Z.neg m) * powerRZ 2 e) with (signed true (IZR (Zpos m) * powerRZ 2 e))
      by (change (Z.neg m) with (- Z.pos m)%Z; rewrite opp_IZR; simpl; lra).
    apply binary_round_value.
    change (Z.neg m) with (- Z.pos m)%Z in Hv. rewrite opp_IZR in Hv.
    apply Rabs_def2 in Hv. lra.
Qed.

Lemma signed_xorb (sx sy : bool) (a b : R) :
  signed (xorb sx sy) (a * b) = signed sx a * signed sy b.
Proof. destruct sx, sy; simpl; lra. Qed.

Lemma SF2R_abs_finite (s : bool) (m : positive) (e : Z) :
  Rabs (SF2R (S754_finite s m e)) = IZR (Zpos m) * powerRZ 2 e.
Proof.
  cbn [SF2R]. rewrite signed_abs. apply Rabs_pos_eq.
  apply Rmult_le_pos; [apply IZR_le; lia|apply Rlt_le, two_pow_pos].
Qed.

Lemma SFmul_value (x y : spec_float) :
  SFfinite x = true -> SFfinite y = true ->
  Rabs (SF2R x) <= 3 -> Rabs (SF2R y) <= 3 ->
  SFfinite (SFmul 53 1024 x y) = true /\
  Rabs (SF2R (SFmul 53 1024 x y) - SF2R x * SF2R y) <= powerRZ 2 (-47).
Proof.
  intros Fx Fy Hx Hy.
  assert (Hz : forall sz, SFfinite (S754_zero sz) = true /\
                          Rabs (SF2R (S754_zero sz) - 0) <= powerRZ 2 (-47)).
  { intros sz. split; [reflexivity|]. cbn [SF2R].
    rewrite Rminus_diag, Rabs_R0. apply Rlt_le, two_pow_pos. }
  destruct x as [sx|sx| |sx mx ex], y as [sy|sy| |sy my ey]; try discriminate;
    cbn [SFmul].
  - cbn [SF2R]. rewrite Rmult_0_l. apply Hz.
  - cbn [SF2R]. rewrite Rmult_0_l. apply Hz.
  - cbn [SF2R]. rewrite Rmult_0_r. apply Hz.
  - rewrite SF2R_abs_finite in Hx, Hy.
    assert (Hp : IZR (Zpos (mx * my)) * powerRZ 2 (ex + ey)
                 = (IZR (Zpos mx) * powerRZ 2 ex) * (IZR (Zpos my) * powerRZ 2 ey)).
    { rewrite Pos2Z.inj_mul, mult_IZR, two_pow_add. ring. }
    pose proof (two_pow_pos ex). pose proof (two_pow_pos ey).
    assert (0 < IZR (Zpos mx)) by (apply IZR_lt; lia).
    assert (0 < IZR (Zpos my)) by (apply IZR_lt; lia).
    cbn [SF2R]. rewrite <- signed_xorb, <- Hp.
    apply binary_round_aux_value. rewrite Hp.
    assert (HX : 0 < IZR (Zpos mx) * powerRZ 2 ex) by (now apply Rmult_lt_0_compat).
    assert (HY : 0 < IZR (Zpos my) * powerRZ 2 ey) by (now apply Rmult_lt_0_compat).
    revert Hx Hy HX HY.
    generalize (IZR (Zpos mx) * powerRZ 2 ex), (IZR (Zpos my) * powerRZ 2 ey).
    intros X Y ? ? ? ?. nra.
Qed.

Lemma cond_Zopp_value (s : bool) (z : Z) : IZR (cond_Zopp s z) = signed s (IZR z).
Proof. destruct s; simpl; [apply opp_IZR|reflexivity]. Qed.

Lemma signed_scale (s : bool) (a b : R) : signed s a * b = signed s (a * b).
Proof. destruct s; simpl; lra. Qed.

Lemma SFadd_value (x y : spec_float) :
  SFfinite x = true -> SFfinite y = true ->
  Rabs (SF2R x) <= 4 -> Rabs (SF2R y) <= 4 ->
  SFfinite (SFadd 53 1024 x y) = true /\
  Rabs (SF2R (SFadd 53 1024 x y) - (SF2R x + SF2R y)) <= powerRZ 2 (-47).
Proof.
  intros Fx Fy Hx Hy.
  assert (Hexact : forall z t, SFfinite z = true -> SF2R z = t ->
                     SFfinite z = true /\ Rabs (SF2R z - t) <= powerRZ 2 (-47)).
  { intros z t Hf <-. split; [assumption|].
    rewrite Rminus_diag, Rabs_R0. apply Rlt_le, two_pow_pos. }
  destruct x as [sx|sx| |sx mx ex], y as [sy|sy| |sy my ey]; try discriminate;
    cbn [SFadd].
  - destruct sx, sy; apply Hexact; try reflexivity; cbn [SF2R]; lra.
  - apply Hexact; [reflexivity|]. cbn [SF2R]. lra.
  - apply Hexact; [reflexivity|]. cbn [SF2R]. lra.
  - cbv zeta.
    set (ez := Z.min ex ey).
    set (z := (cond_Zopp sx (Z.pos (fst (shl_align mx ex ez)))
               + cond_Zopp sy (Z.pos (fst (shl_align my ey ez))))%Z).
    assert (Hsum : IZR z * powerRZ 2 ez
                   = SF2R (S754_finite sx mx ex) + SF2R (S754_finite sy my ey)).
    { unfold z. rewrite plus_IZR, !cond_Zopp_value, Rmult_plus_distr_r, !signed_scale.
      rewrite !shl_align_min by (unfold ez; lia). reflexivity. }
    rewrite <- Hsum. apply binary_normalize_value. rewrite Hsum.
    apply Rle_lt_trans with (1 := Rabs_triang _ _). lra.
Qed.

Lemma SFsub_value (x y : spec_float) :
  SFfinite x = true -> SFfinite y = true ->
  Rabs (SF2R x) <= 4 -> Rabs (SF2R y) <= 4 ->
  SFfinite (SFsub 53 1024 x y) = true /\
  Rabs (SF2R (SFsub 53 1024 x y) - (SF2R x - SF2R y)) <= powerRZ 2 (-47).
Proof.
  intros Fx Fy Hx Hy.
  assert (Hexact : forall z t, SFfinite z = true -> SF2R z = t ->
                     SFfinite z = true /\ Rabs (SF2R z - t) <= powerRZ 2 (-47)).
  { intros z t Hf <-. split; [assumption|].
    rewrite Rminus_diag, Rabs_R0. apply Rlt_le, two_pow_pos. }
  destruct x as [sx|sx| |sx mx ex], y as [sy|sy| |sy my ey]; try discriminate;
    cbn [SFsub].
  - destruct sx, sy; apply Hexact; try reflexivity; cbn [SF2R]; lra.
  - apply Hexact; [reflexivity|]. cbn [SF2R]. destruct sy; simpl; lra.
  - apply Hexact; [reflexivity|]. cbn [SF2R]. lra.
  - cbv zeta.
    set (ez := Z.min ex ey).
    set (z := (cond_Zopp sx (Z.pos (fst (shl_align mx ex ez)))
               - cond_Zopp sy (Z.pos (fst (shl_align my ey ez))))%Z).
    assert (Hsum : IZR z * powerRZ 2 ez
                   = SF2R (S754_finite sx mx ex) - SF2R (S754_finite sy my ey)).
    { unfold z. rewrite minus_IZR, !cond_Zopp_value, Rmult_minus_distr_r, !signed_scale.
      rewrite !shl_align_min by (unfold ez; lia). reflexivity. }
    rewrite <- Hsum. apply binary_normalize_value. rewrite Hsum.
    apply Rle_lt_trans with (1 := Rabs_triang _ _). rewrite Rabs_Ropp. lra.
Qed.

Lemma two_pow_47 : powerRZ 2 (-47) <= 1 / 100000000000000.
Proof.
  change (-47)%Z with (- (47))%Z. rewrite powerRZ_neg', <- two_pow_IZR by lia.
  change (2 ^ 47)%Z with 140737488355328%Z. lra.
Qed.

Lemma float_mul_value (x y : float) :
  isFinite x = true -> isFinite y = true ->
  Rabs (realOf x) <= 3 -> Rabs (realOf y) <= 3 ->
  isFinite (PrimFloat.mul x y) = true /\
  Rabs (realOf (PrimFloat.mul x y) - realOf x * realOf y) <= 1 / 100000000000000.
Proof.
  unfold isFinite, realOf. intros Fx Fy Hx Hy. rewrite mul_spec.
  destruct (SFmul_value _ _ Fx Fy Hx Hy) as [Hf Hv]. split; [exact Hf|].
  apply Rle_trans with (1 := Hv), two_pow_47.
Qed.

Lemma float_add_value (x y : float) :
  isFinite x = true -> isFinite y = true ->
  Rabs (realOf x) <= 4 -> Rabs (realOf y) <= 4 ->
  isFinite (PrimFloat.add x y) = true /\
  Rabs (realOf (PrimFloat.add x y) - (realOf x + realOf y)) <= 1 / 100000000000000.
Proof.
  unfold isFinite, realOf. intros Fx Fy Hx Hy. rewrite add_spec.
  destruct (SFadd_value _ _ Fx Fy Hx Hy) as [Hf Hv]. split; [exact Hf|].
  apply Rle_trans with (1 := Hv), two_pow_47.
Qed.

Lemma float_sub_value (x y : float) :
  isFinite x = true -> isFinite y = true ->
  Rabs (realOf x) <= 4 -> Rabs (realOf y) <= 4 ->
  isFinite (PrimFloat.sub x y) = true /\
  Rabs (realOf (PrimFloat.sub x y) - (realOf x - realOf y)) <= 1 / 100000000000000.
Proof.
  unfold isFinite, realOf. intros Fx Fy Hx Hy. rewrite sub_spec.
  destruct (SFsub_value _ _ Fx Fy Hx Hy) as [Hf Hv]. split; [exact Hf|].
  apply Rle_trans with (1 := Hv), two_pow_47.
Qed.

Lemma realOf_zero : isFinite 0%float = true /\ realOf 0%float = 0.
Proof. split; reflexivity. Qed.


(** ** A rotation of nearly orthonormal columns *)

Lemma sumOfSquares_ext (n : nat) (A B : nat -> nat -> R) :
  (forall i j, (i < n)%nat -> (j < n)%nat -> A i j = B i j) ->
  sumOfSquares n A = sumOfSquares n B.
Proof.
  intros H. unfold sumOfSquares. apply bigsum_ext. intros i Hi.
  apply bigsum_ext. intros j Hj. now rewrite H.
Qed.

Lemma sumOfSquares_transpose (n : nat) (A : nat -> nat -> R) :
  sumOfSquares n (fun a b => A b a) = sumOfSquares n A.
Proof. unfold sumOfSquares. apply (bigsum_swap (fun a b => A b a * A b a)). Qed.

Lemma bigsum_le (f g : nat -> R) (n : nat) :
  (forall i, (i < n)%nat -> f i <= g i) -> bigsum f n <= bigsum g n.
Proof.
  induction n as [|n IH]; intros H; [unfold bigsum; simpl; lra|].
  rewrite !bigsum_S. pose proof (H n (Nat.lt_succ_diag_r n)).
  assert (bigsum f n <= bigsum g n) by (apply IH; intros; apply H; lia). lra.
Qed.

Lemma bigsum_const (c : R) (n : nat) : bigsum (fun _ => c) n = INR n * c.
Proof.
  induction n as [|n IH]; [unfold bigsum; simpl; lra|].
  rewrite bigsum_S, IH, S_INR. ring.
Qed.

Lemma sumOfSquares_nonneg (n : nat) (A : nat -> nat -> R) : 0 <= sumOfSquares n A.
Proof.
  unfold sumOfSquares. apply bigsum_nonneg. intros i _.
  apply bigsum_nonneg. intros j _. nra.
Qed.

Lemma sumOfSquares_entry (n : nat) (A : nat -> nat -> R) (i j : nat) :
  (i < n)%nat -> (j < n)%nat -> A i j * A i j <= sumOfSquares n A.
Proof.
  intros Hi Hj. unfold sumOfSquares.
  apply Rle_trans with (bigsum (fun j => A i j * A i j) n).
  - apply (bigsum_member (fun j => A i j * A i j)); [intros; nra|assumption].
  - apply (bigsum_member (fun i => bigsum (fun j => A i j * A i j) n)); [|assumption].
    intros k _. apply bigsum_nonneg. intros; nra.
Qed.

(** Two members of a sum of squares. *)
Lemma two_squares_le (f : nat -> R) (p q n : nat) :
  p <> q -> (p < n)%nat -> (q < n)%nat ->
  f p * f p + f q * f q <= bigsum (fun j => f j * f j) n.
Proof.
  intros Hpq Hp Hq.
  rewrite (@bigsum_change_two (fun j => f j * f j)
             (fun j => if Nat.eqb j p then 0 else if Nat.eqb j q then 0 else f j * f j)
             p q n); auto.
  - rewrite Nat.eqb_refl. destruct (Nat.eqb_spec q p); [congruence|].
    rewrite Nat.eqb_refl.
    assert (0 <= bigsum (fun j => if Nat.eqb j p then 0
                                  else if Nat.eqb j q then 0 else f j * f j) n).
    { apply bigsum_nonneg. intros j _.
      destruct (Nat.eqb j p), (Nat.eqb j q); nra. }
    lra.
  - intros j Hjp Hjq.
    destruct (Nat.eqb_spec j p), (Nat.eqb_spec j q); try contradiction. reflexivity.
Qed.

(** Mixing two columns multiplies the sum of squares by at most
    [c^2 + s^2]. *)
Lemma sumOfSquares_mixColumns (n p q : nat) (c s t : R) (A : nat -> nat -> R) :
  p <> q -> (p < n)%nat -> (q < n)%nat -> 0 <= t -> c * c + s * s <= 1 + t ->
  sumOfSquares n (mixColumns p q c s A) <= (1 + t) * sumOfSquares n A.
Proof.
  intros Hpq Hp Hq Ht Hcs. unfold sumOfSquares. rewrite <- bigsum_scal.
  apply bigsum_le. intros i Hi.
  rewrite (@bigsum_change_two (fun j => mixColumns p q c s A i j * mixColumns p q c s A i j)
             (fun j => A i j * A i j) p q n); auto.
  - unfold mixColumns. rewrite !Nat.eqb_refl.
    destruct (Nat.eqb_spec q p); [congruence|].
    pose proof (@two_squares_le (A i) p q n Hpq Hp Hq) as Hw.
    assert (0 <= A i p * A i p + A i q * A i q) by nra.
    set (S := bigsum (fun j => A i j * A i j) n) in *.
    assert (E : (c * A i p - s * A i q) * (c * A i p - s * A i q) - A i p * A i p
                + ((s * A i p + c * A i q) * (s * A i p + c * A i q) - A i q * A i q)
                = (c * c + s * s - 1) * (A i p * A i p + A i q * A i q)) by ring.
    nra.
  - intros j Hjp Hjq. unfold mixColumns.
    destruct (Nat.eqb_spec j p), (Nat.eqb_spec j q); try contradiction. reflexivity.
Qed.

Lemma sumOfSquares_mixRows (n p q : nat) (c s t : R) (A : nat -> nat -> R) :
  p <> q -> (p < n)%nat -> (q < n)%nat -> 0 <= t -> c * c + s * s <= 1 + t ->
  sumOfSquares n (mixRows p q c s A) <= (1 + t) * sumOfSquares n A.
Proof.
  intros Hpq Hp Hq Ht Hcs.
  rewrite <- (sumOfSquares_transpose n (mixRows p q c s A)).
  rewrite <- (sumOfSquares_transpose n A).
  now apply sumOfSquares_mixColumns.
Qed.







Lemma Rabs_bound_mult (x y a b : R) : Rabs x <= a -> Rabs y <= b -> Rabs (x * y) <= a * b.
Proof.
  intros Hx Hy. rewrite Rabs_mult.
  pose proof (Rabs_pos x). pose proof (Rabs_pos y). nra.
Qed.




(** ** The accumulator, whatever the Number type *)

Local Close Scope R_scope.

Section AccumulatorCells.
Context {F : Type} {Num : JSNumber F}.







(** The scan of lines 167-178 ends on a pair above the diagonal unless it
    never moved. *)
Lemma pivot_scan (A : list (list F)) (ps : list (nat * nat)) :
  forall st, fold_left (pivotStep A) ps st = st
             \/ In (snd (fst (fold_left (pivotStep A) ps st)),
                    snd (fold_left (pivotStep A) ps st)) ps.
Proof.
  induction ps as [|[i j] t IH]; intros st; simpl; [now left|].
  destruct (IH (pivotStep A st (i, j))) as [Heq|Hin]; [|now right; right].
  rewrite Heq. unfold pivotStep. destruct st as [[mx p] q]. cbn [fst snd].
  destruct (gtb (abs (cell A i j)) mx); [right; now left|now left].
Qed.

Lemma pivot_above_diagonal (n : nat) (A : list (list F)) (mx : F) (p q : nat) :
  ltb (fromZ 0) lit_tol = true ->
  converged n A = false -> findPivot n A = (mx, p, q) -> p < q /\ q < n.
Proof.
  intros Htol Hc Hf. unfold converged in Hc. rewrite Hf in Hc.
  rewrite findPivot_flat in Hf.
  destruct (pivot_scan A (upperTriangle n) (fromZ 0, 0, 0)) as [Heq|Hin].
  - rewrite Heq in Hf. injection Hf as <- _ _. congruence.
  - rewrite Hf in Hin. cbn [fst snd] in Hin. now apply in_upperTriangle in Hin.
Qed.



End AccumulatorCells.

Local Open Scope R_scope.

(** ** The accumulator on doubles *)




Lemma unit_circle_bounds (c s : float) :
  nearUnitCircle c s ->
  Rabs (realOf c) <= 1001 / 1000 /\ Rabs (realOf s) <= 1001 / 1000.
Proof.
  intros (_ & _ & H). apply Rabs_bound in H. split; apply Rabs_le; nra.
Qed.












Lemma zero_below_tolerance : ltb (fromZ 0 : float) lit_tol = true.
Proof. vm_compute. reflexivity. Qed.






Lemma two_pow_53 : powerRZ 2 (-53) = / 9007199254740992.
Proof.
  change (-53)%Z with (- (53))%Z. rewrite powerRZ_neg', <- two_pow_IZR by lia.
  reflexivity.
Qed.

Lemma sample_on_circle :
  nearUnitCircle 0.7071067811865476%float 0.7071067811865475%float.
Proof.
  split; [reflexivity|]. split; [reflexivity|]. unfold realOf.
  replace (Prim2SF 0.7071067811865476%float)
    with (S754_finite false 6369051672525773 (-53)) by reflexivity.
  replace (Prim2SF 0.7071067811865475%float)
    with (S754_finite false 6369051672525772 (-53)) by reflexivity.
  cbn [SF2R signed]. rewrite two_pow_53. apply Rabs_le. lra.
Defined.

Lemma sampleDoubles_square : square (length sampleDoubles) sampleDoubles.
Proof. split; [reflexivity|]. repeat constructor. Defined.

Lemma sampleDoubles_angles (k : nat) :
  (k < iter (jacobiFinal sampleMath sampleDoubles))%nat ->
  let theta := angle sampleMath (length sampleDoubles)
                 (afterRotations sampleMath sampleDoubles k) in
  nearUnitCircle (cos sampleMath theta) (sin sampleMath theta).
Proof.
  replace (iter (jacobiFinal sampleMath sampleDoubles)) with 1%nat
    by (vm_compute; reflexivity).
  intros Hk. assert (k = 0%nat) as -> by lia. cbv zeta.
  replace (angle sampleMath (length sampleDoubles)
             (afterRotations sampleMath sampleDoubles 0))
    with 0.7853981633974483%float by (vm_compute; reflexivity).
  exact sample_on_circle.
Defined.


(** ** The working matrix, whatever the Number type *)

Local Close Scope R_scope.

Section WorkingCells.
Context {F : Type} {Num : JSNumber F}.

Lemma rotateValues_unfolded (n p q : nat) (c s : F) (W : list (list F)) :
  rotateValues n p q c s W =
  let L := fold_left (rotateOffDiagonal p q c s) (seq 0 n) W in
  setCell
    (setCell
       (setCell
          (setCell L p p
             (c :*: c :*: cell L p p :+: s :*: s :*: cell L q q
              :-: fromZ 2 :*: c :*: s :*: cell L p q))
          q q
          (s :*: s :*: cell L p p :+: c :*: c :*: cell L q q
           :+: fromZ 2 :*: c :*: s :*: cell L p q))
       q p (fromZ 0))
    p q (fromZ 0).
Proof. reflexivity. Qed.

Lemma offDiagonal_keeps_square (n p q : nat) (c s : F) (m : list (list F)) (r : nat) :
  square n m -> square n (rotateOffDiagonal p q c s m r).
Proof.
  intros H. unfold rotateOffDiagonal.
  destruct (negb (Nat.eqb r p) && negb (Nat.eqb r q));
    [repeat apply square_setCell|]; assumption.
Qed.

Lemma offDiagonal_elsewhere (p q : nat) (c s : F) (m : list (list F)) (r x y : nat) :
  ~ writtenBy p q r x y -> cell (rotateOffDiagonal p q c s m r) x y = cell m x y.
Proof.
  intros Hn. unfold rotateOffDiagonal.
  destruct (Nat.eqb_spec r p) as [Hrp|Hrp]; [reflexivity|].
  destruct (Nat.eqb_spec r q) as [Hrq|Hrq]; [reflexivity|]. cbn [negb andb].
  unfold writtenBy in Hn.
  rewrite !cell_setCell_neq; [reflexivity| | | |];
    intros Heq; injection Heq as <- <-; apply Hn; auto 10.
Qed.

Lemma offDiagonal_written (n p q : nat) (c s : F) (m : list (list F)) (r : nat) :
  square n m -> p < n -> q < n -> r < n -> p <> q -> r <> p -> r <> q ->
  cell (rotateOffDiagonal p q c s m r) p r = c :*: cell m p r :-: s :*: cell m q r /\
  cell (rotateOffDiagonal p q c s m r) r p = c :*: cell m p r :-: s :*: cell m q r /\
  cell (rotateOffDiagonal p q c s m r) q r = s :*: cell m p r :+: c :*: cell m q r /\
  cell (rotateOffDiagonal p q c s m r) r q = s :*: cell m p r :+: c :*: cell m q r.
Proof.
  intros Hsq Hp Hq Hr Hpq Hrp Hrq. unfold rotateOffDiagonal.
  destruct (Nat.eqb_spec r p) as [|_]; [contradiction|].
  destruct (Nat.eqb_spec r q) as [|_]; [contradiction|]. cbn [negb andb].
  repeat (rewrite cell_setCell with (n := n);
          [|repeat apply square_setCell; assumption|lia|lia]).
  rewrite !Nat.eqb_refl. cbn [andb].
  repeat match goal with
         | |- context [Nat.eqb ?a ?b] => destruct (Nat.eqb_spec a b); try lia
         end; cbn [andb]; repeat split; reflexivity.
Qed.

Lemma offDiagonals_keep_square (n p q : nat) (c s : F) (rs : list nat) :
  forall m, square n m -> square n (fold_left (rotateOffDiagonal p q c s) rs m).
Proof.
  induction rs as [|a t IH]; intros m H; simpl; [assumption|].
  apply IH, offDiagonal_keeps_square, H.
Qed.

Lemma offDiagonals_elsewhere (p q : nat) (c s : F) (rs : list nat) (x y : nat) :
  (forall r, In r rs -> ~ writtenBy p q r x y) ->
  forall m, cell (fold_left (rotateOffDiagonal p q c s) rs m) x y = cell m x y.
Proof.
  induction rs as [|a t IH]; intros Hn m; simpl; [reflexivity|].
  rewrite IH by (intros; apply Hn; now right).
  apply offDiagonal_elsewhere, Hn. now left.
Qed.

Lemma offDiagonals_written (n p q : nat) (c s : F) (W : list (list F)) (r : nat) :
  square n W -> p < n -> q < n -> r < n -> p <> q -> r <> p -> r <> q ->
  let L := fold_left (rotateOffDiagonal p q c s) (seq 0 n) W in
  cell L p r = c :*: cell W p r :-: s :*: cell W q r /\
  cell L r p = c :*: cell W p r :-: s :*: cell W q r /\
  cell L q r = s :*: cell W p r :+: c :*: cell W q r /\
  cell L r q = s :*: cell W p r :+: c :*: cell W q r.
Proof.
  intros Hsq Hp Hq Hr Hpq Hrp Hrq L.
  assert (Hin : In r (seq 0 n)) by (apply in_seq; lia).
  destruct (in_split _ _ Hin) as (l1 & l2 & Hsplit).
  assert (Hnd : NoDup (l1 ++ r :: l2)) by (rewrite <- Hsplit; apply seq_NoDup).
  assert (Hr1 : ~ In r l1)
    by (intro; apply NoDup_remove_2 in Hnd; apply Hnd, in_or_app; now left).
  assert (Hr2 : ~ In r l2)
    by (intro; apply NoDup_remove_2 in Hnd; apply Hnd, in_or_app; now right).
  assert (Hother : forall l x y,
             ~ In r l -> (x = r \/ y = r) ->
             forall r', In r' l -> ~ writtenBy p q r' x y).
  { intros l x y Hl Hxy r' Hr' (H1 & H2 & H3).
    assert (r' <> r) by (intros ->; contradiction). lia. }
  subst L. rewrite Hsplit, fold_left_app. cbn [fold_left].
  set (m1 := fold_left (rotateOffDiagonal p q c s) l1 W).
  assert (Hm1 : square n m1) by (now apply offDiagonals_keep_square).
  destruct (@offDiagonal_written n p q c s m1 r) as (H1 & H2 & H3 & H4); auto.
  assert (Epr : cell m1 p r = cell W p r)
    by (apply offDiagonals_elsewhere, Hother; auto).
  assert (Eqr : cell m1 q r = cell W q r)
    by (apply offDiagonals_elsewhere, Hother; auto).
  rewrite !(@offDiagonals_elsewhere p q c s l2) by (apply Hother; auto).
  rewrite H1, H2, H3, H4, Epr, Eqr. repeat split; reflexivity.
Qed.

(** What lines 187-204 leave in a cell, whatever the Number type. *)
Lemma rotateValues_written (n p q : nat) (c s : F) (W : list (list F)) (i j : nat) :
  square n W -> p < n -> q < n -> p <> q -> i < n -> j < n ->
  cell (rotateValues n p q c s W) i j = rotatedEntry p q c s W i j.
Proof.
  intros Hsq Hp Hq Hpq Hi Hj. rewrite rotateValues_unfolded. cbv zeta.
  set (L := fold_left (rotateOffDiagonal p q c s) (seq 0 n) W).
  assert (HL : square n L) by (now apply offDiagonals_keep_square).
  assert (Hkeep : forall x y, ((x = p \/ x = q) /\ (y = p \/ y = q))
                              \/ (x <> p /\ x <> q /\ y <> p /\ y <> q) ->
                              cell L x y = cell W x y).
  { intros x y Hxy. apply offDiagonals_elsewhere.
    intros r _ (H1 & H2 & H3). lia. }
  repeat (rewrite cell_setCell with (n := n);
          [|repeat apply square_setCell; assumption|lia|lia]).
  rewrite !(Hkeep p p), !(Hkeep q q), !(Hkeep p q) by lia.
  unfold rotatedEntry.
  destruct (Nat.eqb_spec i p) as [Hip|Hip]; destruct (Nat.eqb_spec i q) as [Hiq|Hiq];
    destruct (Nat.eqb_spec j p) as [Hjp|Hjp]; destruct (Nat.eqb_spec j q) as [Hjq|Hjq];
    try lia; cbn [andb]; try reflexivity.
  - destruct (@offDiagonals_written n p q c s W j) as (H1 & H2 & H3 & H4); auto.
    rewrite Hip. exact H1.
  - destruct (@offDiagonals_written n p q c s W j) as (H1 & H2 & H3 & H4); auto.
    rewrite Hiq. exact H3.
  - destruct (@offDiagonals_written n p q c s W i) as (H1 & H2 & H3 & H4); auto.
    rewrite Hjp. exact H2.
  - destruct (@offDiagonals_written n p q c s W i) as (H1 & H2 & H3 & H4); auto.
    rewrite Hjq. exact H4.
  - apply Hkeep. lia.
Qed.

Lemma rotate_work (M : MathLib F) (n : nat) (st : JacobiState) (mx : F) (p q : nat) :
  findPivot n (work st) = (mx, p, q) ->
  work (rotate M n st)
  = rotateValues n p q (cos M (angle M n st)) (sin M (angle M n st)) (work st).
Proof. intros Hf. unfold rotate, angle. rewrite Hf. reflexivity. Qed.

(** The eigenvalues read out are the diagonal of the working matrix, in
    another order. *)
Lemma readOut_values (st : JacobiState) :
  Permutation (diagonal (work st)) (values (readOut st)).
Proof.
  unfold readOut. cbn [values]. set (ev := diagonal (work st)).
  rewrite <- (map_at_seq ev) at 1.
  apply Permutation_map, sortedIndices_perm.
Qed.

End WorkingCells.

Local Open Scope R_scope.

(** ** The working matrix on doubles *)

Lemma approximates_itself (x : float) (b : R) :
  isFinite x = true -> Rabs (realOf x) <= b -> approximates x (realOf x) 0 b.
Proof.
  intros Hf Hb. split; [assumption|]. split; [|assumption].
  rewrite Rminus_diag, Rabs_R0. lra.
Qed.

Lemma approximates_bound (x : float) (r e b : R) :
  approximates x r e b -> 0 <= e /\ 0 <= b /\ Rabs (realOf x) <= b + e.
Proof.
  intros (_ & He & Hb).
  pose proof (Rabs_pos (realOf x - r)). pose proof (Rabs_pos r).
  split; [lra|]. split; [lra|].
  apply Rabs_bound in He, Hb. apply Rabs_le. lra.
Qed.

Lemma approximates_mul (x y : float) (r1 r2 e1 e2 b1 b2 e b : R) :
  approximates x r1 e1 b1 -> approximates y r2 e2 b2 ->
  b1 + e1 <= 3 -> b2 + e2 <= 3 ->
  1 / 100000000000000 + e1 * (b2 + e2) + b1 * e2 <= e -> b1 * b2 <= b ->
  approximates (PrimFloat.mul x y) (r1 * r2) e b.
Proof.
  intros Hx Hy H1 H2 He Hb.
  destruct (approximates_bound Hx) as (He1 & Hb1 & Bx).
  destruct (approximates_bound Hy) as (He2 & Hb2 & By).
  destruct Hx as (Fx & Ex & Rx), Hy as (Fy & Ey & Ry).
  destruct (@float_mul_value x y Fx Fy) as [Ff Hv]; [lra|lra|].
  split; [exact Ff|]. split.
  - replace (realOf (PrimFloat.mul x y) - r1 * r2)
      with ((realOf (PrimFloat.mul x y) - realOf x * realOf y)
            + ((realOf x - r1) * realOf y + r1 * (realOf y - r2))) by ring.
    apply Rle_trans with (1 := Rabs_triang _ _).
    pose proof (Rabs_triang ((realOf x - r1) * realOf y) (r1 * (realOf y - r2))).
    pose proof (@Rabs_bound_mult _ _ _ _ Ex By).
    pose proof (@Rabs_bound_mult _ _ _ _ Rx Ey). lra.
  - apply Rle_trans with (2 := Hb). now apply Rabs_bound_mult.
Qed.

Lemma approximates_add (x y : float) (r1 r2 e1 e2 b1 b2 e b : R) :
  approximates x r1 e1 b1 -> approximates y r2 e2 b2 ->
  b1 + e1 <= 4 -> b2 + e2 <= 4 ->
  1 / 100000000000000 + e1 + e2 <= e -> b1 + b2 <= b ->
  approximates (PrimFloat.add x y) (r1 + r2) e b.
Proof.
  intros Hx Hy H1 H2 He Hb.
  destruct (approximates_bound Hx) as (He1 & Hb1 & Bx).
  destruct (approximates_bound Hy) as (He2 & Hb2 & By).
  destruct Hx as (Fx & Ex & Rx), Hy as (Fy & Ey & Ry).
  destruct (@float_add_value x y Fx Fy) as [Ff Hv]; [lra|lra|].
  split; [exact Ff|].
  apply Rabs_bound in Hv, Ex, Ey, Rx, Ry. split; apply Rabs_le; lra.
Qed.

Lemma approximates_sub (x y : float) (r1 r2 e1 e2 b1 b2 e b : R) :
  approximates x r1 e1 b1 -> approximates y r2 e2 b2 ->
  b1 + e1 <= 4 -> b2 + e2 <= 4 ->
  1 / 100000000000000 + e1 + e2 <= e -> b1 + b2 <= b ->
  approximates (PrimFloat.sub x y) (r1 - r2) e b.
Proof.
  intros Hx Hy H1 H2 He Hb.
  destruct (approximates_bound Hx) as (He1 & Hb1 & Bx).
  destruct (approximates_bound Hy) as (He2 & Hb2 & By).
  destruct Hx as (Fx & Ex & Rx), Hy as (Fy & Ey & Ry).
  destruct (@float_sub_value x y Fx Fy) as [Ff Hv]; [lra|lra|].
  split; [exact Ff|].
  apply Rabs_bound in Hv, Ex, Ey, Rx, Ry. split; apply Rabs_le; lra.
Qed.

Lemma realOf_two : isFinite 2%float = true /\ realOf 2%float = 2.
Proof.
  split; [reflexivity|]. unfold realOf.
  replace (Prim2SF 2%float) with (S754_finite false 4503599627370496 (-51)) by reflexivity.
  cbn [SF2R signed]. change (-51)%Z with (- (51))%Z.
  rewrite powerRZ_neg', <- two_pow_IZR by lia.
  change (2 ^ 51)%Z with 2251799813685248%Z. field.
Qed.

(** The entries of lines 189-192 and 199-201 on doubles: each is within
    [1e-13] of what exact arithmetic gives on the values held. *)
Lemma rotated_doubles (c s t1 t2 t3 : float) :
  approximates c (realOf c) 0 (1001 / 1000) ->
  approximates s (realOf s) 0 (1001 / 1000) ->
  approximates t1 (realOf t1) 0 (105 / 100) ->
  approximates t2 (realOf t2) 0 (105 / 100) ->
  approximates t3 (realOf t3) 0 (105 / 100) ->
  approximates (PrimFloat.sub (PrimFloat.mul c t1) (PrimFloat.mul s t2))
    (realOf c * realOf t1 - realOf s * realOf t2) (1 / 10000000000000) 3 /\
  approximates (PrimFloat.add (PrimFloat.mul s t1) (PrimFloat.mul c t2))
    (realOf s * realOf t1 + realOf c * realOf t2) (1 / 10000000000000) 3 /\
  approximates
    (PrimFloat.sub
       (PrimFloat.add (PrimFloat.mul (PrimFloat.mul c c) t1)
                      (PrimFloat.mul (PrimFloat.mul s s) t2))
       (PrimFloat.mul (PrimFloat.mul (PrimFloat.mul 2 c) s) t3))
    (realOf c * realOf c * realOf t1 + realOf s * realOf s * realOf t2
     - 2 * realOf c * realOf s * realOf t3) (1 / 10000000000000) 5 /\
  approximates
    (PrimFloat.add
       (PrimFloat.add (PrimFloat.mul (PrimFloat.mul s s) t1)
                      (PrimFloat.mul (PrimFloat.mul c c) t2))
       (PrimFloat.mul (PrimFloat.mul (PrimFloat.mul 2 c) s) t3))
    (realOf s * realOf s * realOf t1 + realOf c * realOf c * realOf t2
     + 2 * realOf c * realOf s * realOf t3) (1 / 10000000000000) 5.
Proof.
  intros Hc Hs H1 H2 H3.
  assert (Htwo : approximates 2 2 0 2).
  { destruct realOf_two as [Hf Hv]. rewrite <- Hv at 1.
    apply approximates_itself; [exact Hf|]. rewrite Hv, Rabs_pos_eq; lra. }
  assert (Hct1 := @approximates_mul c t1 _ _ _ _ _ _ (3 / 100000000000000) (11 / 10)
                    Hc H1 ltac:(lra) ltac:(lra) ltac:(lra) ltac:(lra)).
  assert (Hst2 := @approximates_mul s t2 _ _ _ _ _ _ (3 / 100000000000000) (11 / 10)
                    Hs H2 ltac:(lra) ltac:(lra) ltac:(lra) ltac:(lra)).
  assert (Hst1 := @approximates_mul s t1 _ _ _ _ _ _ (3 / 100000000000000) (11 / 10)
                    Hs H1 ltac:(lra) ltac:(lra) ltac:(lra) ltac:(lra)).
  assert (Hct2 := @approximates_mul c t2 _ _ _ _ _ _ (3 / 100000000000000) (11 / 10)
                    Hc H2 ltac:(lra) ltac:(lra) ltac:(lra) ltac:(lra)).
  assert (Hcc := @approximates_mul c c _ _ _ _ _ _ (1 / 100000000000000) (10021 / 10000)
                   Hc Hc ltac:(lra) ltac:(lra) ltac:(lra) ltac:(lra)).
  assert (Hss := @approximates_mul s s _ _ _ _ _ _ (1 / 100000000000000) (10021 / 10000)
                   Hs Hs ltac:(lra) ltac:(lra) ltac:(lra) ltac:(lra)).
  assert (Hcct1 := @approximates_mul _ t1 _ _ _ _ _ _ (21 / 1000000000000000) (1053 / 1000)
                     Hcc H1 ltac:(lra) ltac:(lra) ltac:(lra) ltac:(lra)).
  assert (Hsst2 := @approximates_mul _ t2 _ _ _ _ _ _ (21 / 1000000000000000) (1053 / 1000)
                     Hss H2 ltac:(lra) ltac:(lra) ltac:(lra) ltac:(lra)).
  assert (Hsst1 := @approximates_mul _ t1 _ _ _ _ _ _ (21 / 1000000000000000) (1053 / 1000)
                     Hss H1 ltac:(lra) ltac:(lra) ltac:(lra) ltac:(lra)).
  assert (Hcct2 := @approximates_mul _ t2 _ _ _ _ _ _ (21 / 1000000000000000) (1053 / 1000)
                     Hcc H2 ltac:(lra) ltac:(lra) ltac:(lra) ltac:(lra)).
  assert (H2c := @approximates_mul 2 c _ _ _ _ _ _ (1 / 100000000000000) (2002 / 1000)
                   Htwo Hc ltac:(lra) ltac:(lra) ltac:(lra) ltac:(lra)).
  assert (H2cs := @approximates_mul _ s _ _ _ _ _ _ (21 / 1000000000000000) (2005 / 1000)
                    H2c Hs ltac:(lra) ltac:(lra) ltac:(lra) ltac:(lra)).
  assert (H2cst := @approximates_mul _ t3 _ _ _ _ _ _ (33 / 1000000000000000) (2106 / 1000)
                     H2cs H3 ltac:(lra) ltac:(lra) ltac:(lra) ltac:(lra)).
  assert (Hp := @approximates_add _ _ _ _ _ _ _ _ (52 / 1000000000000000) (2106 / 1000)
                  Hcct1 Hsst2 ltac:(lra) ltac:(lra) ltac:(lra) ltac:(lra)).
  assert (Hq := @approximates_add _ _ _ _ _ _ _ _ (52 / 1000000000000000) (2106 / 1000)
                  Hsst1 Hcct2 ltac:(lra) ltac:(lra) ltac:(lra) ltac:(lra)).
  split; [|split; [|split]].
  - apply (approximates_sub Hct1 Hst2); lra.
  - apply (approximates_add Hst1 Hct2); lra.
  - apply (approximates_sub Hp H2cst); lra.
  - apply (approximates_add Hq H2cst); lra.
Qed.

Lemma entry_bounded (n : nat) (X : nat -> nat -> R) (i j : nat) :
  sumOfSquares n X <= 11 / 10 -> (i < n)%nat -> (j < n)%nat -> Rabs (X i j) <= 105 / 100.
Proof.
  intros HS Hi Hj. pose proof (@sumOfSquares_entry n X i j Hi Hj).
  apply Rabs_le. nra.
Qed.

(** Lines 187-204 on doubles: every entry stays finite and is within
    [1e-13] of the exact rotation of the values held before. *)
Lemma rotateValues_doubles (n p q : nat) (c s : float) (W : list (list float)) :
  square n W -> allFinite n W -> sumOfSquares n (realCells W) <= 11 / 10 ->
  (p < n)%nat -> (q < n)%nat -> p <> q -> nearUnitCircle c s ->
  forall i j, (i < n)%nat -> (j < n)%nat ->
              isFinite (cell (rotateValues n p q c s W) i j) = true /\
              Rabs (realCells (rotateValues n p q c s W) i j
                    - rotatedCells p q (realOf c) (realOf s) (realCells W) i j)
              <= 1 / 10000000000000.
Proof.
  intros Hsq Hfin HS Hp Hq Hpq Hcs i j Hi Hj.
  destruct (unit_circle_bounds Hcs) as [Bc Bs]. destruct Hcs as (Fc & Fs & _).
  assert (Hc := approximates_itself c Fc Bc).
  assert (Hs := approximates_itself s Fs Bs).
  assert (Hcell : forall a b, (a < n)%nat -> (b < n)%nat ->
                              approximates (cell W a b) (realOf (cell W a b)) 0 (105 / 100)).
  { intros a b Ha Hb. apply approximates_itself; [now apply Hfin|].
    apply (@entry_bounded n (realCells W) a b HS Ha Hb). }
  assert (Hzero : isFinite (fromZ 0 : float) = true /\
                  Rabs (realOf (fromZ 0 : float) - 0) <= 1 / 10000000000000).
  { change (fromZ 0 : float) with 0%float. split; [reflexivity|].
    rewrite (proj2 realOf_zero), Rminus_diag, Rabs_R0. lra. }
  assert (Hsame : isFinite (cell W i j) = true /\
                  Rabs (realOf (cell W i j) - realOf (cell W i j)) <= 1 / 10000000000000).
  { split; [now apply Hfin|]. rewrite Rminus_diag, Rabs_R0. lra. }
  unfold realCells. rewrite rotateValues_written with (n := n) by assumption.
  unfold rotatedEntry, rotatedCells.
  destruct (@rotated_doubles c s (cell W p p) (cell W q q) (cell W p q) Hc Hs
              (Hcell p p Hp Hp) (Hcell q q Hq Hq) (Hcell p q Hp Hq))
    as (_ & _ & (FP & EP & _) & (FQ & EQ & _)).
  destruct (@rotated_doubles c s (cell W p j) (cell W q j) (cell W p j) Hc Hs
              (Hcell p j Hp Hj) (Hcell q j Hq Hj) (Hcell p j Hp Hj))
    as ((F1 & E1 & _) & (F2 & E2 & _) & _).
  destruct (@rotated_doubles c s (cell W p i) (cell W q i) (cell W p i) Hc Hs
              (Hcell p i Hp Hi) (Hcell q i Hq Hi) (Hcell p i Hp Hi))
    as ((F3 & E3 & _) & (F4 & E4 & _) & _).
  change (fromZ 2 : float) with 2%float.
  destruct (Nat.eqb i p), (Nat.eqb i q), (Nat.eqb j p), (Nat.eqb j q);
    first [exact Hzero | exact Hsame | split; assumption].
Qed.

(** For a symmetric matrix the exact rotation of lines 187-204 is the
    matrix rotated on both sides, with the entry the angle annihilates
    written as 0. *)
Lemma rotatedCells_mixed (n p q : nat) (c s : R) (X : nat -> nat -> R) (i j : nat) :
  p <> q -> (p < n)%nat -> (q < n)%nat -> (i < n)%nat -> (j < n)%nat ->
  (forall a b, (a < n)%nat -> (b < n)%nat -> X a b = X b a) ->
  rotatedCells p q c s X i j = mixRows p q c s (mixColumns p q c s X) i j
  \/ rotatedCells p q c s X i j = 0.
Proof.
  intros Hpq Hp Hq Hi Hj Hsym.
  unfold rotatedCells, mixRows, mixColumns.
  destruct (Nat.eqb_spec i p) as [->|Hip], (Nat.eqb_spec j p) as [->|Hjp];
    rewrite ?Nat.eqb_refl;
    try (destruct (Nat.eqb_spec q p) as [|_]; [congruence|]);
    try (destruct (Nat.eqb_spec p q) as [|_]; [congruence|]);
    try (destruct (Nat.eqb_spec i q) as [->|Hiq]);
    try (destruct (Nat.eqb_spec j q) as [->|Hjq]);
    rewrite ?Nat.eqb_refl;
    try (destruct (Nat.eqb_spec q p) as [|_]; [congruence|]);
    try (destruct (Nat.eqb_spec p q) as [|_]; [congruence|]);
    try (now right); left;
    rewrite ?(Hsym q p), ?(Hsym i p), ?(Hsym i q) by assumption; ring.
Qed.

Lemma sumOfSquares_rotatedCells (n p q : nat) (c s : R) (X : nat -> nat -> R) :
  p <> q -> (p < n)%nat -> (q < n)%nat ->
  (forall a b, (a < n)%nat -> (b < n)%nat -> X a b = X b a) ->
  Rabs (c * c + s * s - 1) <= 1 / 1000000000000 ->
  sumOfSquares n (rotatedCells p q c s X)
  <= (1 + 1 / 1000000000000) * ((1 + 1 / 1000000000000) * sumOfSquares n X).
Proof.
  intros Hpq Hp Hq Hsym Hcs. apply Rabs_bound in Hcs.
  apply Rle_trans with (sumOfSquares n (mixRows p q c s (mixColumns p q c s X))).
  - unfold sumOfSquares. apply bigsum_le. intros i Hi. apply bigsum_le. intros j Hj.
    destruct (@rotatedCells_mixed n p q c s X i j Hpq Hp Hq Hi Hj Hsym) as [-> | ->];
      [lra|nra].
  - apply Rle_trans with (1 := @sumOfSquares_mixRows n p q c s (1 / 1000000000000) _
                                 Hpq Hp Hq ltac:(lra) ltac:(lra)).
    apply Rmult_le_compat_l; [lra|].
    apply sumOfSquares_mixColumns; auto; lra.
Qed.

(** One pass on the working matrix, on doubles. *)
Lemma working_step (n p q : nat) (c s : float) (W : list (list float)) :
  (n <= 100)%nat ->
  square n W -> symmetric n W -> allFinite n W ->
  sumOfSquares n (realCells W) <= 11 / 10 ->
  (p < n)%nat -> (q < n)%nat -> p <> q -> nearUnitCircle c s ->
  allFinite n (rotateValues n p q c s W) /\
  sumOfSquares n (realCells (rotateValues n p q c s W))
  <= 10011 / 10000 * sumOfSquares n (realCells W) + 1 / 1000000000000000 /\
  Rabs (diagonalSum n (realCells (rotateValues n p q c s W))
        - diagonalSum n (realCells W)) <= 3 / 1000000000000.
Proof.
  intros Hn Hsq Hsym Hfin HS Hp Hq Hpq Hcs.
  pose proof (@rotateValues_doubles n p q c s W Hsq Hfin HS Hp Hq Hpq Hcs) as Hcells.
  assert (HN : 0 <= INR n <= 100).
  { split; [apply pos_INR|]. replace 100 with (INR 100) by (simpl; lra).
    now apply le_INR. }
  assert (Hreal : forall a b, (a < n)%nat -> (b < n)%nat ->
                              realCells W a b = realCells W b a).
  { intros a b Ha Hb. unfold realCells. now rewrite (Hsym a b Ha Hb). }
  destruct Hcs as (_ & _ & Hcircle).
  set (X := realCells W) in *. set (X' := realCells (rotateValues n p q c s W)) in *.
  set (A := rotatedCells p q (realOf c) (realOf s) X) in *.
  split; [intros i j Hi Hj; now apply Hcells|]. split.
  - pose proof (@sumOfSquares_rotatedCells n p q _ _ X Hpq Hp Hq Hreal Hcircle) as HA.
    fold A in HA. pose proof (sumOfSquares_nonneg n A) as HA0.
    pose proof (sumOfSquares_nonneg n X) as HX0.
    apply Rle_trans with
      (bigsum (fun i => bigsum (fun j => 1001 / 1000 * (A i j * A i j)
                                         + 1001 * (1 / 100000000000000000000000000)) n) n).
    + unfold sumOfSquares. apply bigsum_le. intros i Hi. apply bigsum_le. intros j Hj.
      destruct (Hcells i j Hi Hj) as [_ HK]. apply Rabs_bound in HK.
      set (k := X' i j - A i j) in *.
      replace (X' i j) with (A i j + k) by (unfold k; ring).
      assert (Hk2 : k * k <= 1 / 100000000000000000000000000) by nra.
      pose proof (Rle_0_sqr (A i j / 100 - 10 * k)) as Hsq1. unfold Rsqr in Hsq1.
      nra.
    + rewrite bigsum_ext with
        (g := fun i => 1001 / 1000 * bigsum (fun j => A i j * A i j) n
                       + INR n * (1001 * (1 / 100000000000000000000000000))).
      * rewrite bigsum_plus, bigsum_scal, bigsum_const.
        fold (sumOfSquares n A).
        assert (Hnn : INR n * INR n <= 10000) by nra.
        fold (sumOfSquares n X). lra.
      * intros i _. rewrite bigsum_plus, bigsum_scal, bigsum_const. reflexivity.
  - unfold diagonalSum.
    rewrite (@bigsum_change_two (fun i => X' i i) (fun i => X i i) p q n); auto.
    + destruct (Hcells p p Hp Hp) as [_ HP]. destruct (Hcells q q Hq Hq) as [_ HQ].
      fold X' A in HP, HQ. apply Rabs_bound in HP, HQ, Hcircle.
      pose proof (@entry_bounded n X p p HS Hp Hp) as Bp.
      pose proof (@entry_bounded n X q q HS Hq Hq) as Bq.
      apply Rabs_bound in Bp, Bq.
      assert (EA : A p p + A q q
                   = (realOf c * realOf c + realOf s * realOf s) * (X p p + X q q)).
      { unfold A, rotatedCells. rewrite !Nat.eqb_refl.
        destruct (Nat.eqb_spec q p); [congruence|]. ring. }
      apply Rabs_le. nra.
    + intros i Hip Hiq. unfold X', X, realCells.
      destruct (Nat.lt_ge_cases i n) as [Hi|Hi].
      * rewrite rotateValues_written with (n := n) by assumption.
        unfold rotatedEntry.
        destruct (Nat.eqb_spec i p); [contradiction|].
        destruct (Nat.eqb_spec i q); [contradiction|]. reflexivity.
      * unfold cell. rewrite !(nth_overflow _ []); [reflexivity| |].
        -- destruct Hsq as [Hl _]. lia.
        -- destruct (rotateValues_square p q c s Hsq) as [Hl _]. lia.
Qed.

(** The working matrix after [k] passes, when the Math library stayed on
    the unit circle. *)
Lemma working_doubles (M : MathLib float) (matrix : list (list float)) (passes : nat) :
  (length matrix <= 100)%nat -> (passes <= 50)%nat ->
  square (length matrix) matrix -> symmetric (length matrix) matrix ->
  allFinite (length matrix) matrix ->
  sumOfSquares (length matrix) (realCells matrix) <= 1 ->
  (forall k, (k < passes)%nat ->
             converged (length matrix) (work (afterRotations M matrix k)) = false) ->
  (forall k, (k < passes)%nat ->
             let theta := angle M (length matrix) (afterRotations M matrix k) in
             nearUnitCircle (cos M theta) (sin M theta)) ->
  forall k, (k <= passes)%nat ->
            let W := work (afterRotations M matrix k) in
            square (length matrix) W /\ symmetric (length matrix) W /\
            allFinite (length matrix) W /\
            sumOfSquares (length matrix) (realCells W) <= 1 + INR k / 500 /\
            Rabs (diagonalSum (length matrix) (realCells W)
                  - diagonalSum (length matrix) (realCells matrix))
            <= INR k * (3 / 1000000000000).
Proof.
  intros Hn Hcap Hsq Hsym Hfin HS Hrun Hunit. set (n := length matrix) in *.
  induction k as [|k IH]; intros Hk; cbv zeta.
  - unfold afterRotations. cbn [Nat.iter nat_rect initialState work].
    split; [exact Hsq|]. split; [exact Hsym|]. split; [exact Hfin|].
    split; [simpl; lra|]. rewrite Rminus_diag, Rabs_R0. simpl. lra.
  - destruct IH as (Hsq' & Hsym' & Hfin' & HS' & Htr); [lia|].
    assert (Hstep : afterRotations M matrix (S k)
                    = rotate M n (afterRotations M matrix k)) by reflexivity.
    rewrite Hstep. set (st := afterRotations M matrix k) in *.
    destruct (findPivot n (work st)) as [[mx p] q] eqn:Hf.
    destruct (@pivot_above_diagonal _ _ n (work st) mx p q zero_below_tolerance
                (Hrun k ltac:(lia)) Hf) as [Hpq Hq].
    rewrite (@rotate_work _ _ M n st mx p q Hf).
    assert (HK : 0 <= INR k <= 49).
    { split; [apply pos_INR|]. replace 49 with (INR 49) by (simpl; lra).
      apply le_INR. lia. }
    pose proof (Hunit k ltac:(lia)) as Hcs. cbv zeta in Hcs. fold n st in Hcs.
    destruct (@working_step n p q _ _ (work st) Hn Hsq' Hsym' Hfin' ltac:(lra)
                ltac:(lia) Hq ltac:(lia) Hcs) as (Hfin2 & HS2 & Htr2).
    split; [now apply rotateValues_square|].
    split; [apply rotateValues_symmetric; auto; lia|].
    split; [exact Hfin2|]. rewrite S_INR.
    apply Rabs_bound in Htr, Htr2. split; [lra|apply Rabs_le; lra].
Qed.

Lemma diagonal_cells (n : nat) (W : list (list float)) :
  length W = n ->
  map realOf (diagonal W) = map (fun i => realCells W i i) (seq 0 n).
Proof.
  intros Hl. rewrite <- (map_at_seq (diagonal W)), map_map, diagonal_length, Hl.
  apply map_ext_in. intros i Hi. apply in_seq in Hi.
  unfold realCells. rewrite diagonal_at by lia. reflexivity.
Qed.

Lemma diagonal_finite (n : nat) (W : list (list float)) :
  length W = n -> allFinite n W -> Forall (fun x => isFinite x = true) (diagonal W).
Proof.
  intros Hl Hfin. rewrite <- (map_at_seq (diagonal W)), diagonal_length, Hl.
  apply Forall_forall. intros x Hin. apply in_map_iff in Hin as (i & <- & Hi).
  apply in_seq in Hi. rewrite diagonal_at by lia. apply Hfin; lia.
Qed.

(** C1, amended.  On IEEE doubles, for a symmetric input of at most 100
    rows whose entries are finite and have squares that sum to 1 at most:
    when at every pass the cosine and the sine the Math library returned
    were finite and on the unit circle up to 1e-12, the N eigenvalues
    jacobiMethod returns are finite and, added as real numbers, are within
    1e-9 of the trace of the input, whether or not the loop met the
    tolerance before the cap of 50 passes: a pass changes the trace of the
    working matrix by 3e-12 at most. *)
Theorem eigenvalue_sum_doubles (M : MathLib float) (matrix : list (list float)) :
  square (length matrix) matrix -> (length matrix <= 100)%nat ->
  symmetric (length matrix) matrix -> allFinite (length matrix) matrix ->
  sumOfSquares (length matrix) (realCells matrix) <= 1 ->
  (forall k, (k < iter (jacobiFinal M matrix))%nat ->
             let theta := angle M (length matrix) (afterRotations M matrix k) in
             nearUnitCircle (cos M theta) (sin M theta)) ->
  let eigenvalues := values (jacobiMethod M matrix) in
  length eigenvalues = length matrix /\
  Forall (fun x => isFinite x = true) eigenvalues /\
  Rabs (Rsum (map realOf eigenvalues) - Rsum (map realOf (diagonal matrix)))
  <= 1 / 1000000000.
Proof.
  intros Hsq Hn Hsym Hfin HS Hunit eigenvalues. set (n := length matrix) in *.
  destruct (jacobiMethod_lengths M Hsq) as [Hlen _]. split; [exact Hlen|].
  destruct (jacobiLoop_passes M n 50 (initialState matrix))
    as (passes & Hcap & Heq & Hit & Hbefore & _).
  assert (Hfinal : jacobiFinal M matrix = afterRotations M matrix passes) by exact Heq.
  assert (Hpasses : iter (jacobiFinal M matrix) = passes) by exact Hit.
  rewrite Hpasses in Hunit.
  destruct (@working_doubles M matrix passes Hn Hcap Hsq Hsym Hfin HS Hbefore Hunit
              passes (le_n _)) as (HW & _ & HWfin & _ & Htr).
  rewrite <- Hfinal in HW, HWfin, Htr. fold n in HW, HWfin, Htr.
  pose proof (@readOut_values _ _ (jacobiFinal M matrix)) as Hperm.
  fold (jacobiMethod M matrix) in Hperm. fold eigenvalues in Hperm.
  split.
  - apply (Permutation_Forall Hperm). apply diagonal_finite with (n := n); [apply HW|exact HWfin].
  - rewrite <- (Rsum_perm (Permutation_map realOf Hperm)).
    rewrite (@diagonal_cells n _ (proj1 HW)), (@diagonal_cells n matrix eq_refl).
    change (Rsum (map (fun i => realCells ?W i i) (seq 0 n)))
      with (diagonalSum n (realCells W)).
    assert (Hp : INR passes <= 50).
    { replace 50 with (INR 50) by (simpl; lra). now apply le_INR. }
    pose proof (pos_INR passes).
    apply Rle_trans with (1 := Htr). lra.
Qed.

Lemma sampleDoubles_symmetric : symmetric (length sampleDoubles) sampleDoubles.
Proof.
  intros i j Hi Hj. simpl in Hi, Hj.
  destruct i as [|[|i]], j as [|[|j]]; try lia; reflexivity.
Defined.

Lemma sampleDoubles_finite : allFinite (length sampleDoubles) sampleDoubles.
Proof.
  intros i j Hi Hj. simpl in Hi, Hj.
  destruct i as [|[|i]], j as [|[|j]]; try lia; reflexivity.
Defined.

Lemma sampleDoubles_small :
  sumOfSquares (length sampleDoubles) (realCells sampleDoubles) <= 1.
Proof.
  assert (Hh : realOf 0.5%float = 1 / 2).
  { unfold realOf.
    replace (Prim2SF 0.5%float) with (S754_finite false 4503599627370496 (-53))
      by reflexivity.
    cbn [SF2R signed]. rewrite two_pow_53. lra. }
  assert (Hq : realOf 0.25%float = 1 / 4).
  { unfold realOf.
    replace (Prim2SF 0.25%float) with (S754_finite false 4503599627370496 (-54))
      by reflexivity.
    cbn [SF2R signed]. change (-54)%Z with (- (54))%Z.
    rewrite powerRZ_neg', <- two_pow_IZR by lia.
    change (2 ^ 54)%Z with 18014398509481984%Z. lra. }
  unfold sumOfSquares, bigsum, realCells.
  cbn [length sampleDoubles seq map Rsum fold_right cell at_ nth].
  rewrite Hh, Hq. lra.
Defined.

Lemma eigenvalue_sum_doubles_witness :
  let eigenvalues := values (jacobiMethod sampleMath sampleDoubles) in
  length eigenvalues = length sampleDoubles /\
  Forall (fun x => isFinite x = true) eigenvalues /\
  Rabs (Rsum (map realOf eigenvalues) - Rsum (map realOf (diagonal sampleDoubles)))
  <= 1 / 1000000000.
Proof.
  apply (@eigenvalue_sum_doubles sampleMath sampleDoubles sampleDoubles_square).
  - simpl. lia.
  - exact sampleDoubles_symmetric.
  - exact sampleDoubles_finite.
  - exact sampleDoubles_small.
  - exact sampleDoubles_angles.
Defined.

(** ** Where the sum of the eigenvalues leaves the trace *)

Lemma two_pow_11 : powerRZ 2 (-11) = (/ 2048)%R.
Proof.
  change (-11)%Z with (- (11))%Z. rewrite powerRZ_neg', <- two_pow_IZR by lia.
  reflexivity.
Qed.

Lemma two_pow_12 : powerRZ 2 (-12) = (/ 4096)%R.
Proof.
  change (-12)%Z with (- (12))%Z. rewrite powerRZ_neg', <- two_pow_IZR by lia.
  reflexivity.
Qed.

(** C1, as the specification states it (within a tolerance such as 1e-6,
    for every symmetric input), fails on doubles: for [largeMatrix],
    positive definite with entries of the order of 1e12, the loop makes one
    pass and meets the tolerance, and the two eigenvalues returned sum to
    4383913477430.421 as the program adds them, while the trace is
    4383913477430.4204; as real numbers they sum to 1/4096 more than the
    trace. *)
Lemma eigenvalue_sum_off_on_doubles :
  let r := jacobiMethod sampleMath largeMatrix in
  iter (jacobiFinal sampleMath largeMatrix) = 1%nat /\
  converged 2 (work (jacobiFinal sampleMath largeMatrix)) = true /\
  values r = [2261494098693.6333; 2122419378736.7874]%float /\
  diagonal largeMatrix = [2191956738715.2102; 2191956738715.2102]%float /\
  sumOf (values r) = 4383913477430.421%float /\
  sumOf (diagonal largeMatrix) = 4383913477430.4204%float /\
  (Rsum (map realOf (values r)) - Rsum (map realOf (diagonal largeMatrix))
   = 1 / 4096)%R.
Proof.
  assert (Hv : values (jacobiMethod sampleMath largeMatrix)
               = [2261494098693.6333; 2122419378736.7874]%float)
    by (vm_compute; reflexivity).
  assert (Hd : diagonal largeMatrix = [2191956738715.2102; 2191956738715.2102]%float)
    by (vm_compute; reflexivity).
  cbv zeta.
  split; [vm_compute; reflexivity|]. split; [vm_compute; reflexivity|].
  split; [exact Hv|]. split; [exact Hd|].
  split; [vm_compute; reflexivity|]. split; [vm_compute; reflexivity|].
  rewrite Hv, Hd. cbn [map Rsum fold_right]. unfold realOf.
  replace (Prim2SF 2261494098693.6333%float)
    with (S754_finite false 4631539914124561 (-11)) by reflexivity.
  replace (Prim2SF 2122419378736.7874%float)
    with (S754_finite false 8693429775305881 (-12)) by reflexivity.
  replace (Prim2SF 2191956738715.2102%float)
    with (S754_finite false 8978254801777501 (-12)) by reflexivity.
  cbn [SF2R signed]. rewrite two_pow_11, two_pow_12. lra.
Qed.
